(** * The outbound message queue of the WhatsApp channel (services/messageQueue.ts)

    A shallow embedding of the [MessageQueue] class: the queue store, the
    periodic dispatcher ([processQueue]), the per-message delivery state
    machine ([processMessage]) and the statistics port.

    How the JavaScript run time is represented:
    - Message objects are mutable and shared by reference (the queue array,
      the batch of [processQueue], the closure of every [setTimeout] and
      every suspended [processMessage] all point to the same object).  The
      state therefore has a [heap] of objects, and [queue], [timers] and
      [awaiting] hold references (indices into the heap).  A message that
      was removed from the queue stays in the heap, as it stays alive in
      JavaScript while a timer or a suspended call still points to it.
    - [Date] values are millisecond time stamps in [Z]; [number] counters
      are [Z].
    - The event loop is a labelled transition system: one [Op] per public
      method call and per callback the run time invokes (the interval
      callback, a timer callback, the resumption of a suspended
      [processMessage] with the answer of the transport).
    - [processMessage] is split at its first [await]: the synchronous
      prefix [processMessage_begin] and the rest [processMessage_resume],
      which receives what the transport answered.
    - The registered handlers are the observers of the port.  The state
      records which of the three handlers are set; a call
      [this.handlers.h?.(...)] is appended to [trace] when [h] is set and
      does nothing otherwise.  The start of every attempt and its time are
      appended to [trace] as well.  The only handler the application
      registers is a React state setter, so handlers are taken to return
      normally. *)

From stdpp Require Import base list strings sorting.
From Stdlib Require Import ZArith Lia.

Local Open Scope Z_scope.

Module MessageQueue.

(** ** Data model: [QueuedMessage] and [QueueStats] *)

Inductive Priority := low | normal | high | urgent.
Inductive Status := pending | sending | sent | failed | cancelled.
Inductive MessageType := text | media.

#[global] Instance Priority_eq_dec : EqDecision Priority.
Proof. solve_decision. Defined.
#[global] Instance Status_eq_dec : EqDecision Status.
Proof. solve_decision. Defined.
#[global] Instance MessageType_eq_dec : EqDecision MessageType.
Proof. solve_decision. Defined.

Record QueuedMessage := {
  id : string;
  to : string;
  message : string;
  type : MessageType;
  mediaUrl : option string;
  mediaType : option string;
  caption : option string;
  priority : Priority;
  status : Status;
  attempts : Z;
  maxAttempts : Z;
  createdAt : Z;
  scheduledFor : option Z;
  customerId : option Z;
  ticketId : option Z;
  metadata : option (list (string * string))
}.

(** The argument of [addMessage]:
    [Omit<QueuedMessage, 'id' | 'status' | 'attempts' | 'createdAt'>]. *)
Record NewMessage := {
  new_to : string;
  new_message : string;
  new_type : MessageType;
  new_mediaUrl : option string;
  new_mediaType : option string;
  new_caption : option string;
  new_priority : Priority;
  new_maxAttempts : Z;
  new_scheduledFor : option Z;
  new_customerId : option Z;
  new_ticketId : option Z;
  new_metadata : option (list (string * string))
}.

Record QueueStats := {
  stats_pending : Z;
  stats_sending : Z;
  stats_sent : Z;
  stats_failed : Z;
  stats_total : Z
}.

(** [message.status = st] *)
Definition set_status (st : Status) (m : QueuedMessage) : QueuedMessage :=
  {| id := id m; to := to m; message := message m; type := type m;
     mediaUrl := mediaUrl m; mediaType := mediaType m; caption := caption m;
     priority := priority m; status := st; attempts := attempts m;
     maxAttempts := maxAttempts m; createdAt := createdAt m;
     scheduledFor := scheduledFor m; customerId := customerId m;
     ticketId := ticketId m; metadata := metadata m |}.

(** [message.attempts = n] *)
Definition set_attempts (n : Z) (m : QueuedMessage) : QueuedMessage :=
  {| id := id m; to := to m; message := message m; type := type m;
     mediaUrl := mediaUrl m; mediaType := mediaType m; caption := caption m;
     priority := priority m; status := status m; attempts := n;
     maxAttempts := maxAttempts m; createdAt := createdAt m;
     scheduledFor := scheduledFor m; customerId := customerId m;
     ticketId := ticketId m; metadata := metadata m |}.

(** [message.status = 'sending'; message.attempts++] *)
Definition started (m : QueuedMessage) : QueuedMessage :=
  set_attempts (attempts m + 1) (set_status sending m).

(** [msg.status = 'pending'; msg.attempts = 0] *)
Definition reset (m : QueuedMessage) : QueuedMessage :=
  set_attempts 0 (set_status pending m).

(** ** The state of the queue object and of the run time around it *)

(** A reference to a message object: its index in the heap. *)
Abbreviation ref := nat (only parsing).

(** What the queue hands to the outside, and the start of every attempt. *)
Inductive Effect :=
  | Attempt (r : ref) (now : Z)            (* processMessage entered for r *)
  | OnMessageSent (r : ref)                (* the onMessageSent handler is called *)
  | OnMessageFailed (r : ref) (err : string)
  | OnQueueStatsChanged (st : QueueStats).

(** [this.handlers]: which of the optional handlers are set. *)
Record Handlers := {
  h_onMessageSent : bool;
  h_onMessageFailed : bool;
  h_onQueueStatsChanged : bool
}.

(** The three methods that set a handler. *)
Inductive HandlerName := onMessageSent | onMessageFailed | onQueueStatsChanged.

(** [this.handlers.name = handler] *)
Definition setHandler (name : HandlerName) (hs : Handlers) : Handlers :=
  match name with
  | onMessageSent =>
      {| h_onMessageSent := true; h_onMessageFailed := h_onMessageFailed hs;
         h_onQueueStatsChanged := h_onQueueStatsChanged hs |}
  | onMessageFailed =>
      {| h_onMessageSent := h_onMessageSent hs; h_onMessageFailed := true;
         h_onQueueStatsChanged := h_onQueueStatsChanged hs |}
  | onQueueStatsChanged =>
      {| h_onMessageSent := h_onMessageSent hs;
         h_onMessageFailed := h_onMessageFailed hs;
         h_onQueueStatsChanged := true |}
  end.

(** [{}] *)
Definition no_handlers : Handlers :=
  {| h_onMessageSent := false; h_onMessageFailed := false;
     h_onQueueStatsChanged := false |}.

Record State := {
  heap : list QueuedMessage;        (* every message object allocated so far *)
  queue : list ref;                 (* this.queue *)
  processing : bool;                (* this.processing *)
  processingInterval : bool;        (* this.processingInterval !== null *)
  timers : list (Z * ref);          (* pending setTimeout callbacks: due time, message *)
  awaiting : list (ref * bool);     (* suspended processMessage calls; the flag
                                       tells the calls of the processQueue batch *)
  clock : Z;                        (* time of the last event *)
  trace : list Effect;
  handlers : Handlers               (* this.handlers *)
}.

Definition set_heap (h : list QueuedMessage) (s : State) : State :=
  {| heap := h; queue := queue s; processing := processing s;
     processingInterval := processingInterval s; timers := timers s;
     awaiting := awaiting s; clock := clock s; trace := trace s;
     handlers := handlers s |}.

Definition set_queue (q : list ref) (s : State) : State :=
  {| heap := heap s; queue := q; processing := processing s;
     processingInterval := processingInterval s; timers := timers s;
     awaiting := awaiting s; clock := clock s; trace := trace s;
     handlers := handlers s |}.

Definition set_processing (b : bool) (s : State) : State :=
  {| heap := heap s; queue := queue s; processing := b;
     processingInterval := processingInterval s; timers := timers s;
     awaiting := awaiting s; clock := clock s; trace := trace s;
     handlers := handlers s |}.

Definition set_processingInterval (b : bool) (s : State) : State :=
  {| heap := heap s; queue := queue s; processing := processing s;
     processingInterval := b; timers := timers s;
     awaiting := awaiting s; clock := clock s; trace := trace s;
     handlers := handlers s |}.

Definition set_timers (t : list (Z * ref)) (s : State) : State :=
  {| heap := heap s; queue := queue s; processing := processing s;
     processingInterval := processingInterval s; timers := t;
     awaiting := awaiting s; clock := clock s; trace := trace s;
     handlers := handlers s |}.

Definition set_awaiting (a : list (ref * bool)) (s : State) : State :=
  {| heap := heap s; queue := queue s; processing := processing s;
     processingInterval := processingInterval s; timers := timers s;
     awaiting := a; clock := clock s; trace := trace s;
     handlers := handlers s |}.

Definition set_clock (c : Z) (s : State) : State :=
  {| heap := heap s; queue := queue s; processing := processing s;
     processingInterval := processingInterval s; timers := timers s;
     awaiting := awaiting s; clock := c; trace := trace s;
     handlers := handlers s |}.

Definition emit (e : Effect) (s : State) : State :=
  {| heap := heap s; queue := queue s; processing := processing s;
     processingInterval := processingInterval s; timers := timers s;
     awaiting := awaiting s; clock := clock s; trace := trace s ++ [e];
     handlers := handlers s |}.

Definition set_handlers (hs : Handlers) (s : State) : State :=
  {| heap := heap s; queue := queue s; processing := processing s;
     processingInterval := processingInterval s; timers := timers s;
     awaiting := awaiting s; clock := clock s; trace := trace s;
     handlers := hs |}.

(** [this.handlers.h?.(...)]: the handler is called when it is set. *)
Definition call (is_set : bool) (e : Effect) (s : State) : State :=
  {| heap := heap s; queue := queue s; processing := processing s;
     processingInterval := processingInterval s; timers := timers s;
     awaiting := awaiting s; clock := clock s;
     trace := trace s ++ (if is_set then [e] else []);
     handlers := handlers s |}.

(** The constructor: empty queue, no handlers, [startProcessing] installs
    the interval. *)
Definition init : State :=
  {| heap := []; queue := []; processing := false; processingInterval := true;
     timers := []; awaiting := []; clock := 0; trace := [];
     handlers := no_handlers |}.

(** [onMessageSent(handler)], [onMessageFailed(handler)],
    [onQueueStatsChanged(handler)] *)
Definition register (name : HandlerName) (s : State) : State :=
  set_handlers (setHandler name (handlers s)) s.

(** Reading and writing through a reference. *)
Definition deref (s : State) (r : ref) : option QueuedMessage := heap s !! r.

Definition modify (r : ref) (f : QueuedMessage → QueuedMessage) (s : State) : State :=
  set_heap (alter f r (heap s)) s.

(** [sat s P r]: the object behind [r] satisfies [P]. *)
Definition sat (s : State) (P : QueuedMessage → Prop) (r : ref) : Prop :=
  from_option P False (deref s r).

#[global] Instance sat_dec s P `{∀ m, Decision (P m)} r : Decision (sat s P r).
Proof. unfold sat. destruct (deref s r); simpl; apply _. Defined.

(** ** The queue store *)

(** [getMessages]: the array is copied, the objects are not; this is the
    sequence of the objects' current contents. *)
Definition getMessages (s : State) : list QueuedMessage :=
  omap (deref s) (queue s).

(** [getMessage]: the first object with that id (the caller gets the
    reference). *)
Definition getMessage (messageId : string) (s : State) : option ref :=
  snd <$> list_find (sat s (λ m, id m = messageId)) (queue s).

Definition getMessagesByStatus (st : Status) (s : State) : list QueuedMessage :=
  filter (λ m, status m = st) (getMessages s).

Definition getMessagesByCustomer (c : Z) (s : State) : list QueuedMessage :=
  filter (λ m, customerId m = Some c) (getMessages s).

Definition getMessagesByTicket (t : Z) (s : State) : list QueuedMessage :=
  filter (λ m, ticketId m = Some t) (getMessages s).

(** [getStats]: [total] is the length of the array; the [switch] has no
    case for [cancelled]. *)
Definition count_status (st : Status) (l : list QueuedMessage) : Z :=
  Z.of_nat (length (filter (λ m, status m = st) l)).

Definition getStats (s : State) : QueueStats :=
  {| stats_pending := count_status pending (getMessages s);
     stats_sending := count_status sending (getMessages s);
     stats_sent := count_status sent (getMessages s);
     stats_failed := count_status failed (getMessages s);
     stats_total := Z.of_nat (length (queue s)) |}.

Definition notifyStatsChanged (s : State) : State :=
  call (h_onQueueStatsChanged (handlers s)) (OnQueueStatsChanged (getStats s)) s.

(** [insertByPriority] *)
Definition priorityOrder (p : Priority) : Z :=
  match p with urgent => 0 | high => 1 | normal => 2 | low => 3 end.

(** The test of the loop body that ends the scan at resident [cur]. *)
Definition goes_before (m cur : QueuedMessage) : bool :=
  match scheduledFor m, scheduledFor cur with
  | Some t, Some t' => t <? t'
  | _, _ => priorityOrder (priority m) <? priorityOrder (priority cur)
  end.

(** The [for] loop with its [break]: [i] is the index of the head of [q]. *)
Fixpoint insertIndex (m : QueuedMessage) (q : list QueuedMessage) (i : nat) : nat :=
  match q with
  | [] => i
  | cur :: q' => if goes_before m cur then i else insertIndex m q' (S i)
  end.

(** [array.splice(i, 0, x)] *)
Definition splice_in {A} (i : nat) (x : A) (l : list A) : list A :=
  take i l ++ x :: drop i l.

Definition insertByPriority (r : ref) (m : QueuedMessage) (s : State) : State :=
  set_queue (splice_in (insertIndex m (getMessages s) 0) r (queue s)) s.

(** [addMessage]: [newid] is what [generateId] returned, [now] is
    [new Date()]. *)
Definition queuedMessage (spec : NewMessage) (newid : string) (now : Z) : QueuedMessage :=
  {| id := newid; to := new_to spec; message := new_message spec;
     type := new_type spec; mediaUrl := new_mediaUrl spec;
     mediaType := new_mediaType spec; caption := new_caption spec;
     priority := new_priority spec; status := pending; attempts := 0;
     maxAttempts := new_maxAttempts spec; createdAt := now;
     scheduledFor := new_scheduledFor spec; customerId := new_customerId spec;
     ticketId := new_ticketId spec; metadata := new_metadata spec |}.

Definition addMessage (spec : NewMessage) (newid : string) (now : Z) (s : State)
  : string * State :=
  let m := queuedMessage spec newid now in
  let r := length (heap s) in
  let s1 := set_heap (heap s ++ [m]) s in
  (newid, notifyStatsChanged (insertByPriority r m s1)).

(** [removeMessage]: [findIndex] then [splice(index, 1)]. *)
Definition removeMessage (messageId : string) (s : State) : bool * State :=
  match list_find (sat s (λ m, id m = messageId)) (queue s) with
  | Some (index, _) => (true, notifyStatsChanged (set_queue (delete index (queue s)) s))
  | None => (false, s)
  end.

(** [cancelMessage] *)
Definition cancelMessage (messageId : string) (s : State) : bool * State :=
  match getMessage messageId s with
  | Some r =>
      if bool_decide (sat s (λ m, status m = pending) r)
      then (true, notifyStatsChanged (modify r (set_status cancelled) s))
      else (false, s)
  | None => (false, s)
  end.

(** [clearCompleted] *)
Definition completed (m : QueuedMessage) : Prop :=
  status m ∈ [sent; failed; cancelled].

#[global] Instance completed_dec m : Decision (completed m).
Proof. unfold completed. apply _. Defined.

Definition clearCompleted (s : State) : Z * State :=
  let initialLength := length (queue s) in
  let s1 := set_queue (filter (λ r, ¬ sat s completed r) (queue s)) s in
  let removed := Z.of_nat initialLength - Z.of_nat (length (queue s1)) in
  (removed, if bool_decide (0 < removed) then notifyStatsChanged s1 else s1).

(** [retryFailed]: the [forEach] over the array. *)
Definition retryable (m : QueuedMessage) : Prop :=
  status m = failed ∧ attempts m < maxAttempts m.

#[global] Instance retryable_dec m : Decision (retryable m).
Proof. unfold retryable. apply _. Defined.

Definition retry_one (acc : Z * State) (r : ref) : Z * State :=
  let '(retried, s) := acc in
  if bool_decide (sat s retryable r)
  then (retried + 1, modify r reset s)
  else (retried, s).

Definition retryFailed (s : State) : Z * State :=
  let '(retried, s1) := foldl retry_one (0, s) (queue s) in
  (retried, if bool_decide (0 < retried) then notifyStatsChanged s1 else s1).

(** ** The transport, as one attempt sees it *)

(** What a [throw] carries: an [Error] with its message, or any other value. *)
Inductive Thrown := ErrorObject (msg : string) | OtherValue.

(** The answer of [sendMessage] / [sendMedia] (a rejected [import] or
    [MessageMedia.fromUrl] is a rejection as well). *)
Inductive SendResult := Resolved (success : bool) | Rejected (error : Thrown).

Record Transport := {
  isConnected : bool;      (* whatsappService.isConnected() *)
  send : SendResult
}.

(** [error instanceof Error ? error.message : 'Erro desconhecido'] *)
Definition describe (error : Thrown) : string :=
  match error with
  | ErrorObject msg => msg
  | OtherValue => "Erro desconhecido"
  end.

(** Truth value of an optional string in a condition: [undefined] and the
    empty string are false. *)
Definition truthy (o : option string) : bool :=
  match o with
  | None => false
  | Some EmptyString => false
  | Some _ => true
  end.

(** [Math.min(1000 * Math.pow(2, message.attempts - 1), 30000)]; it is
    evaluated after [attempts++], so the exponent is not negative. *)
Definition backoff (attempts : Z) : Z :=
  Z.min (1000 * 2 ^ (attempts - 1)) 30000.

(** ** The delivery state machine: [processMessage] *)

(** Up to the first [await]: runs inside the caller. *)
Definition processMessage_begin (r : ref) (batch : bool) (now : Z) (s : State) : State :=
  let s1 := modify r started s in
  let s2 := notifyStatsChanged s1 in
  set_awaiting (awaiting s2 ++ [(r, batch)]) (emit (Attempt r now) s2).

(** The transport part of the [try] block: the connectivity check and the
    call of [sendMessage] or [sendMedia]; [inr success] or a thrown value. *)
Definition send_outcome (m : QueuedMessage) (t : Transport) : Thrown + bool :=
  if negb (isConnected t) then inl (ErrorObject "WhatsApp não está conectado")
  else
    match type m with
    | text =>
        match send t with Resolved b => inr b | Rejected e => inl e end
    | media =>
        if truthy (mediaUrl m)
        then match send t with Resolved b => inr b | Rejected e => inl e end
        else inr false
    end.

(** The rest of the [try] block: either it throws, or the message is sent. *)
Definition processMessage_try (r : ref) (m : QueuedMessage) (t : Transport) (s : State)
  : Thrown + State :=
  match send_outcome m t with
  | inl e => inl e
  | inr true =>
      inr (call (h_onMessageSent (handlers s)) (OnMessageSent r)
             (modify r (set_status sent) s))
  | inr false => inl (ErrorObject "Falha ao enviar mensagem")
  end.

(** The [catch] block. *)
Definition processMessage_catch (r : ref) (m : QueuedMessage) (error : Thrown)
    (now : Z) (s : State) : State :=
  if bool_decide (maxAttempts m ≤ attempts m)
  then call (h_onMessageFailed (handlers s)) (OnMessageFailed r (describe error))
         (modify r (set_status failed) s)
  else set_timers (timers s ++ [(now + backoff (attempts m), r)])
         (modify r (set_status pending) s).

(** After the first [await], to the end: [inl] is a rejected promise, [inr]
    a fulfilled one.  [m] is the object behind [r] when the call resumes. *)
Definition processMessage_resume (r : ref) (m : QueuedMessage) (t : Transport)
    (now : Z) (s : State) : Thrown + State :=
  match processMessage_try r m t s with
  | inr s1 => inr (notifyStatsChanged s1)
  | inl error => inr (notifyStatsChanged (processMessage_catch r m error now s))
  end.

(** ** The dispatcher: [processQueue] *)

(** The filter: [msg.status === 'pending' &&
    (!msg.scheduledFor || msg.scheduledFor <= new Date())]. *)
Definition due (now : Z) (m : QueuedMessage) : Prop :=
  status m = pending ∧ from_option (λ t, t ≤ now) True (scheduledFor m).

#[global] Instance due_dec now m : Decision (due now m).
Proof. unfold due. destruct (scheduledFor m); simpl; apply _. Defined.

Definition pendingMessages (now : Z) (s : State) : list ref :=
  filter (sat s (due now)) (queue s).

Definition batch_of (now : Z) (s : State) : list ref :=
  take 5 (pendingMessages now s).

(** Up to the [await Promise.all]: every call of the batch runs to its own
    first [await]. *)
Definition processQueue (now : Z) (s : State) : State :=
  if processing s then s
  else match pendingMessages now s with
       | [] => s
       | _ => foldl (λ s' r, processMessage_begin r true now s')
                (set_processing true s) (batch_of now s)
       end.

(** [destroy]: the interval is cleared, the queue and the handlers are
    emptied. *)
Definition destroy (s : State) : State :=
  set_handlers no_handlers (set_queue [] (set_processingInterval false s)).

(** ** The event loop *)

Inductive Op :=
  | AddMessage (spec : NewMessage) (newid : string) (now : Z)
  | RemoveMessage (messageId : string)
  | CancelMessage (messageId : string)
  | ClearCompleted
  | RetryFailed
  | Destroy
  | Interval (now : Z)                         (* the setInterval callback *)
  | Timeout (k : nat) (now : Z)                (* the k-th pending timer fires *)
  | Resume (k : nat) (t : Transport) (now : Z) (* the k-th suspended call goes on *)
  | Register (name : HandlerName).             (* a handler is set *)

(** The callback given to [setTimeout]. *)
Definition on_timeout (k : nat) (now : Z) (s : State) : option State :=
  match timers s !! k with
  | Some (at_, r) =>
      if bool_decide (at_ ≤ now) then
        let s0 := set_timers (delete k (timers s)) s in
        Some (if bool_decide (sat s0 (λ m, status m = pending) r)
              then processMessage_begin r false now s0
              else s0)
      else None
  | None => None
  end.

(** Is a call of the batch still suspended? *)
Definition batch_outstanding (s : State) : bool :=
  bool_decide (Exists (λ e : ref * bool, e.2 = true) (awaiting s)).

(** A suspended [processMessage] goes on with the answer of the transport.
    When the last call of the batch settles, [Promise.all] settles and the
    [finally] of [processQueue] clears [processing]; a rejection would
    settle [Promise.all] at once. *)
Definition on_resume (k : nat) (t : Transport) (now : Z) (s : State) : option State :=
  match awaiting s !! k with
  | Some (r, batch) =>
      match deref s r with
      | Some m =>
          let s0 := set_awaiting (delete k (awaiting s)) s in
          match processMessage_resume r m t now s0 with
          | inr s1 =>
              Some (if batch && negb (batch_outstanding s1)
                    then set_processing false s1 else s1)
          | inl _ => Some (if batch : bool then set_processing false s0 else s0)
          end
      | None => None
      end
  | None => None
  end.

(** One event.  [None]: the event cannot happen in this state (time does
    not go back, a timer does not fire early, the interval was cleared). *)
Definition step (op : Op) (s : State) : option State :=
  match op with
  | AddMessage spec newid now =>
      if bool_decide (clock s ≤ now)
      then Some (snd (addMessage spec newid now (set_clock now s))) else None
  | RemoveMessage messageId => Some (snd (removeMessage messageId s))
  | CancelMessage messageId => Some (snd (cancelMessage messageId s))
  | ClearCompleted => Some (snd (clearCompleted s))
  | RetryFailed => Some (snd (retryFailed s))
  | Destroy => Some (destroy s)
  | Interval now =>
      if bool_decide (clock s ≤ now) && processingInterval s
      then Some (processQueue now (set_clock now s)) else None
  | Timeout k now =>
      if bool_decide (clock s ≤ now) then on_timeout k now (set_clock now s) else None
  | Resume k t now =>
      if bool_decide (clock s ≤ now) then on_resume k t now (set_clock now s) else None
  | Register name => Some (register name s)
  end.

Fixpoint run (ops : list Op) (s : State) : option State :=
  match ops with
  | [] => Some s
  | op :: ops' =>
      match step op s with
      | Some s' => run ops' s'
      | None => None
      end
  end.

End MessageQueue.

(** ** The retry button of the messenger page (WhatsAppMessenger.tsx)

    [retryFailedMessage] writes through the reference that [getMessage]
    returned. *)
Module WhatsAppMessenger.
Import MessageQueue.

Definition retryFailedMessage (messageId : string) (s : State) : State :=
  match getMessage messageId s with
  | Some r =>
      if bool_decide (sat s (λ m, status m = failed) r)
      then modify r reset s
      else s
  | None => s
  end.

End WhatsAppMessenger.

(** * Properties *)

Module Properties.
Import MessageQueue.

(** ** Definitions used by the statements *)

(** The status one settled attempt leaves in the message: [sent] from the
    [try] block, [failed] or [pending] from the [catch] block. *)
Definition settle_status (m : QueuedMessage) (t : Transport) : Status :=
  match send_outcome m t with
  | inr true => sent
  | _ => if bool_decide (maxAttempts m ≤ attempts m) then failed else pending
  end.

Definition settled (m : QueuedMessage) (t : Transport) : QueuedMessage :=
  set_status (settle_status m t) m.

(** The attempt did not deliver: the transport is down, the call threw, or
    it answered false. *)
Definition attempt_failed (m : QueuedMessage) (t : Transport) : Prop :=
  send_outcome m t ≠ inr true.

(** The transitions of one message, and which event causes which. *)
Inductive Cause := Dispatch | Settle (t : Transport) | Cancel | Reset.

Inductive transition : Cause → QueuedMessage → QueuedMessage → Prop :=
  | tr_dispatch m : status m = pending → transition Dispatch m (started m)
  | tr_settle m t : status m = sending → transition (Settle t) m (settled m t)
  | tr_cancel m : status m = pending → transition Cancel m (set_status cancelled m)
  | tr_reset m : retryable m → transition Reset m (reset m).

Definition causes (op : Op) (s : State) (r : ref) (c : Cause) : Prop :=
  match op, c with
  | Interval now, Dispatch => processing s = false ∧ r ∈ batch_of now s
  | Timeout k now, Dispatch => ∃ at_, timers s !! k = Some (at_, r)
  | Resume k t now, Settle t' => t' = t ∧ ∃ b, awaiting s !! k = Some (r, b)
  | CancelMessage i, Cancel => getMessage i s = Some r
  | RetryFailed, Reset => r ∈ queue s
  | _, _ => False
  end.

(** The shape of the references: the queue holds every object once, every
    queued reference is allocated, and a suspended call exists once per
    message and only for a message that is being sent. *)
Record Inv (s : State) : Prop := {
  inv_queue_nodup : NoDup (queue s);
  inv_queue_alloc : ∀ r, r ∈ queue s → (r < length (heap s))%nat;
  inv_await_nodup : NoDup (awaiting s).*1;
  inv_await_sending : ∀ r, r ∈ (awaiting s).*1 → sat s (λ m, status m = sending) r
}.

(** Every message of the trace is enqueued with a budget of at least one
    attempt, as the data model requires of callers. *)
Definition budget_ok (op : Op) : Prop :=
  match op with
  | AddMessage spec _ _ => 1 ≤ new_maxAttempts spec
  | _ => True
  end.

Definition terminal (st : Status) : Prop := st ∈ [sent; failed; cancelled].

(** The attempts started so far, with their times, oldest first. *)
Definition attempts_made (s : State) : list (ref * Z) :=
  omap (λ e, match e with Attempt r now => Some (r, now) | _ => None end) (trace s).

(** What the retry and failure accounting of the queue consists of: the
    messages, the queue, the pending timers, the suspended calls and the
    re-entrancy flag. *)
Definition accounting (s : State)
  : list QueuedMessage * list ref * list (Z * ref) * list (ref * bool) * bool :=
  (heap s, queue s, timers s, awaiting s, processing s).

(** The send call threw [e] / answered false, on a connected transport. *)
Definition send_throws (e : Thrown) : Transport :=
  {| isConnected := true; send := Rejected e |}.

Definition send_returns (b : bool) : Transport :=
  {| isConnected := true; send := Resolved b |}.

(** The ordering rule in the words of the specification: when both the new
    message and the resident carry a scheduled time, the resident's is
    strictly later; when either lacks one, the resident's priority is
    strictly lower (urgent = 0 < high = 1 < normal = 2 < low = 3). *)
Definition rank (p : Priority) : Z :=
  match p with urgent => 0 | high => 1 | normal => 2 | low => 3 end.

Definition placed_before (new resident : QueuedMessage) : Prop :=
  match scheduledFor new, scheduledFor resident with
  | Some t, Some t' => t < t'
  | _, _ => rank (priority new) < rank (priority resident)
  end.

(** The edges of the delivery state machine. *)
Inductive edge : Status → Status → Prop :=
  | edge_dispatch : edge pending sending
  | edge_sent : edge sending sent
  | edge_retry : edge sending pending
  | edge_failed : edge sending failed
  | edge_cancel : edge pending cancelled.

(** What holds of every message object whatever the budgets are. *)
Definition accounted (m : QueuedMessage) : Prop :=
  0 ≤ attempts m ∧ (status m = failed → maxAttempts m ≤ attempts m).

(** What holds of every message object when budgets are at least one. *)
Definition within_budget (m : QueuedMessage) : Prop :=
  1 ≤ maxAttempts m ∧ 0 ≤ attempts m ≤ maxAttempts m
  ∧ (status m = pending → attempts m < maxAttempts m)
  ∧ (status m = failed → attempts m = maxAttempts m).

(** ** Histories used as instances *)

(** A text message as the messenger page enqueues it. *)
Definition sample_text (p : Priority) (budget : Z) (at_ : option Z) : NewMessage :=
  {| new_to := "555@dest"; new_message := "hi"; new_type := text;
     new_mediaUrl := None; new_mediaType := None; new_caption := None;
     new_priority := p; new_maxAttempts := budget; new_scheduledFor := at_;
     new_customerId := None; new_ticketId := None; new_metadata := None |}.

Definition transport_down : Transport :=
  {| isConnected := false; send := Resolved true |}.

Definition transport_ok : Transport :=
  {| isConnected := true; send := Resolved true |}.

(** Three messages; the low one is cancelled, the interval dispatches the
    other two, the urgent one is delivered and the normal one fails once:
    the state has a sent, a pending and a cancelled message and a timer. *)
Definition sample_ops : list Op :=
  [ AddMessage (sample_text normal 3 None) "msg_a" 1000;
    AddMessage (sample_text urgent 3 None) "msg_b" 1100;
    AddMessage (sample_text low 3 None) "msg_c" 1200;
    CancelMessage "msg_c";
    Interval 2000;
    Resume 0 transport_ok 2050;
    Resume 0 transport_down 2060 ].

Definition sample_state : State :=
  Eval vm_compute in default init (run sample_ops init).

(** One message with a budget of three attempts and a transport that is
    down: the interval dispatches it at 2000, its timer retries it at 3000
    and the second attempt fails at 3000. *)
Definition backoff_ops : list Op :=
  [ AddMessage (sample_text normal 3 None) "msg_a" 1000;
    Interval 2000;
    Resume 0 transport_down 2000;
    Timeout 0 3000;
    Resume 0 transport_down 3000 ].

Definition backoff_state : State :=
  Eval vm_compute in default init (run backoff_ops init).

(** The next interval callback, at 4000. *)
Definition dispatched_early : State :=
  Eval vm_compute in default init (step (Interval 4000) backoff_state).

(** The same history, with the third attempt failing as well. *)
Definition exhausting_ops : list Op :=
  backoff_ops ++ [ Interval 4000; Resume 0 transport_down 4000 ].

Definition exhausted_state : State :=
  Eval vm_compute in default init (run exhausting_ops init).

(** One message whose first attempt is under way. *)
Definition inflight_state : State :=
  Eval vm_compute in
    default init (run [AddMessage (sample_text normal 3 None) "msg_a" 1000;
                       Interval 2000] init).

(** The priorities low, urgent, normal, high, enqueued in this order. *)
Definition four_priorities : list Op :=
  [ AddMessage (sample_text low 3 None) "m1" 0;
    AddMessage (sample_text urgent 3 None) "m2" 1;
    AddMessage (sample_text normal 3 None) "m3" 2;
    AddMessage (sample_text high 3 None) "m4" 3 ].

(** ** Reading through references *)

Lemma sat_iff s P r : sat s P r ↔ ∃ m, heap s !! r = Some m ∧ P m.
Proof.
  unfold sat, deref. destruct (heap s !! r) as [m|]; simpl.
  - split; [eauto | intros (m' & [= <-] & H); exact H].
  - split; [tauto | intros (m' & [=] & _)].
Qed.

Lemma sat_heap s s' P r : heap s' = heap s → sat s' P r ↔ sat s P r.
Proof. intros E. unfold sat, deref. by rewrite E. Qed.

Lemma sat_alloc s P r : sat s P r → (r < length (heap s))%nat.
Proof. rewrite sat_iff. intros (m & H & _). by eapply lookup_lt_Some. Qed.

Lemma getMessages_lookup s i :
  (∀ r, r ∈ queue s → (r < length (heap s))%nat) →
  getMessages s !! i = queue s !! i ≫= deref s.
Proof.
  unfold getMessages. revert i. induction (queue s) as [|r q IH]; intros i Hq.
  - done.
  - assert (is_Some (deref s r)) as [m Hm].
    { apply lookup_lt_is_Some. apply Hq. left. }
    simpl. rewrite Hm. destruct i as [|i]; simpl.
    + done.
    + apply IH. intros r' Hr'. apply Hq. by right.
Qed.

Lemma getMessages_length s :
  (∀ r, r ∈ queue s → (r < length (heap s))%nat) →
  length (getMessages s) = length (queue s).
Proof.
  unfold getMessages. induction (queue s) as [|r q IH]; intros Hq; [done|].
  assert (is_Some (deref s r)) as [m Hm].
  { apply lookup_lt_is_Some. apply Hq. left. }
  simpl. rewrite Hm. simpl. f_equal. apply IH.
  intros r' Hr'. apply Hq. by right.
Qed.

(** ** Folds that write through references *)

Lemma alter_fold_length {A} (f : A → A) (l : list nat) (h : list A) :
  length (foldl (λ h' r, alter f r h') h l) = length h.
Proof.
  revert h. induction l as [|r l IH]; intros h; simpl; [done|].
  by rewrite IH, length_alter.
Qed.

Lemma alter_fold_notin {A} (f : A → A) (l : list nat) (h : list A) (r : nat) :
  r ∉ l → foldl (λ h' r', alter f r' h') h l !! r = h !! r.
Proof.
  revert h. induction l as [|r0 l IH]; intros h Hr; simpl; [done|].
  apply not_elem_of_cons in Hr as [Hne Hr].
  rewrite IH by done. by apply list_lookup_alter_ne.
Qed.

Lemma alter_fold_in {A} (f : A → A) (l : list nat) (h : list A) (r : nat) :
  NoDup l → r ∈ l → foldl (λ h' r', alter f r' h') h l !! r = f <$> h !! r.
Proof.
  revert h. induction l as [|r0 l IH]; intros h Hnd Hr; simpl.
  - by apply elem_of_nil in Hr.
  - apply NoDup_cons in Hnd as [Hr0 Hnd].
    apply elem_of_cons in Hr as [->|Hr].
    + rewrite alter_fold_notin by done. apply list_lookup_alter_eq.
    + rewrite IH by done. f_equal. apply list_lookup_alter_ne.
      intros ->. contradiction.
Qed.

(** ** What each operation does to the state *)

Section begin_fold.
Variables (b : bool) (now : Z).

Lemma dispatch_heap l s :
  heap (foldl (λ s' r, processMessage_begin r b now s') s l)
  = foldl (λ h r, alter started r h) (heap s) l.
Proof. revert s. induction l as [|r l IH]; intros s; simpl; [done|]. by rewrite IH. Qed.

Lemma dispatch_queue l s :
  queue (foldl (λ s' r, processMessage_begin r b now s') s l) = queue s.
Proof. revert s. induction l as [|r l IH]; intros s; simpl; [done|]. by rewrite IH. Qed.

Lemma dispatch_awaiting l s :
  awaiting (foldl (λ s' r, processMessage_begin r b now s') s l)
  = awaiting s ++ ((λ r, (r, b)) <$> l).
Proof.
  revert s. induction l as [|r l IH]; intros s; simpl.
  - by rewrite app_nil_r.
  - rewrite IH. simpl. by rewrite <- app_assoc.
Qed.

Lemma dispatch_timers l s :
  timers (foldl (λ s' r, processMessage_begin r b now s') s l) = timers s.
Proof. revert s. induction l as [|r l IH]; intros s; simpl; [done|]. by rewrite IH. Qed.

Lemma dispatch_processing l s :
  processing (foldl (λ s' r, processMessage_begin r b now s') s l) = processing s.
Proof. revert s. induction l as [|r l IH]; intros s; simpl; [done|]. by rewrite IH. Qed.

End begin_fold.

(** ** The shape invariant is kept by every operation *)

Lemma Inv_ext s s' :
  heap s' = heap s → queue s' = queue s → awaiting s' = awaiting s →
  Inv s → Inv s'.
Proof.
  intros Hh Hq Ha [H1 H2 H3 H4]. split.
  - by rewrite Hq.
  - rewrite Hq, Hh. exact H2.
  - by rewrite Ha.
  - rewrite Ha. intros r Hr. apply (sat_heap s s'); auto.
Qed.

Lemma Inv_init : Inv init.
Proof.
  split; simpl.
  - constructor.
  - intros r Hr. by apply elem_of_nil in Hr.
  - constructor.
  - intros r Hr. by apply elem_of_nil in Hr.
Qed.

Lemma awaiting_not_pending s r st :
  Inv s → sat s (λ m, status m = st) r → st ≠ sending → r ∉ (awaiting s).*1.
Proof.
  intros HI Hst Hne Hin. apply (inv_await_sending s HI) in Hin.
  apply sat_iff in Hst as (m & Hm & <-). apply sat_iff in Hin as (m' & Hm' & Hs).
  congruence.
Qed.

Lemma modify_Inv s r f :
  Inv s → r ∉ (awaiting s).*1 → Inv (modify r f s).
Proof.
  intros [H1 H2 H3 H4] Hr. split; simpl; auto.
  - rewrite length_alter. exact H2.
  - intros r' Hr'. specialize (H4 r' Hr'). apply sat_iff in H4 as (m & Hm & Hs).
    apply sat_iff. exists m. split; [|done]. simpl.
    rewrite list_lookup_alter_ne; [done|]. intros ->. contradiction.
Qed.

Lemma dispatch_lookup b now l s r :
  NoDup l →
  heap (foldl (λ s' r', processMessage_begin r' b now s') s l) !! r
  = if decide (r ∈ l) then started <$> heap s !! r else heap s !! r.
Proof.
  intros Hnd. rewrite dispatch_heap. case_decide.
  - by apply alter_fold_in.
  - by apply alter_fold_notin.
Qed.

Lemma dispatch_Inv b now l s :
  Inv s → NoDup l → (∀ r, r ∈ l → sat s (λ m, status m = pending) r) →
  Inv (foldl (λ s' r, processMessage_begin r b now s') s l).
Proof.
  intros HI Hnd Hp. destruct HI as [H1 H2 H3 H4]. split.
  - by rewrite dispatch_queue.
  - rewrite dispatch_queue, dispatch_heap, alter_fold_length. exact H2.
  - rewrite dispatch_awaiting, fmap_app, <- list_fmap_compose.
    simpl. rewrite list_fmap_id. apply NoDup_app. split; [done|]. split; [|done].
    intros r Hr Hr'. apply H4 in Hr. apply Hp in Hr'.
    apply sat_iff in Hr as (m & Hm & Hs). apply sat_iff in Hr' as (m' & Hm' & Hs').
    congruence.
  - rewrite dispatch_awaiting, fmap_app, <- list_fmap_compose.
    simpl. rewrite list_fmap_id. intros r Hr. apply sat_iff.
    rewrite dispatch_lookup by done. case_decide as Hin.
    + apply Hp in Hin. apply sat_iff in Hin as (m & Hm & _).
      rewrite Hm. exists (started m). done.
    + apply elem_of_app in Hr as [Hr|Hr]; [|contradiction].
      apply H4 in Hr. by apply sat_iff in Hr.
Qed.

Lemma begin_Inv b now r s :
  Inv s → sat s (λ m, status m = pending) r → Inv (processMessage_begin r b now s).
Proof.
  intros HI Hp. apply (dispatch_Inv b now [r] s HI).
  - apply NoDup_singleton.
  - intros r' Hr'. apply list_elem_of_singleton in Hr'. by subst.
Qed.

Lemma notify_Inv s : Inv s → Inv (notifyStatsChanged s).
Proof. by apply Inv_ext. Qed.


Lemma cancelMessage_Inv i s : Inv s → Inv (cancelMessage i s).2.
Proof.
  intros HI. unfold cancelMessage.
  destruct (getMessage i s) as [r|]; [|done].
  case_bool_decide as Hp; [|done]. simpl.
  apply notify_Inv, modify_Inv; [done|].
  by eapply awaiting_not_pending.
Qed.

Lemma retry_one_Inv acc r : Inv acc.2 → Inv (retry_one acc r).2.
Proof.
  destruct acc as [n s]. simpl. intros HI.
  case_bool_decide as Hr; [|done]. simpl.
  apply modify_Inv; [done|].
  eapply (awaiting_not_pending s r failed); [done| |done].
  apply sat_iff in Hr as (m & Hm & Hf & _). apply sat_iff. eauto.
Qed.

Lemma retry_fold_Inv l acc : Inv acc.2 → Inv (foldl retry_one acc l).2.
Proof.
  revert acc. induction l as [|r l IH]; intros acc HI; simpl; [done|].
  by apply IH, retry_one_Inv.
Qed.

Lemma retryFailed_Inv s : Inv s → Inv (retryFailed s).2.
Proof.
  intros HI. unfold retryFailed.
  pose proof (retry_fold_Inv (queue s) (0, s) HI) as H.
  destruct (foldl retry_one (0, s) (queue s)) as [n s1]. simpl in *.
  case_bool_decide; [by apply notify_Inv|done].
Qed.

Lemma Inv_subqueue s q :
  Inv s → NoDup q → (∀ r, r ∈ q → r ∈ queue s) → Inv (set_queue q s).
Proof.
  intros [H1 H2 H3 H4] Hnd Hsub. split; simpl; auto.
Qed.

Lemma clearCompleted_Inv s : Inv s → Inv (clearCompleted s).2.
Proof.
  intros HI. unfold clearCompleted. simpl.
  assert (Inv (set_queue (filter (λ r, ¬ sat s completed r) (queue s)) s)) as H.
  { apply Inv_subqueue; [done| |].
    - apply NoDup_filter, HI.
    - intros r Hr. by apply list_elem_of_filter in Hr as [_ Hr]. }
  case_bool_decide; [by apply notify_Inv|done].
Qed.

Lemma removeMessage_Inv i s : Inv s → Inv (removeMessage i s).2.
Proof.
  intros HI. unfold removeMessage.
  destruct (list_find _ _) as [[k r]|]; [|done]. simpl.
  apply notify_Inv, Inv_subqueue; [done| |].
  - eapply sublist_NoDup; [apply HI|apply sublist_delete].
  - intros r' Hr'. eapply elem_of_sublist; [done|apply sublist_delete].
Qed.

Lemma destroy_Inv s : Inv s → Inv (destroy s).
Proof.
  intros [H1 H2 H3 H4]. split; simpl; auto.
  - constructor.
  - intros r Hr. by apply elem_of_nil in Hr.
Qed.

Lemma splice_in_perm {A} i (x : A) l : splice_in i x l ≡ₚ x :: l.
Proof.
  unfold splice_in. rewrite <- Permutation_middle. by rewrite take_drop.
Qed.

Lemma addMessage_Inv spec newid now s : Inv s → Inv (addMessage spec newid now s).2.
Proof.
  intros [H1 H2 H3 H4]. unfold addMessage. simpl. apply notify_Inv.
  unfold insertByPriority. split; simpl.
  - rewrite splice_in_perm. apply NoDup_cons. split; [|done].
    intros Hin. apply H2 in Hin. lia.
  - intros r. rewrite splice_in_perm, length_app. simpl.
    intros [->|Hr]%elem_of_cons; [lia|]. apply H2 in Hr. lia.
  - done.
  - intros r Hr. apply H4 in Hr. apply sat_iff in Hr as (m & Hm & Hs).
    apply sat_iff. exists m. split; [|done]. simpl.
    by apply lookup_app_l_Some.
Qed.

Lemma batch_of_NoDup now s : NoDup (queue s) → NoDup (batch_of now s).
Proof.
  intros Hnd. unfold batch_of, pendingMessages.
  eapply sublist_NoDup; [|apply sublist_take]. by apply NoDup_filter.
Qed.

Lemma batch_of_due now s r : r ∈ batch_of now s → r ∈ queue s ∧ sat s (due now) r.
Proof.
  intros Hr. unfold batch_of in Hr.
  eapply elem_of_sublist in Hr; [|apply sublist_take].
  apply list_elem_of_filter in Hr. tauto.
Qed.

Lemma sat_impl s (P Q : QueuedMessage → Prop) r :
  (∀ m, P m → Q m) → sat s P r → sat s Q r.
Proof. rewrite !sat_iff. intros H (m & Hm & HP). eauto. Qed.

Lemma processQueue_Inv now s : Inv s → Inv (processQueue now s).
Proof.
  intros HI. unfold processQueue.
  destruct (processing s); [done|].
  destruct (pendingMessages now s) eqn:E; [done|].
  apply dispatch_Inv.
  - by apply (Inv_ext s).
  - apply batch_of_NoDup, HI.
  - intros r Hr. apply batch_of_due in Hr as [_ Hr].
    apply (sat_heap s); [done|]. revert Hr. apply sat_impl. by intros m [? _].
Qed.

Lemma on_timeout_Inv k now s s' : Inv s → on_timeout k now s = Some s' → Inv s'.
Proof.
  intros HI. unfold on_timeout.
  destruct (timers s !! k) as [[at_ r]|]; [|done].
  case_bool_decide; [|done]. intros [= <-].
  assert (Inv (set_timers (delete k (timers s)) s)) as HI0 by by apply (Inv_ext s).
  case_bool_decide; [|done]. by apply begin_Inv.
Qed.

Lemma NoDup_delete_lookup {A} (l : list A) k x :
  NoDup l → l !! k = Some x → x ∉ delete k l.
Proof.
  intros Hnd Hk. rewrite <- (take_drop_middle l k x Hk) in Hnd.
  rewrite delete_take_drop. apply NoDup_app in Hnd as (_ & H1 & H2).
  apply NoDup_cons in H2 as [H2 _]. intros [Hin|Hin]%elem_of_app; [|done].
  apply (H1 x Hin). left.
Qed.

Lemma processMessage_resume_spec r m t now s :
  ∃ s1, processMessage_resume r m t now s = inr s1
        ∧ heap s1 = alter (set_status (settle_status m t)) r (heap s)
        ∧ queue s1 = queue s ∧ awaiting s1 = awaiting s
        ∧ processing s1 = processing s.
Proof.
  unfold processMessage_resume, processMessage_try, processMessage_catch, settle_status.
  destruct (send_outcome m t) as [e|[|]]; simpl.
  - case_bool_decide; eexists; (split; [reflexivity|done]).
  - eexists; (split; [reflexivity|done]).
  - case_bool_decide; eexists; (split; [reflexivity|done]).
Qed.

Lemma on_resume_spec k t now s s' :
  on_resume k t now s = Some s' →
  ∃ r b m, awaiting s !! k = Some (r, b) ∧ heap s !! r = Some m
           ∧ heap s' = alter (set_status (settle_status m t)) r (heap s)
           ∧ queue s' = queue s ∧ awaiting s' = delete k (awaiting s).
Proof.
  unfold on_resume. destruct (awaiting s !! k) as [[r b]|] eqn:Ek; [|done].
  unfold deref. destruct (heap s !! r) as [m|] eqn:Em; [|done].
  destruct (processMessage_resume_spec r m t now
              (set_awaiting (delete k (awaiting s)) s))
    as (s1 & -> & Hh & Hq & Ha & _).
  intros [= <-]. exists r, b, m. repeat split; [done| | |].
  - destruct (_ && _); simpl; done.
  - destruct (_ && _); simpl; done.
  - destruct (_ && _); simpl; done.
Qed.

Lemma on_resume_Inv k t now s s' : Inv s → on_resume k t now s = Some s' → Inv s'.
Proof.
  intros HI Hs. apply on_resume_spec in Hs as (r & b & m & Hk & Hm & Hh & Hq & Ha).
  destruct HI as [H1 H2 H3 H4].
  assert ((awaiting s).*1 !! k = Some r) as Hk1.
  { rewrite list_lookup_fmap, Hk. done. }
  assert ((awaiting s').*1 = delete k (awaiting s).*1) as Ha1.
  { rewrite Ha. apply list_fmap_delete. }
  split.
  - by rewrite Hq.
  - rewrite Hq, Hh, length_alter. exact H2.
  - rewrite Ha1. eapply sublist_NoDup; [done|apply sublist_delete].
  - rewrite Ha1. intros r' Hr'.
    assert (r' ≠ r) as Hne.
    { intros ->. by eapply NoDup_delete_lookup. }
    eapply elem_of_sublist in Hr'; [|apply sublist_delete].
    apply H4 in Hr'. apply sat_iff in Hr' as (m' & Hm' & Hs').
    apply sat_iff. exists m'. split; [|done].
    rewrite Hh. by rewrite list_lookup_alter_ne.
Qed.

Local Ltac from_Some :=
  let H := fresh in intros H; apply (inj Some) in H; subst.

Lemma step_Inv op s s' : Inv s → step op s = Some s' → Inv s'.
Proof.
  intros HI. destruct op; unfold step.
  - case_bool_decide; [|done]. from_Some.
    apply addMessage_Inv. by apply (Inv_ext s).
  - from_Some. by apply removeMessage_Inv.
  - from_Some. by apply cancelMessage_Inv.
  - from_Some. by apply clearCompleted_Inv.
  - from_Some. by apply retryFailed_Inv.
  - from_Some. by apply destroy_Inv.
  - destruct (_ && _); [|done]. from_Some.
    apply processQueue_Inv. by apply (Inv_ext s).
  - case_bool_decide; [|done]. apply on_timeout_Inv. by apply (Inv_ext s).
  - case_bool_decide; [|done]. apply on_resume_Inv. by apply (Inv_ext s).
  - from_Some. by apply (Inv_ext s).
Qed.

Lemma run_Inv ops s s' : Inv s → run ops s = Some s' → Inv s'.
Proof.
  revert s. induction ops as [|op ops IH]; intros s HI; simpl.
  - by intros [= <-].
  - destruct (step op s) as [s1|] eqn:E; [|done].
    apply IH. by eapply step_Inv.
Qed.

(** ** What one event does to one message *)

Lemma retry_one_heap acc r0 r m :
  heap acc.2 !! r = Some m →
  heap (retry_one acc r0).2 !! r = Some m
  ∨ (retryable m ∧ r = r0 ∧ heap (retry_one acc r0).2 !! r = Some (reset m)).
Proof.
  destruct acc as [n s]. simpl. intros Hm.
  case_bool_decide as Hr; simpl; [|by left].
  destruct (decide (r = r0)) as [->|Hne].
  - right. apply sat_iff in Hr as (m0 & Hm0 & Hr).
    assert (m0 = m) as -> by congruence.
    split; [done|]. split; [done|]. by rewrite list_lookup_alter_eq, Hm.
  - left. by rewrite list_lookup_alter_ne.
Qed.

Lemma reset_not_retryable m : ¬ retryable (reset m).
Proof. intros [H _]. discriminate H. Qed.

Lemma retry_fold_heap l acc r m :
  heap acc.2 !! r = Some m →
  heap (foldl retry_one acc l).2 !! r = Some m
  ∨ (retryable m ∧ r ∈ l ∧ heap (foldl retry_one acc l).2 !! r = Some (reset m)).
Proof.
  revert acc m. induction l as [|r0 l IH]; intros acc m Hm; simpl; [by left|].
  destruct (retry_one_heap acc r0 r m Hm) as [H|(Hr & -> & H)].
  - destruct (IH _ _ H) as [H'|(? & ? & H')]; [by left|].
    right. split; [done|]. split; [by right|done].
  - destruct (IH _ _ H) as [H'|(Hbad & _)].
    + right. split; [done|]. split; [left|done].
    + by apply reset_not_retryable in Hbad.
Qed.

Lemma retry_fold_length l acc :
  length (heap (foldl retry_one acc l).2) = length (heap acc.2).
Proof.
  revert acc. induction l as [|r l IH]; intros acc; simpl; [done|].
  rewrite IH. destruct acc as [n s]. simpl.
  case_bool_decide; simpl; [apply length_alter|done].
Qed.

Lemma retryFailed_heap s :
  heap (retryFailed s).2 = heap (foldl retry_one (0, s) (queue s)).2.
Proof.
  unfold retryFailed. destruct (foldl retry_one (0, s) (queue s)) as [n s1].
  simpl. by case_bool_decide.
Qed.

Lemma removeMessage_heap i s : heap (removeMessage i s).2 = heap s.
Proof. unfold removeMessage. by destruct (list_find _ _) as [[k r]|]. Qed.

Lemma clearCompleted_heap s : heap (clearCompleted s).2 = heap s.
Proof. unfold clearCompleted. simpl. by case_bool_decide. Qed.

Lemma cancelMessage_heap i s :
  heap (cancelMessage i s).2 = heap s
  ∨ ∃ r, getMessage i s = Some r ∧ sat s (λ m, status m = pending) r
         ∧ heap (cancelMessage i s).2 = alter (set_status cancelled) r (heap s).
Proof.
  unfold cancelMessage. destruct (getMessage i s) as [r|]; [|by left].
  case_bool_decide; [|by left]. right. by exists r.
Qed.

Lemma processQueue_heap now s r :
  NoDup (queue s) →
  heap (processQueue now s) !! r = heap s !! r
  ∨ (processing s = false ∧ r ∈ batch_of now s
     ∧ heap (processQueue now s) !! r = started <$> heap s !! r).
Proof.
  intros Hnd. unfold processQueue.
  destruct (processing s) eqn:Ep; [by left|].
  destruct (pendingMessages now s) eqn:E; [by left|].
  rewrite dispatch_lookup by by apply batch_of_NoDup.
  case_decide; [right|left]; done.
Qed.

Lemma processQueue_length now s :
  length (heap (processQueue now s)) = length (heap s).
Proof.
  unfold processQueue. destruct (processing s); [done|].
  destruct (pendingMessages now s); [done|].
  by rewrite dispatch_heap, alter_fold_length.
Qed.

Lemma on_timeout_heap k now s s' :
  on_timeout k now s = Some s' →
  heap s' = heap s
  ∨ ∃ at_ r, timers s !! k = Some (at_, r) ∧ sat s (λ m, status m = pending) r
             ∧ heap s' = alter started r (heap s).
Proof.
  unfold on_timeout. destruct (timers s !! k) as [[at_ r]|]; [|done].
  case_bool_decide; [|done]. from_Some.
  case_bool_decide; [|by left]. right. by exists at_, r.
Qed.

Lemma causes_clock op now s r c : causes op (set_clock now s) r c ↔ causes op s r c.
Proof. by destruct op, c. Qed.

Lemma step_alloc op s s' :
  step op s = Some s' →
  length (heap s') = length (heap s)
  ∨ ∃ spec newid now, op = AddMessage spec newid now
                      ∧ heap s' = heap s ++ [queuedMessage spec newid now].
Proof.
  destruct op; unfold step.
  - case_bool_decide; [|done]. from_Some. right. by eexists _, _, _.
  - from_Some. left. by rewrite removeMessage_heap.
  - from_Some. left.
    destruct (cancelMessage_heap messageId s) as [->|(r & _ & _ & ->)]; [done|].
    apply length_alter.
  - from_Some. left. by rewrite clearCompleted_heap.
  - from_Some. left. by rewrite retryFailed_heap, retry_fold_length.
  - from_Some. by left.
  - destruct (_ && _); [|done]. from_Some. left. by rewrite processQueue_length.
  - case_bool_decide; [|done]. intros H'. left.
    apply on_timeout_heap in H' as [->|(at_ & r & _ & _ & ->)]; [done|].
    apply length_alter.
  - case_bool_decide; [|done]. intros H'. left.
    apply on_resume_spec in H' as (r & b & m & _ & _ & -> & _).
    apply length_alter.
  - from_Some. by left.
Qed.

Lemma step_transition op s s' r m :
  Inv s → step op s = Some s' → heap s !! r = Some m →
  ∃ m', heap s' !! r = Some m'
        ∧ (m' = m ∨ ∃ c, causes op s r c ∧ transition c m m').
Proof.
  intros HI Hstep Hm. destruct op; unfold step in Hstep.
  - case_bool_decide; [|done]. revert Hstep. from_Some.
    exists m. split; [|by left]. simpl. by apply lookup_app_l_Some.
  - revert Hstep. from_Some. exists m. rewrite removeMessage_heap. auto.
  - revert Hstep. from_Some.
    destruct (cancelMessage_heap messageId s) as [->|(r0 & Hg & Hp & ->)];
      [exists m; auto|].
    destruct (decide (r = r0)) as [->|Hne].
    + exists (set_status cancelled m). rewrite list_lookup_alter_eq, Hm.
      split; [done|]. right. exists Cancel. split; [done|].
      constructor. apply sat_iff in Hp as (m0 & Hm0 & Hp). congruence.
    + exists m. rewrite list_lookup_alter_ne by done. auto.
  - revert Hstep. from_Some. exists m. rewrite clearCompleted_heap. auto.
  - revert Hstep. from_Some. rewrite retryFailed_heap.
    destruct (retry_fold_heap (queue s) (0, s) r m Hm) as [H|(Hr & Hin & H)].
    + exists m. auto.
    + exists (reset m). split; [done|]. right. exists Reset. split; [done|].
      by constructor.
  - revert Hstep. from_Some. exists m. auto.
  - destruct (_ && _); [|done]. revert Hstep. from_Some.
    destruct (processQueue_heap now (set_clock now s) r) as [H|(Hp & Hin & H)].
    + apply HI.
    + exists m. rewrite H. auto.
    + exists (started m). rewrite H. simpl. rewrite Hm. split; [done|].
      right. exists Dispatch. split; [done|]. constructor.
      apply batch_of_due in Hin as [_ Hd].
      apply sat_iff in Hd as (m0 & Hm0 & Hd & _). simpl in Hm0. congruence.
  - case_bool_decide; [|done].
    apply on_timeout_heap in Hstep as [->|(at_ & r0 & Ht & Hp & ->)];
      [exists m; auto|].
    destruct (decide (r = r0)) as [->|Hne].
    + exists (started m). rewrite list_lookup_alter_eq. simpl. rewrite Hm.
      split; [done|]. right. exists Dispatch. split; [by exists at_|].
      constructor. apply sat_iff in Hp as (m0 & Hm0 & Hp). simpl in Hm0. congruence.
    + exists m. rewrite list_lookup_alter_ne by done. auto.
  - case_bool_decide; [|done].
    apply on_resume_spec in Hstep as (r0 & b & m0 & Hk & Hm0 & -> & _).
    simpl in Hk, Hm0. destruct (decide (r = r0)) as [->|Hne].
    + assert (m0 = m) as -> by congruence.
      exists (settled m t). rewrite list_lookup_alter_eq. simpl. rewrite Hm.
      split; [done|]. right. exists (Settle t). split; [by eauto|].
      constructor.
      assert (r0 ∈ (awaiting s).*1) as Hin.
      { apply list_elem_of_fmap. exists (r0, b). split; [done|].
        eapply list_elem_of_lookup_2. exact Hk. }
      apply (inv_await_sending s HI) in Hin.
      apply sat_iff in Hin as (m1 & Hm1 & Hs). congruence.
    + exists m. simpl. rewrite list_lookup_alter_ne by done. auto.
  - revert Hstep. from_Some. exists m. auto.
Qed.

Lemma run_app ops1 ops2 s :
  run (ops1 ++ ops2) s = run ops1 s ≫= run ops2.
Proof.
  revert s. induction ops1 as [|op ops1 IH]; intros s; simpl; [done|].
  destruct (step op s); simpl; [apply IH|done].
Qed.

(** ** Invariants of the message objects *)

Lemma settle_status_cases m t :
  (send_outcome m t = inr true ∧ settle_status m t = sent)
  ∨ (attempt_failed m t ∧ maxAttempts m ≤ attempts m ∧ settle_status m t = failed)
  ∨ (attempt_failed m t ∧ attempts m < maxAttempts m ∧ settle_status m t = pending).
Proof.
  unfold settle_status, attempt_failed.
  destruct (send_outcome m t) as [e|[|]]; [|by left|];
    (case_bool_decide; [right; left|right; right]; (split; [done|split; [lia|done]])).
Qed.

Lemma step_heap_pred (P : QueuedMessage → Prop) op s s' :
  Inv s → step op s = Some s' →
  (∀ c m m', P m → transition c m m' → P m') →
  (∀ spec newid now, op = AddMessage spec newid now → P (queuedMessage spec newid now)) →
  (∀ r m, heap s !! r = Some m → P m) →
  ∀ r m, heap s' !! r = Some m → P m.
Proof.
  intros HI Hstep Htr Hnew HP r m' Hm'.
  destruct (heap s !! r) as [m|] eqn:Hm.
  - destruct (step_transition op s s' r m HI Hstep Hm) as (m1 & Hm1 & Hcase).
    assert (m1 = m') as -> by congruence.
    destruct Hcase as [->|(c & _ & Ht)]; [by eapply HP|].
    eapply Htr; [|exact Ht]. by eapply HP.
  - apply lookup_ge_None in Hm.
    destruct (step_alloc op s s' Hstep) as [Hlen|(spec & newid & now & -> & Hh)].
    + apply lookup_lt_Some in Hm'. lia.
    + rewrite Hh in Hm'. apply lookup_app_Some in Hm' as [Hm'|[_ Hm']].
      * apply lookup_lt_Some in Hm'. lia.
      * apply list_lookup_singleton_Some in Hm' as [_ <-]. by eapply Hnew.
Qed.

Lemma transition_accounted c m m' : accounted m → transition c m m' → accounted m'.
Proof.
  intros [H0 Hf] Ht. destruct Ht as [m Hs|m t Hs|m Hs|m [Hs Hlt]]; unfold accounted; simpl.
  - split; [lia|done].
  - split; [done|]. intros Hst.
    destruct (settle_status_cases m t) as [[_ E]|[(_ & ? & _)|(_ & _ & E)]];
      [congruence|done|congruence].
  - split; [done|]. discriminate.
  - split; [lia|]. discriminate.
Qed.

Lemma transition_within_budget c m m' :
  within_budget m → transition c m m' → within_budget m'.
Proof.
  intros (H1 & H0 & Hp & Hf) Ht.
  destruct Ht as [m Hs|m t Hs|m Hs|m [Hs Hlt]]; unfold within_budget; simpl.
  - specialize (Hp Hs). repeat split; try lia; discriminate.
  - destruct (settle_status_cases m t) as [[_ E]|[(_ & ? & E)|(_ & ? & E)]];
      rewrite E; repeat split; try lia; try discriminate; auto.
  - repeat split; try lia; discriminate.
  - repeat split; try lia; discriminate.
Qed.

Lemma queuedMessage_accounted spec newid now : accounted (queuedMessage spec newid now).
Proof. split; simpl; [lia|discriminate]. Qed.

Lemma queuedMessage_within_budget spec newid now :
  1 ≤ new_maxAttempts spec → within_budget (queuedMessage spec newid now).
Proof. intros H. repeat split; simpl; try lia; discriminate. Qed.

Lemma run_accounted ops s s' :
  Inv s → (∀ r m, heap s !! r = Some m → accounted m) →
  run ops s = Some s' → ∀ r m, heap s' !! r = Some m → accounted m.
Proof.
  revert s. induction ops as [|op ops IH]; intros s HI HP; simpl.
  - from_Some. exact HP.
  - destruct (step op s) as [s1|] eqn:E; [|done].
    apply IH; [by eapply step_Inv|].
    eapply step_heap_pred; eauto using transition_accounted, queuedMessage_accounted.
Qed.

Lemma run_within_budget ops s s' :
  Inv s → (∀ r m, heap s !! r = Some m → within_budget m) →
  Forall budget_ok ops →
  run ops s = Some s' → ∀ r m, heap s' !! r = Some m → within_budget m.
Proof.
  revert s. induction ops as [|op ops IH]; intros s HI HP Hb; simpl.
  - from_Some. exact HP.
  - destruct (step op s) as [s1|] eqn:E; [|done].
    apply Forall_cons in Hb as [Hop Hb].
    apply IH; [by eapply step_Inv| |done].
    eapply step_heap_pred; eauto using transition_within_budget.
    intros spec newid now ->. by apply queuedMessage_within_budget.
Qed.

Lemma init_heap_empty r m (P : Prop) : heap init !! r = Some m → P.
Proof. simpl. by rewrite lookup_nil. Qed.

Lemma transition_edge c m m' : transition c m m' → accounted m →
  edge (status m) (status m').
Proof.
  intros Ht [_ Hf]. destruct Ht as [m Hs|m t Hs|m Hs|m [Hs Hlt]]; simpl.
  - rewrite Hs. constructor.
  - rewrite Hs.
    destruct (settle_status_cases m t) as [[_ E]|[(_ & ? & E)|(_ & ? & E)]];
      rewrite E; constructor.
  - rewrite Hs. constructor.
  - specialize (Hf Hs). lia.
Qed.

Lemma terminal_no_edge st st' : terminal st → ¬ edge st st'.
Proof.
  unfold terminal. intros Ht He.
  destruct He; repeat (apply elem_of_cons in Ht as [Ht|Ht]; [discriminate|]);
    by apply elem_of_nil in Ht.
Qed.

Lemma step_terminal op s s' r m :
  Inv s → (∀ r m, heap s !! r = Some m → accounted m) →
  step op s = Some s' → heap s !! r = Some m → terminal (status m) →
  heap s' !! r = Some m.
Proof.
  intros HI HP Hstep Hm Hterm.
  destruct (step_transition op s s' r m HI Hstep Hm) as (m' & Hm' & [->|(c & _ & Ht)]);
    [done|].
  apply transition_edge in Ht; [|by eapply HP].
  by apply terminal_no_edge in Ht.
Qed.

Lemma run_terminal ops s s' r m :
  Inv s → (∀ r m, heap s !! r = Some m → accounted m) →
  run ops s = Some s' → heap s !! r = Some m → terminal (status m) →
  heap s' !! r = Some m.
Proof.
  revert s. induction ops as [|op ops IH]; intros s HI HP; simpl.
  - by from_Some.
  - destruct (step op s) as [s1|] eqn:E; [|done].
    intros Hrun Hm Hterm. apply (IH s1); [by eapply step_Inv| |done| |done].
    + eapply step_heap_pred; eauto using transition_accounted, queuedMessage_accounted.
    + by eapply step_terminal.
Qed.

Lemma reachable_Inv ops s : run ops init = Some s → Inv s.
Proof. apply run_Inv, Inv_init. Qed.

Lemma reachable_accounted ops s r m :
  run ops init = Some s → heap s !! r = Some m → accounted m.
Proof.
  intros Hrun. revert r m. eapply run_accounted; [apply Inv_init| |exact Hrun].
  intros r m. apply init_heap_empty.
Qed.

Lemma reachable_within_budget ops s r m :
  Forall budget_ok ops → run ops init = Some s → heap s !! r = Some m →
  within_budget m.
Proof.
  intros Hb Hrun. revert r m.
  eapply run_within_budget; [apply Inv_init| |exact Hb|exact Hrun].
  intros r m. apply init_heap_empty.
Qed.

Lemma sample_run : run sample_ops init = Some sample_state.
Proof. vm_compute. reflexivity. Qed.

(** ** Attempts stay within the budget (C3) *)

(** C3: in every state reached from the constructor by a history whose
    enqueued messages have a budget of at least one attempt, every message
    object, and so every message of [getMessages], has
    [0 <= attempts <= maxAttempts], and a failed one has
    [attempts = maxAttempts]; a message becomes [failed] only by the
    settling of one of its attempts that did not deliver while
    [attempts = maxAttempts]; and such a settling does make it [failed]. *)
Theorem attempts_within_budget ops s :
  Forall budget_ok ops → run ops init = Some s →
  (∀ r m, heap s !! r = Some m →
     0 ≤ attempts m ≤ maxAttempts m
     ∧ (status m = failed → attempts m = maxAttempts m))
  ∧ (∀ m, m ∈ getMessages s →
     0 ≤ attempts m ≤ maxAttempts m
     ∧ (status m = failed → attempts m = maxAttempts m))
  ∧ (∀ op s' r,
       step op s = Some s' →
       status <$> heap s !! r ≠ Some failed →
       status <$> heap s' !! r = Some failed →
       ∃ k t now b m,
         op = Resume k t now ∧ awaiting s !! k = Some (r, b)
         ∧ heap s !! r = Some m ∧ status m = sending
         ∧ attempt_failed m t ∧ attempts m = maxAttempts m)
  ∧ (∀ k t now r b m,
       awaiting s !! k = Some (r, b) → heap s !! r = Some m →
       attempt_failed m t → attempts m = maxAttempts m → clock s ≤ now →
       ∃ s', step (Resume k t now) s = Some s'
             ∧ status <$> heap s' !! r = Some failed).
Proof.
  intros Hb Hrun.
  assert (∀ r m, heap s !! r = Some m → within_budget m) as HW.
  { intros r m. by eapply reachable_within_budget. }
  assert (Inv s) as HI by by eapply reachable_Inv.
  split; [|split; [|split]].
  - intros r m Hm. destruct (HW r m Hm) as (_ & ? & _ & ?). done.
  - intros m Hm. apply list_elem_of_omap in Hm as (r & _ & Hm).
    destruct (HW r m Hm) as (_ & ? & _ & ?). done.
  - intros op s' r Hstep Hbefore Hafter.
    destruct (heap s' !! r) as [m'|] eqn:Hm'; [|done].
    simpl in Hafter. injection Hafter as Hst'.
    destruct (heap s !! r) as [m|] eqn:Hm.
    + destruct (step_transition op s s' r m HI Hstep Hm) as (m1 & Hm1 & Hcase).
      assert (m1 = m') as -> by congruence.
      destruct Hcase as [->|(c & Hc & Ht)].
      { simpl in Hbefore. congruence. }
      destruct Ht as [m Hs|m t Hs|m Hs|m [Hs Hlt]]; simpl in Hst'; try discriminate.
      destruct op as [| | | | | | | |k t' now|]; simpl in Hc; try done.
      destruct Hc as [Et [b Hk]]. subst t'.
      destruct (settle_status_cases m t) as [[_ E]|[(Hfail & Hge & _)|(_ & _ & E)]];
        [congruence| |congruence].
      destruct (HW r m Hm) as (_ & Hle & _).
      exists k, t, now, b, m. repeat split; try done. lia.
    + apply lookup_ge_None in Hm.
      destruct (step_alloc op s s' Hstep) as [Hlen|(spec & newid & now & -> & Hh)].
      * apply lookup_lt_Some in Hm'. lia.
      * rewrite Hh in Hm'. apply lookup_app_Some in Hm' as [Hm'|[_ Hm']].
        { apply lookup_lt_Some in Hm'. lia. }
        apply list_lookup_singleton_Some in Hm' as [_ <-]. discriminate.
  - intros k t now r b m Hk Hm Hfail Hmax Hnow.
    unfold step. rewrite bool_decide_eq_true_2 by done.
    unfold on_resume, deref. simpl. rewrite Hk, Hm.
    destruct (processMessage_resume_spec r m t now
                (set_awaiting (delete k (awaiting s)) (set_clock now s)))
      as (s1 & -> & Hh & _).
    eexists. split; [reflexivity|].
    assert (heap s1 !! r = Some (settled m t)) as Hs1.
    { rewrite Hh. simpl. by rewrite list_lookup_alter_eq, Hm. }
    assert (settle_status m t = failed) as E.
    { destruct (settle_status_cases m t) as [[E _]|[(_ & _ & E)|(_ & ? & _)]];
        [by destruct Hfail|done|lia]. }
    destruct (b && _); simpl; rewrite Hs1; simpl; by rewrite E.
Qed.

Lemma attempts_within_budget_witness :
  Forall budget_ok sample_ops ∧ run sample_ops init = Some sample_state
  ∧ ∀ m, m ∈ getMessages sample_state →
      0 ≤ attempts m ≤ maxAttempts m
      ∧ (status m = failed → attempts m = maxAttempts m).
Proof.
  assert (Forall budget_ok sample_ops) as Hb.
  { repeat constructor; simpl; lia. }
  assert (run sample_ops init = Some sample_state) as Hrun.
  { vm_compute; reflexivity. }
  split; [exact Hb|]. split; [exact Hrun|].
  apply (attempts_within_budget sample_ops sample_state Hb Hrun).
Defined.

(** ** The status never leaves a terminal value (C7) *)

(** C7: in every state reached from the constructor, one event changes the
    status of a message only along an edge of the delivery state machine
    (pending to sending, sending to sent, pending or failed, pending to
    cancelled), and a message whose status is sent, failed or cancelled
    keeps that status through every further history of queue operations,
    timer callbacks and transport answers: it is never pending again. *)
Theorem terminal_status_is_final ops s :
  run ops init = Some s →
  (∀ op s' r m,
     step op s = Some s' → heap s !! r = Some m →
     ∃ m', heap s' !! r = Some m'
           ∧ (status m' = status m ∨ edge (status m) (status m')))
  ∧ (∀ ops' s' r m,
       run ops' s = Some s' → heap s !! r = Some m → terminal (status m) →
       ∃ m', heap s' !! r = Some m'
             ∧ status m' = status m ∧ status m' ≠ pending).
Proof.
  intros Hrun.
  assert (∀ r m, heap s !! r = Some m → accounted m) as HA.
  { intros r m. by eapply reachable_accounted. }
  assert (Inv s) as HI by by eapply reachable_Inv.
  split.
  - intros op s' r m Hstep Hm.
    destruct (step_transition op s s' r m HI Hstep Hm) as (m' & Hm' & Hcase).
    exists m'. split; [done|]. destruct Hcase as [->|(c & _ & Ht)]; [by left|].
    right. eapply transition_edge; [done|]. by eapply HA.
  - intros ops' s' r m Hrun' Hm Hterm. exists m.
    split; [by eapply run_terminal|]. split; [done|].
    intros Hp. rewrite Hp in Hterm. unfold terminal in Hterm.
    repeat (apply elem_of_cons in Hterm as [Hterm|Hterm]; [discriminate|]).
    by apply elem_of_nil in Hterm.
Qed.

Lemma terminal_status_is_final_witness :
  run sample_ops init = Some sample_state
  ∧ ∀ ops' s' r m,
      run ops' sample_state = Some s' → heap sample_state !! r = Some m →
      terminal (status m) →
      ∃ m', heap s' !! r = Some m' ∧ status m' = status m ∧ status m' ≠ pending.
Proof.
  assert (run sample_ops init = Some sample_state) as Hrun.
  { vm_compute; reflexivity. }
  split; [exact Hrun|].
  apply (terminal_status_is_final sample_ops sample_state Hrun).
Defined.

(** ** The manual retry of the queue (C1) *)

Lemma retry_fold_skip l n s :
  (∀ r, r ∈ l → ¬ sat s retryable r) → foldl retry_one (n, s) l = (n, s).
Proof.
  induction l as [|r l IH]; intros H; simpl; [done|].
  rewrite bool_decide_eq_false_2 by (apply H; left).
  apply IH. intros r' Hr'. apply H. by right.
Qed.

(** In a state reached from the constructor no message satisfies the guard
    of [retryFailed]: a failed message has used up its budget. *)
Lemma retryFailed_never_retries ops s :
  run ops init = Some s → retryFailed s = (0, s).
Proof.
  intros Hrun. unfold retryFailed. rewrite retry_fold_skip; [done|].
  intros r _ Hr. apply sat_iff in Hr as (m & Hm & Hf & Hlt).
  destruct (reachable_accounted ops s r m Hrun Hm) as [_ Hge].
  specialize (Hge Hf). lia.
Qed.

(** C1: the message of [exhausted_state] is failed with
    [attempts = maxAttempts = 3]; [retryFailed] returns 0 and leaves the
    state as it is, so the message stays failed with three attempts, while
    the retry button of the messenger page makes the same message pending
    with zero attempts. *)
Theorem retryFailed_skips_exhausted_message :
  run exhausting_ops init = Some exhausted_state
  ∧ (λ m, (status m, attempts m, maxAttempts m)) <$> getMessages exhausted_state
    = [(failed, 3, 3)]
  ∧ retryFailed exhausted_state = (0, exhausted_state)
  ∧ (λ m, (status m, attempts m, maxAttempts m))
      <$> getMessages (WhatsAppMessenger.retryFailedMessage "msg_a" exhausted_state)
    = [(pending, 0, 3)].
Proof. repeat split; vm_compute; reflexivity. Qed.

(** ** The backoff delay and the interval (C2) *)

(** C2: the second attempt on the message fails at time 3000 with
    [attempts = 2 < maxAttempts = 3]; the delay is
    [min (1000 * 2^(2-1)) 30000 = 2000], and the timer is set for time 5000.
    The message is pending at once, so the interval callback at time 4000
    takes it into its batch and starts the third attempt 1000 ms after the
    failure, while the timer is still pending. *)
Theorem interval_dispatches_before_backoff :
  run backoff_ops init = Some backoff_state
  ∧ (λ m, (status m, attempts m, maxAttempts m)) <$> getMessages backoff_state
    = [(pending, 2, 3)]
  ∧ backoff 2 = 2000
  ∧ timers backoff_state = [(3000 + backoff 2, 0%nat)]
  ∧ attempts_made backoff_state = [(0%nat, 2000); (0%nat, 3000)]
  ∧ step (Interval 4000) backoff_state = Some dispatched_early
  ∧ (λ m, (status m, attempts m, maxAttempts m)) <$> getMessages dispatched_early
    = [(sending, 3, 3)]
  ∧ attempts_made dispatched_early = [(0%nat, 2000); (0%nat, 3000); (0%nat, 4000)]
  ∧ 4000 < 3000 + backoff 2
  ∧ timers dispatched_early = [(3000 + backoff 2, 0%nat)].
Proof. repeat split; vm_compute; reflexivity. Qed.

(** ** The statistics (C10) *)

Lemma count_status_partition l :
  Z.of_nat (length l)
  = count_status pending l + count_status sending l + count_status sent l
    + count_status failed l + count_status cancelled l.
Proof.
  unfold count_status. induction l as [|m l IH]; [done|].
  rewrite !filter_cons. simpl length.
  destruct (status m); repeat case_decide; try congruence; simpl length; lia.
Qed.

(** C10: in every state reached from the constructor, [total] is the
    number of stored messages, cancelled ones included; each of the four
    other fields counts the messages of its own status, so none counts a
    cancelled message, and their sum is [total] minus the number of
    cancelled messages in the store; there is a reachable state in which
    the four fields do not sum to [total]. *)
Theorem stats_total_includes_cancelled ops s :
  run ops init = Some s →
  stats_total (getStats s) = Z.of_nat (length (getMessages s))
  ∧ stats_pending (getStats s) = count_status pending (getMessages s)
  ∧ stats_sending (getStats s) = count_status sending (getMessages s)
  ∧ stats_sent (getStats s) = count_status sent (getMessages s)
  ∧ stats_failed (getStats s) = count_status failed (getMessages s)
  ∧ stats_pending (getStats s) + stats_sending (getStats s)
    + stats_sent (getStats s) + stats_failed (getStats s)
    = stats_total (getStats s) - count_status cancelled (getMessages s)
  ∧ ∃ ops' s', run ops' init = Some s'
      ∧ stats_pending (getStats s') + stats_sending (getStats s')
        + stats_sent (getStats s') + stats_failed (getStats s')
        ≠ stats_total (getStats s').
Proof.
  intros Hrun. apply reachable_Inv in Hrun as HI.
  assert (stats_total (getStats s) = Z.of_nat (length (getMessages s))) as Ht.
  { simpl. f_equal. symmetry. apply getMessages_length, HI. }
  split; [done|]. repeat (split; [done|]). split.
  - rewrite Ht. simpl. rewrite (count_status_partition (getMessages s)). lia.
  - exists sample_ops, sample_state. split; [apply sample_run|].
    vm_compute. discriminate.
Qed.

Lemma stats_total_includes_cancelled_witness :
  run sample_ops init = Some sample_state
  ∧ stats_pending (getStats sample_state) + stats_sending (getStats sample_state)
    + stats_sent (getStats sample_state) + stats_failed (getStats sample_state)
    = stats_total (getStats sample_state)
      - count_status cancelled (getMessages sample_state).
Proof.
  split; [vm_compute; reflexivity|].
  apply (stats_total_includes_cancelled sample_ops sample_state).
  vm_compute; reflexivity.
Defined.

(** ** The sweep of completed messages (C6) *)

Lemma omap_filter_sat s (P : QueuedMessage → Prop) `{∀ m, Decision (P m)}
    (q : list ref) :
  omap (deref s) (filter (λ r, ¬ sat s P r) q)
  = filter (λ m, ¬ P m) (omap (deref s) q).
Proof.
  induction q as [|r q IH]; [done|].
  rewrite filter_cons.
  assert (sat s P r ↔ from_option P False (deref s r)) as Hs by done.
  destruct (decide (¬ sat s P r)) as [Hd|Hd]; rewrite Hs in Hd; simpl;
    destruct (deref s r) as [m|]; simpl in Hd |- *.
  - rewrite filter_cons_True by done. f_equal. exact IH.
  - exact IH.
  - rewrite filter_cons_False by done. exact IH.
  - tauto.
Qed.

Lemma filter_complement_length {A} (P : A → Prop) `{∀ x, Decision (P x)} (l : list A) :
  (length (filter P l) + length (filter (λ x, ¬ P x) l) = length l)%nat.
Proof. rewrite <- length_app. by rewrite filter_app_complement. Qed.

Lemma filter_all {A} (P : A → Prop) `{∀ x, Decision (P x)} (l : list A) :
  (∀ x, x ∈ l → P x) → filter P l = l.
Proof.
  induction l as [|x l IH]; intros Hl; [done|].
  rewrite filter_cons_True by (apply Hl; left). f_equal.
  apply IH. intros y Hy. apply Hl. by right.
Qed.

Lemma set_queue_same s : set_queue (queue s) s = s.
Proof. by destruct s. Qed.

Lemma clearCompleted_queue s :
  queue (clearCompleted s).2 = filter (λ r, ¬ sat s completed r) (queue s).
Proof. unfold clearCompleted. simpl. by case_bool_decide. Qed.

Lemma clearCompleted_clean s :
  (∀ r, r ∈ queue s → ¬ sat s completed r) → clearCompleted s = (0, s).
Proof.
  intros Hq. unfold clearCompleted. rewrite filter_all by done.
  rewrite set_queue_same. simpl. rewrite Z.sub_diag.
  by rewrite bool_decide_eq_false_2 by lia.
Qed.

(** C6: in every state reached from the constructor, [clearCompleted]
    keeps, in their order, exactly the messages whose status is not sent,
    failed or cancelled, changes no message, and returns the number of the
    messages it removed; afterwards [getMessages] has no sent, failed or
    cancelled entry, and a second call returns 0 and changes nothing. *)
Theorem clearCompleted_sweeps_terminal ops s :
  run ops init = Some s →
  heap (clearCompleted s).2 = heap s
  ∧ getMessages (clearCompleted s).2 = filter (λ m, ¬ completed m) (getMessages s)
  ∧ (clearCompleted s).1 = Z.of_nat (length (filter completed (getMessages s)))
  ∧ (clearCompleted s).1
    = Z.of_nat (length (getMessages s))
      - Z.of_nat (length (getMessages (clearCompleted s).2))
  ∧ (∀ m, m ∈ getMessages (clearCompleted s).2 →
       status m ≠ sent ∧ status m ≠ failed ∧ status m ≠ cancelled)
  ∧ clearCompleted (clearCompleted s).2 = (0, (clearCompleted s).2).
Proof.
  intros Hrun. apply reachable_Inv in Hrun as HI.
  pose proof (clearCompleted_heap s) as Hh.
  pose proof (clearCompleted_queue s) as Hq.
  assert (getMessages (clearCompleted s).2
          = filter (λ m, ¬ completed m) (getMessages s)) as Hg.
  { unfold getMessages at 1. rewrite Hq.
    replace (deref (clearCompleted s).2) with (deref s)
      by (unfold deref; by rewrite Hh).
    apply omap_filter_sat. }
  assert ((clearCompleted s).1
          = Z.of_nat (length (getMessages s))
            - Z.of_nat (length (getMessages (clearCompleted s).2))) as Hn.
  { rewrite (getMessages_length s) by apply HI.
    rewrite (getMessages_length (clearCompleted s).2)
      by (apply clearCompleted_Inv, HI).
    rewrite Hq. done. }
  split; [done|]. split; [done|]. split; [|split; [done|split]].
  - rewrite Hn, Hg.
    pose proof (filter_complement_length completed (getMessages s)). lia.
  - intros m Hm. rewrite Hg in Hm. apply list_elem_of_filter in Hm as [Hm _].
    unfold completed in Hm. repeat split; intros E; apply Hm; rewrite E.
    + left.
    + right. left.
    + right. right. left.
  - apply clearCompleted_clean. intros r Hr. rewrite Hq in Hr.
    apply list_elem_of_filter in Hr as [Hr _].
    intros Hs. apply Hr. revert Hs. by apply sat_heap.
Qed.

Lemma clearCompleted_sweeps_terminal_witness :
  run sample_ops init = Some sample_state
  ∧ (clearCompleted sample_state).1 = 2
  ∧ clearCompleted (clearCompleted sample_state).2
    = (0, (clearCompleted sample_state).2).
Proof.
  split; [vm_compute; reflexivity|]. split; [vm_compute; reflexivity|].
  apply (clearCompleted_sweeps_terminal sample_ops sample_state).
  vm_compute; reflexivity.
Defined.

(** ** One cycle of the dispatcher (C9) *)

Lemma dispatch_attempts b now l s :
  attempts_made (foldl (λ s' r, processMessage_begin r b now s') s l)
  = attempts_made s ++ ((λ r, (r, now)) <$> l).
Proof.
  revert s. induction l as [|r l IH]; intros s; simpl.
  - by rewrite app_nil_r.
  - rewrite IH. unfold attempts_made at 1. simpl.
    rewrite !omap_app. destruct (h_onQueueStatsChanged _); simpl;
      by rewrite app_nil_r, <- app_assoc.
Qed.

(** C9: when the queue holds every message once, the batch of a cycle is
    the first five, in queue order, of the queued messages that are pending
    and whose [scheduledFor] is absent or not later than [now]; the cycle
    starts an attempt on exactly the messages of the batch, in that order,
    and touches no other message; and a cycle that finds [processing] set
    does nothing. *)
Theorem cycle_dispatches_first_five_due now s :
  NoDup (queue s) →
  batch_of now s `prefix_of` filter (sat s (due now)) (queue s)
  ∧ filter (sat s (due now)) (queue s) `sublist_of` queue s
  ∧ (length (batch_of now s) ≤ 5)%nat
  ∧ (length (batch_of now s)
     = length (filter (sat s (due now)) (queue s)) `min` 5)%nat
  ∧ (∀ r, r ∈ batch_of now s →
       r ∈ queue s
       ∧ ∃ m, heap s !! r = Some m ∧ status m = pending
              ∧ (scheduledFor m = None ∨ ∃ t, scheduledFor m = Some t ∧ t ≤ now))
  ∧ (∀ r, heap (processQueue now s) !! r
          = if decide (processing s = false ∧ r ∈ batch_of now s)
            then started <$> heap s !! r else heap s !! r)
  ∧ attempts_made (processQueue now s)
    = attempts_made s
      ++ (if processing s then [] else (λ r, (r, now)) <$> batch_of now s)
  ∧ awaiting (processQueue now s)
    = awaiting s
      ++ (if processing s then [] else (λ r, (r, true)) <$> batch_of now s).
Proof.
  intros Hnd. unfold batch_of at 1 2 3, pendingMessages.
  split; [apply prefix_take|]. split; [apply sublist_filter|].
  split; [rewrite length_take; lia|]. split; [rewrite length_take; lia|].
  split.
  { intros r Hr. apply batch_of_due in Hr as [Hq Hd]. split; [done|].
    apply sat_iff in Hd as (m & Hm & Hp & Hs). exists m. split; [done|].
    split; [done|]. destruct (scheduledFor m) as [t|]; [right|left]; eauto. }
  unfold processQueue. destruct (processing s) eqn:Ep.
  { split; [|by rewrite !app_nil_r]. intros r.
    rewrite decide_False; [done|]. by intros [? _]. }
  assert (batch_of now s = take 5 (pendingMessages now s)) as Hb by done.
  destruct (pendingMessages now s) as [|r0 l] eqn:E.
  { rewrite Hb, take_nil. split; [|simpl; by rewrite !app_nil_r].
    intros r. rewrite decide_False; [done|]. intros [_ H]. by apply elem_of_nil in H. }
  cbv iota. split; [|split].
  - intros r. rewrite dispatch_lookup by by apply batch_of_NoDup.
    simpl. destruct (decide (r ∈ batch_of now s)).
    + by rewrite decide_True.
    + rewrite decide_False; [done|]. by intros [_ ?].
  - by rewrite dispatch_attempts.
  - by rewrite dispatch_awaiting.
Qed.

Lemma cycle_dispatches_first_five_due_witness :
  NoDup (queue backoff_state)
  ∧ batch_of 4000 backoff_state = [0%nat]
  ∧ attempts_made (processQueue 4000 backoff_state)
    = attempts_made backoff_state
      ++ (if processing backoff_state then []
          else (λ r, (r, 4000)) <$> batch_of 4000 backoff_state).
Proof.
  assert (NoDup (queue backoff_state)) as Hnd.
  { refine (bool_decide_unpack _ _). vm_compute. exact I. }
  split; [exact Hnd|]. split; [vm_compute; reflexivity|].
  apply (cycle_dispatches_first_five_due 4000 backoff_state Hnd).
Defined.

(** ** A call that throws and a call that answers false (C8) *)

Lemma attempt_failed_throws m e : attempt_failed m (send_throws e).
Proof.
  unfold attempt_failed, send_outcome. simpl.
  destruct (type m); [done|]. by destruct (truthy (mediaUrl m)).
Qed.

Lemma attempt_failed_returns_false m : attempt_failed m (send_returns false).
Proof.
  unfold attempt_failed, send_outcome. simpl.
  destruct (type m); [done|]. by destruct (truthy (mediaUrl m)).
Qed.

Lemma attempt_failed_down m t : isConnected t = false → attempt_failed m t.
Proof. intros H. unfold attempt_failed, send_outcome. by rewrite H. Qed.

Lemma processMessage_resume_failed r m t now s :
  attempt_failed m t →
  ∃ e, processMessage_try r m t s = inl e
       ∧ processMessage_resume r m t now s
         = inr (notifyStatsChanged (processMessage_catch r m e now s)).
Proof.
  unfold attempt_failed, processMessage_resume, processMessage_try.
  destruct (send_outcome m t) as [e|[|]]; intros H; [|done|]; eauto.
Qed.

Lemma processMessage_catch_accounting r m e e' now s :
  accounting (notifyStatsChanged (processMessage_catch r m e now s))
  = accounting (notifyStatsChanged (processMessage_catch r m e' now s)).
Proof. unfold processMessage_catch. by case_bool_decide. Qed.

(** When a suspended [processMessage] goes on, any two answers of the
    transport that do not deliver leave the same messages, timers,
    suspended calls and flag; the message is pending when
    [attempts < maxAttempts] and failed otherwise. *)
Lemma on_resume_failed_alike k now s r b m t1 t2 :
  awaiting s !! k = Some (r, b) → heap s !! r = Some m →
  attempt_failed m t1 → attempt_failed m t2 →
  ∃ s1 s2,
    on_resume k t1 now s = Some s1 ∧ on_resume k t2 now s = Some s2
    ∧ accounting s1 = accounting s2
    ∧ heap s1 !! r
      = Some (set_status (if bool_decide (attempts m < maxAttempts m)
                          then pending else failed) m).
Proof.
  intros Hk Hm Hf1 Hf2.
  unfold on_resume, deref. rewrite Hk, Hm.
  set (s0 := set_awaiting (delete k (awaiting s)) s).
  destruct (processMessage_resume_failed r m t1 now s0 Hf1) as (e1 & _ & ->).
  destruct (processMessage_resume_failed r m t2 now s0 Hf2) as (e2 & _ & ->).
  pose proof (processMessage_catch_accounting r m e1 e2 now s0) as Hacc.
  assert (heap (notifyStatsChanged (processMessage_catch r m e1 now s0)) !! r
          = Some (set_status (if bool_decide (attempts m < maxAttempts m)
                              then pending else failed) m)) as Hu.
  { unfold processMessage_catch.
    case_bool_decide; simpl; rewrite list_lookup_alter_eq, Hm; simpl.
    - by rewrite bool_decide_eq_false_2 by lia.
    - by rewrite bool_decide_eq_true_2 by lia. }
  revert Hacc Hu.
  generalize (notifyStatsChanged (processMessage_catch r m e1 now s0)).
  generalize (notifyStatsChanged (processMessage_catch r m e2 now s0)).
  intros u2 u1 Hacc Hu. unfold accounting in Hacc.
  injection Hacc as Hh Hq Ht Ha Hp.
  assert (batch_outstanding u1 = batch_outstanding u2) as Hbo.
  { unfold batch_outstanding. by rewrite Ha. }
  eexists _, _. split; [reflexivity|]. split; [reflexivity|]. split.
  - rewrite Hbo. unfold accounting. destruct (b && _); simpl; congruence.
  - by destruct (b && _).
Qed.

(** ** Cancelling (C5) *)

Lemma getMessages_elem s m :
  m ∈ getMessages s ↔ ∃ r, r ∈ queue s ∧ heap s !! r = Some m.
Proof. unfold getMessages. apply list_elem_of_omap. Qed.





(** ** The place of a new message (C4) *)

Lemma goes_before_placed new resident :
  goes_before new resident = true ↔ placed_before new resident.
Proof.
  unfold goes_before, placed_before.
  destruct (scheduledFor new), (scheduledFor resident); rewrite Z.ltb_lt;
    by destruct (priority new), (priority resident).
Qed.

Lemma insertIndex_spec m q k :
  (k ≤ insertIndex m q k ≤ k + length q)%nat
  ∧ (∀ j cur, q !! j = Some cur → (k + j < insertIndex m q k)%nat →
       goes_before m cur = false)
  ∧ (∀ cur, q !! (insertIndex m q k - k)%nat = Some cur → goes_before m cur = true).
Proof.
  revert k. induction q as [|c q IH]; intros k; simpl.
  - split; [lia|]. split; [intros j cur Hj; by rewrite lookup_nil in Hj|].
    intros cur Hc. by rewrite lookup_nil in Hc.
  - destruct (goes_before m c) eqn:Eg.
    + split; [lia|]. split; [intros; lia|].
      rewrite Nat.sub_diag. simpl. by intros cur [= <-].
    + destruct (IH (S k)) as (Hb & Hlt & Hat).
      split; [lia|]. split.
      * intros [|j] cur Hj Hlt'; simpl in Hj.
        { by injection Hj as <-. }
        apply (Hlt j cur Hj). lia.
      * intros cur Hc. apply Hat.
        replace (insertIndex m q (S k) - k)%nat
          with (S (insertIndex m q (S k) - S k)) in Hc by lia.
        exact Hc.
Qed.

Lemma omap_ext_in {A B} (f g : A → option B) (l : list A) :
  (∀ x, x ∈ l → f x = g x) → omap f l = omap g l.
Proof.
  induction l as [|x l IH]; intros H; [done|]. simpl.
  rewrite (H x) by left.
  assert (omap f l = omap g l) as IH'.
  { apply IH. intros y Hy. apply H. by right. }
  destruct (g x); [f_equal|]; exact IH'.
Qed.

Lemma omap_take_total {A B} (f : A → option B) (l : list A) i :
  (∀ x, x ∈ l → is_Some (f x)) → omap f (take i l) = take i (omap f l).
Proof.
  revert i. induction l as [|x l IH]; intros i H; [by destruct i|].
  destruct i as [|i]; [done|]. simpl.
  destruct (H x) as [y Hy]; [left|]. rewrite Hy. simpl. f_equal.
  apply IH. intros z Hz. apply H. by right.
Qed.

Lemma omap_drop_total {A B} (f : A → option B) (l : list A) i :
  (∀ x, x ∈ l → is_Some (f x)) → omap f (drop i l) = drop i (omap f l).
Proof.
  revert i. induction l as [|x l IH]; intros i H; [by destruct i|].
  destruct i as [|i]; [done|]. simpl.
  destruct (H x) as [y Hy]; [left|]. rewrite Hy. simpl.
  apply IH. intros z Hz. apply H. by right.
Qed.

Lemma addMessage_getMessages spec newid now s :
  (∀ r, r ∈ queue s → (r < length (heap s))%nat) →
  getMessages (addMessage spec newid now s).2
  = splice_in (insertIndex (queuedMessage spec newid now) (getMessages s) 0)
      (queuedMessage spec newid now) (getMessages s).
Proof.
  intros Hal.
  set (m := queuedMessage spec newid now).
  set (d1 := λ r : nat, (heap s ++ [m]) !! r).
  assert (∀ r, r ∈ queue s → d1 r = deref s r) as Hd.
  { intros r Hr. unfold d1, deref. apply lookup_app_l. by apply Hal. }
  assert (∀ r, r ∈ queue s → is_Some (deref s r)) as Hs.
  { intros r Hr. apply lookup_lt_is_Some. by apply Hal. }
  assert (omap d1 (queue s) = getMessages s) as Hg1 by by apply omap_ext_in.
  change (omap d1 (splice_in (insertIndex m (omap d1 (queue s)) 0)
                     (length (heap s)) (queue s))
          = splice_in (insertIndex m (getMessages s) 0) m (getMessages s)).
  rewrite Hg1. unfold splice_in. rewrite omap_app.
  assert (d1 (length (heap s)) = Some m) as Hnew.
  { unfold d1. rewrite lookup_app_r by lia. by rewrite Nat.sub_diag. }
  f_equal.
  - rewrite (omap_ext_in d1 (deref s)).
    + by apply omap_take_total.
    + intros r Hr. apply Hd. eapply elem_of_sublist; [done|apply sublist_take].
  - simpl. rewrite Hnew. f_equal. rewrite (omap_ext_in d1 (deref s)).
    + by apply omap_drop_total.
    + intros r Hr. apply Hd. eapply elem_of_sublist; [done|apply sublist_drop].
Qed.

End Properties.

(** * Further properties of the queue *)

Module Lifecycle.
Import MessageQueue Properties.

(** ** Definitions used by the statements *)

(** The messages on which an event starts an attempt: the batch of an
    interval callback that runs, the pending message of a timer callback. *)
Definition dispatched (op : Op) (s : State) : list ref :=
  match op with
  | Interval now => if processing s then [] else batch_of now s
  | Timeout k now =>
      match timers s !! k with
      | Some (_, r) =>
          if bool_decide (sat s (λ m, status m = pending) r) then [r] else []
      | None => []
      end
  | _ => []
  end.

(** The time an event carries; the other events happen at the time of the
    last event. *)
Definition op_time (op : Op) (s : State) : Z :=
  match op with
  | AddMessage _ _ now | Interval now | Timeout _ now | Resume _ _ now => now
  | _ => clock s
  end.

(** The value the [catch] block receives when an attempt does not deliver. *)
Definition thrown_by (m : QueuedMessage) (t : Transport) : Thrown :=
  match send_outcome m t with
  | inl e => e
  | inr _ => ErrorObject "Falha ao enviar mensagem"
  end.

(** The handler call of a settled attempt, when the handler is set. *)
Definition settle_events (hs : Handlers) (r : ref) (m : QueuedMessage) (t : Transport)
  : list Effect :=
  match settle_status m t with
  | sent => if h_onMessageSent hs then [OnMessageSent r] else []
  | failed =>
      if h_onMessageFailed hs
      then [OnMessageFailed r (describe (thrown_by m t))] else []
  | _ => []
  end.

(** What an event appends to the trace, statistics apart. *)
Definition new_events (op : Op) (s : State) : list Effect :=
  match op with
  | Interval now | Timeout _ now => (λ r, Attempt r now) <$> dispatched op s
  | Resume k t _ =>
      match awaiting s !! k with
      | Some (r, _) =>
          from_option (λ m, settle_events (handlers s) r m t) [] (heap s !! r)
      | None => []
      end
  | _ => []
  end.

(** A view of the trace that does not look at statistics. *)
Definition quiet {X} (v : Effect → option X) : Prop :=
  ∀ st, v (OnQueueStatsChanged st) = None.

Definition attempt_view (e : Effect) : option (ref * Z) :=
  match e with Attempt r now => Some (r, now) | _ => None end.

(** The times of the attempts started on one message. *)
Definition attempts_on (r : ref) (s : State) : list Z :=
  snd <$> filter (λ e : ref * Z, e.1 = r) (attempts_made s).

(** The [onMessageSent] and [onMessageFailed] calls made for one message. *)
Definition sent_calls (r : ref) (s : State) : list unit :=
  omap (λ e, match e with
             | OnMessageSent r' => if decide (r' = r) then Some () else None
             | _ => None
             end) (trace s).

Definition failed_calls (r : ref) (s : State) : list string :=
  omap (λ e, match e with
             | OnMessageFailed r' err => if decide (r' = r) then Some err else None
             | _ => None
             end) (trace s).

(** The fields the queue never writes. *)
Definition same_content (m m' : QueuedMessage) : Prop :=
  id m' = id m ∧ to m' = to m ∧ message m' = message m ∧ type m' = type m
  ∧ mediaUrl m' = mediaUrl m ∧ mediaType m' = mediaType m
  ∧ caption m' = caption m ∧ priority m' = priority m
  ∧ maxAttempts m' = maxAttempts m ∧ createdAt m' = createdAt m
  ∧ scheduledFor m' = scheduledFor m ∧ customerId m' = customerId m
  ∧ ticketId m' = ticketId m ∧ metadata m' = metadata m.

(** Histories that enqueue no scheduled message. *)
Definition unscheduled_op (op : Op) : Prop :=
  match op with
  | AddMessage spec _ _ => new_scheduledFor spec = None
  | _ => True
  end.

(** Not lower in priority: urgent first. *)
Definition by_priority (m m' : QueuedMessage) : Prop :=
  rank (priority m) ≤ rank (priority m').

(** ** What an event appends to the trace *)

Lemma attempt_view_quiet : quiet attempt_view.
Proof. by intros st. Qed.

Lemma bool_decide_sat_heap s' s (P : QueuedMessage → Prop) `{∀ m, Decision (P m)} r :
  heap s' = heap s → bool_decide (sat s' P r) = bool_decide (sat s P r).
Proof. intros E. apply bool_decide_ext. by apply sat_heap. Qed.

Lemma quiet_call {X} (v : Effect → option X) (is_set : bool) st :
  quiet v → omap v (if is_set then [OnQueueStatsChanged st] else []) = [].
Proof. intros Hq. destruct is_set; simpl; [by rewrite Hq|done]. Qed.

Lemma begin_fold_view {X} (v : Effect → option X) b now l s :
  quiet v →
  omap v (trace (foldl (λ s' r, processMessage_begin r b now s') s l))
  = omap v (trace s) ++ omap v ((λ r, Attempt r now) <$> l).
Proof.
  intros Hq. revert s. induction l as [|r l IH]; intros s; simpl.
  - by rewrite app_nil_r.
  - rewrite IH. simpl. rewrite !omap_app, quiet_call by done. simpl.
    rewrite app_nil_r, <- app_assoc. f_equal. by destruct (v (Attempt r now)).
Qed.

Lemma retry_fold_frame l acc :
  queue (foldl retry_one acc l).2 = queue acc.2
  ∧ timers (foldl retry_one acc l).2 = timers acc.2
  ∧ awaiting (foldl retry_one acc l).2 = awaiting acc.2
  ∧ processing (foldl retry_one acc l).2 = processing acc.2
  ∧ clock (foldl retry_one acc l).2 = clock acc.2
  ∧ trace (foldl retry_one acc l).2 = trace acc.2
  ∧ processingInterval (foldl retry_one acc l).2 = processingInterval acc.2.
Proof.
  revert acc. induction l as [|r l IH]; intros acc; simpl; [done|].
  destruct (IH (retry_one acc r)) as (-> & -> & -> & -> & -> & -> & ->).
  destruct acc as [n s]. simpl. by case_bool_decide.
Qed.

Lemma on_resume_trace {X} (v : Effect → option X) k t now s s' :
  quiet v → on_resume k t now s = Some s' →
  omap v (trace s') = omap v (trace s) ++ omap v (new_events (Resume k t now) s).
Proof.
  intros Hq. unfold on_resume, deref, new_events.
  destruct (awaiting s !! k) as [[r b]|]; [|done].
  destruct (heap s !! r) as [m|]; [|done]. simpl.
  unfold processMessage_resume, processMessage_try, processMessage_catch,
    settle_events, settle_status, thrown_by.
  destruct (send_outcome m t) as [e|[|]]; simpl;
    repeat case_bool_decide; simpl;
    intros [= <-]; destruct (b && _); simpl;
    rewrite ?omap_app, ?(quiet_call v) by done;
    destruct (h_onMessageSent (handlers s)), (h_onMessageFailed (handlers s));
    simpl; rewrite ?app_nil_r; try done;
    by destruct (v _).
Qed.

Lemma step_events {X} (v : Effect → option X) op s s' :
  quiet v → step op s = Some s' →
  omap v (trace s') = omap v (trace s) ++ omap v (new_events op s).
Proof.
  intros Hq. destruct op; unfold step.
  - case_bool_decide; [|done]. intros [= <-]. simpl.
    by rewrite omap_app, quiet_call.
  - intros [= <-]. unfold removeMessage.
    destruct (list_find _ _) as [[k r]|]; simpl; [|by rewrite app_nil_r].
    by rewrite omap_app, quiet_call.
  - intros [= <-]. unfold cancelMessage.
    destruct (getMessage _ _) as [r|]; simpl; [|by rewrite app_nil_r].
    case_bool_decide; simpl; [|by rewrite app_nil_r].
    by rewrite omap_app, quiet_call.
  - intros [= <-]. unfold clearCompleted. simpl.
    case_bool_decide; simpl; [|by rewrite app_nil_r].
    by rewrite omap_app, quiet_call.
  - intros [= <-]. unfold retryFailed.
    destruct (retry_fold_frame (queue s) (0, s)) as (_ & _ & _ & _ & _ & Ht & _).
    destruct (foldl retry_one (0, s) (queue s)) as [n s1]. simpl in *.
    case_bool_decide; simpl; rewrite ?omap_app, Ht, ?quiet_call by done;
      by rewrite app_nil_r.
  - intros [= <-]. simpl. by rewrite app_nil_r.
  - destruct (_ && _); [|done]. intros [= <-]. unfold processQueue, new_events, dispatched.
    simpl. destruct (processing s); [by rewrite app_nil_r|].
    change (pendingMessages now (set_clock now s)) with (pendingMessages now s).
    change (batch_of now (set_clock now s)) with (batch_of now s).
    destruct (pendingMessages now s) eqn:E.
    + unfold batch_of. rewrite E. simpl. by rewrite app_nil_r.
    + by rewrite begin_fold_view.
  - case_bool_decide; [|done]. unfold on_timeout, new_events, dispatched. simpl.
    destruct (timers s !! k) as [[at_ r]|]; [|done].
    case_bool_decide; [|done]. intros [= <-].
    rewrite (bool_decide_sat_heap _ s) by done.
    case_bool_decide; simpl; [|by rewrite app_nil_r].
    rewrite !omap_app, quiet_call by done. simpl.
    rewrite <- app_assoc. f_equal.
  - case_bool_decide; [|done]. intros Hs.
    by apply (on_resume_trace v) in Hs.
  - intros [= <-]. simpl. by rewrite app_nil_r.
Qed.

(** ** What an event does to the suspended calls, the clock and the timers *)

Lemma step_awaiting op s s' :
  step op s = Some s' →
  awaiting s'
  = match op with
    | Resume k _ _ => delete k (awaiting s)
    | Interval _ => awaiting s ++ ((λ r, (r, true)) <$> dispatched op s)
    | Timeout _ _ => awaiting s ++ ((λ r, (r, false)) <$> dispatched op s)
    | _ => awaiting s
    end.
Proof.
  destruct op; unfold step.
  - case_bool_decide; [|done]. by intros [= <-].
  - intros [= <-]. unfold removeMessage. by destruct (list_find _ _) as [[k r]|].
  - intros [= <-]. unfold cancelMessage.
    destruct (getMessage _ _) as [r|]; [|done]. by case_bool_decide.
  - intros [= <-]. unfold clearCompleted. simpl. by case_bool_decide.
  - intros [= <-]. unfold retryFailed.
    destruct (retry_fold_frame (queue s) (0, s)) as (_ & _ & Ha & _).
    destruct (foldl retry_one (0, s) (queue s)) as [n s1]. simpl in *.
    by case_bool_decide.
  - by intros [= <-].
  - destruct (_ && _); [|done]. intros [= <-]. unfold processQueue, dispatched.
    change (processing (set_clock now s)) with (processing s).
    change (pendingMessages now (set_clock now s)) with (pendingMessages now s).
    change (batch_of now (set_clock now s)) with (batch_of now s).
    destruct (processing s); [by rewrite app_nil_r|].
    destruct (pendingMessages now s) eqn:E.
    + unfold batch_of. rewrite E. by rewrite app_nil_r.
    + by rewrite dispatch_awaiting.
  - case_bool_decide; [|done]. unfold on_timeout, dispatched.
    change (timers (set_clock now s)) with (timers s).
    destruct (timers s !! k) as [[at_ r]|]; [|done].
    case_bool_decide; [|done]. intros [= <-].
    rewrite (bool_decide_sat_heap _ s) by done.
    case_bool_decide; simpl; [done|by rewrite app_nil_r].
  - case_bool_decide; [|done]. intros Hs.
    by apply on_resume_spec in Hs as (r & b & m & _ & _ & _ & _ & ->).
  - by intros [= <-].
Qed.

Lemma step_queue op s s' :
  step op s = Some s' →
  match op with
  | AddMessage _ _ _ | RemoveMessage _ | ClearCompleted | Destroy => True
  | _ => queue s' = queue s
  end.
Proof.
  destruct op; unfold step; try done.
  - intros [= <-]. unfold cancelMessage.
    destruct (getMessage _ _) as [r|]; [|done]. by case_bool_decide.
  - intros [= <-]. unfold retryFailed.
    destruct (retry_fold_frame (queue s) (0, s)) as (Hq & _).
    destruct (foldl retry_one (0, s) (queue s)) as [n s1]. simpl in *.
    by case_bool_decide.
  - destruct (_ && _); [|done]. intros [= <-]. unfold processQueue.
    destruct (processing _); [done|]. destruct (pendingMessages _ _); [done|].
    by rewrite dispatch_queue.
  - case_bool_decide; [|done]. unfold on_timeout.
    destruct (timers _ !! k) as [[at_ r]|]; [|done].
    case_bool_decide; [|done]. intros [= <-]. by case_bool_decide.
  - case_bool_decide; [|done]. intros Hs.
    by apply on_resume_spec in Hs as (r & b & m & _ & _ & _ & -> & _).
  - by intros [= <-].
Qed.

Lemma processMessage_resume_clock r m t now s s1 :
  processMessage_resume r m t now s = inr s1 →
  clock s1 = clock s
  ∧ (timers s1 = timers s
     ∨ (settle_status m t = pending
        ∧ timers s1 = timers s ++ [(now + backoff (attempts m), r)])).
Proof.
  unfold processMessage_resume, processMessage_try, processMessage_catch, settle_status.
  destruct (send_outcome m t) as [e|[|]]; simpl;
    repeat case_bool_decide; intros [= <-]; simpl; auto.
Qed.

Lemma step_clock op s s' :
  step op s = Some s' → clock s' = op_time op s ∧ clock s ≤ clock s'.
Proof.
  destruct op; unfold step, op_time.
  - case_bool_decide; [|done]. by intros [= <-].
  - intros [= <-]. unfold removeMessage.
    destruct (list_find _ _) as [[k r]|]; simpl; lia.
  - intros [= <-]. unfold cancelMessage.
    destruct (getMessage _ _) as [r|]; [|simpl; lia].
    case_bool_decide; simpl; lia.
  - intros [= <-]. unfold clearCompleted. simpl. case_bool_decide; simpl; lia.
  - intros [= <-]. unfold retryFailed.
    destruct (retry_fold_frame (queue s) (0, s)) as (_ & _ & _ & _ & Hc & _).
    destruct (foldl retry_one (0, s) (queue s)) as [n s1]. simpl in *.
    case_bool_decide; simpl; lia.
  - intros [= <-]. simpl. lia.
  - destruct (bool_decide _) eqn:E; simpl; [|done].
    apply bool_decide_eq_true in E.
    destruct (processingInterval s); [|done]. intros [= <-].
    assert (clock (processQueue now (set_clock now s)) = now) as ->; [|done].
    unfold processQueue. destruct (processing _); [done|].
    destruct (pendingMessages _ _); [done|].
    generalize (batch_of now (set_clock now s)). intros bl.
    assert (∀ u, clock (foldl (λ s' r, processMessage_begin r true now s') u bl)
                 = clock u) as Hc.
    { induction bl as [|r bl IH]; intros u; simpl; [done|]. by rewrite IH. }
    by rewrite Hc.
  - case_bool_decide; [|done]. unfold on_timeout.
    destruct (timers _ !! k) as [[at_ r]|]; [|done].
    case_bool_decide; [|done]. intros [= <-]. by case_bool_decide.
  - case_bool_decide; [|done]. unfold on_resume.
    destruct (awaiting _ !! k) as [[r b]|]; [|done].
    destruct (deref _ r) as [m|]; [|done].
    destruct (processMessage_resume _ _ _ _ _) as [e|s1] eqn:E.
    + intros [= <-]. destruct b; simpl; auto.
    + apply processMessage_resume_clock in E as [Hc _]. intros [= <-].
      simpl in Hc. destruct (b && _); simpl; rewrite Hc; auto.
  - intros [= <-]. simpl. lia.
Qed.

Lemma step_timers op s s' x :
  step op s = Some s' → x ∈ timers s' →
  x ∈ timers s
  ∨ ∃ k t now r b m,
      op = Resume k t now ∧ awaiting s !! k = Some (r, b)
      ∧ heap s !! r = Some m ∧ settle_status m t = pending
      ∧ x = (now + backoff (attempts m), r).
Proof.
  destruct op; unfold step.
  - case_bool_decide; [|done]. intros [= <-]. by left.
  - intros [= <-]. unfold removeMessage.
    destruct (list_find _ _) as [[k r]|]; by left.
  - intros [= <-]. unfold cancelMessage.
    destruct (getMessage _ _) as [r|]; [|by left]. case_bool_decide; by left.
  - intros [= <-]. unfold clearCompleted. simpl. case_bool_decide; by left.
  - intros [= <-]. unfold retryFailed.
    destruct (retry_fold_frame (queue s) (0, s)) as (_ & Ht & _).
    destruct (foldl retry_one (0, s) (queue s)) as [n s1]. simpl in *.
    case_bool_decide; simpl; rewrite Ht; by left.
  - intros [= <-]. by left.
  - destruct (_ && _); [|done]. intros [= <-]. unfold processQueue.
    destruct (processing _); [by left|]. destruct (pendingMessages _ _); [by left|].
    rewrite dispatch_timers. by left.
  - case_bool_decide; [|done]. unfold on_timeout.
    change (timers (set_clock now s)) with (timers s).
    destruct (timers s !! k) as [[at_ r]|]; [|done].
    case_bool_decide; [|done]. intros [= <-].
    assert (∀ u, u ∈ delete k (timers s) → u ∈ timers s) as Hsub.
    { intros u. apply list_elem_of_delete_inv. }
    case_bool_decide; simpl; intros Hx; left; by apply Hsub.
  - case_bool_decide; [|done]. unfold on_resume.
    change (awaiting (set_clock now s)) with (awaiting s).
    destruct (awaiting s !! k) as [[r b]|] eqn:Ek; [|done].
    unfold deref. change (heap (set_clock now s)) with (heap s).
    destruct (heap s !! r) as [m|] eqn:Em; [|done].
    destruct (processMessage_resume _ _ _ _ _) as [e|s1] eqn:E.
    + intros [= <-]. destruct b; by left.
    + apply processMessage_resume_clock in E as [_ Ht]. intros [= <-].
      assert (timers (if b && negb (batch_outstanding s1)
                      then set_processing false s1 else s1) = timers s1) as ->
        by by destruct (b && _).
      destruct Ht as [->|[Hp ->]]; [by left|].
      intros [Hx|Hx]%elem_of_app; [by left|].
      apply list_elem_of_singleton in Hx. right.
      by exists k, t, now, r, b, m.
  - intros [= <-]. by left.
Qed.

(** ** The messages an event dispatches and the ones it does not *)

Lemma dispatched_NoDup op s : NoDup (queue s) → NoDup (dispatched op s).
Proof.
  intros Hnd. destruct op; simpl; try constructor.
  - destruct (processing s); [constructor|]. by apply batch_of_NoDup.
  - destruct (timers s !! k) as [[at_ r]|]; [|constructor].
    case_bool_decide; [apply NoDup_singleton|constructor].
Qed.

Lemma dispatched_pending op s r :
  r ∈ dispatched op s →
  ∃ m, heap s !! r = Some m ∧ status m = pending
       ∧ ∀ now, op = Interval now → due now m.
Proof.
  destruct op; simpl; try (intros H; by apply elem_of_nil in H).
  - destruct (processing s); [intros H; by apply elem_of_nil in H|].
    intros [_ Hd]%batch_of_due. apply sat_iff in Hd as (m & Hm & Hd).
    exists m. split; [done|]. split; [by destruct Hd|]. by intros ? [= <-].
  - destruct (timers s !! k) as [[at_ r']|]; [|intros H; by apply elem_of_nil in H].
    case_bool_decide as Hp; [|intros H; by apply elem_of_nil in H].
    intros ->%list_elem_of_singleton. apply sat_iff in Hp as (m & Hm & Hp).
    exists m. split; [done|]. split; [done|]. discriminate.
Qed.

Lemma step_started op s s' r :
  Inv s → step op s = Some s' → r ∈ dispatched op s →
  heap s' !! r = started <$> heap s !! r.
Proof.
  intros HI. destruct op; simpl; try (intros _ H; by apply elem_of_nil in H).
  - destruct (_ && _); [|done]. intros [= <-].
    destruct (processing s) eqn:Ep; [intros H; by apply elem_of_nil in H|].
    intros Hin.
    destruct (processQueue_heap now (set_clock now s) r) as [H|(_ & _ & H)];
      [apply HI| |done].
    revert H. unfold processQueue.
    change (processing (set_clock now s)) with (processing s). rewrite Ep.
    change (pendingMessages now (set_clock now s)) with (pendingMessages now s).
    destruct (pendingMessages now s) eqn:E.
    { unfold batch_of in Hin. rewrite E in Hin. by apply elem_of_nil in Hin. }
    rewrite dispatch_lookup by (apply batch_of_NoDup, HI).
    change (batch_of now (set_clock now s)) with (batch_of now s).
    by rewrite decide_True.
  - case_bool_decide; [|done]. unfold on_timeout.
    change (timers (set_clock now s)) with (timers s).
    destruct (timers s !! k) as [[at_ r']|]; [|done].
    case_bool_decide; [|done]. intros [= <-].
    rewrite (bool_decide_sat_heap (set_timers _ _) s) by done.
    case_bool_decide; [|intros Hnil; by apply elem_of_nil in Hnil].
    intros ->%list_elem_of_singleton. simpl. apply list_lookup_alter_eq.
Qed.

Lemma step_kept op s s' r m :
  Inv s → step op s = Some s' → r ∉ dispatched op s → heap s !! r = Some m →
  ∃ m', heap s' !! r = Some m'
        ∧ (m' = m ∨ ∃ c, c ≠ Dispatch ∧ causes op s r c ∧ transition c m m').
Proof.
  intros HI Hstep Hnot Hm.
  destruct (step_transition op s s' r m HI Hstep Hm) as (m' & Hm' & Hcase).
  exists m'. split; [done|]. destruct Hcase as [->|(c & Hc & Ht)]; [by left|].
  destruct Ht as [m Hp|m t Hs|m Hp|m Hr].
  - exfalso. apply Hnot. destruct op; simpl in Hc |- *; try done.
    + destruct Hc as [-> Hin]. done.
    + destruct Hc as [at_ ->]. rewrite bool_decide_eq_true_2; [left|].
      apply sat_iff. eauto.
  - right. exists (Settle t). split; [done|]. split; [done|]. by constructor.
  - right. exists Cancel. split; [done|]. split; [done|]. by constructor.
  - right. exists Reset. split; [done|]. split; [done|]. by constructor.
Qed.

Lemma transition_same_content c m m' : transition c m m' → same_content m m'.
Proof. intros Ht. destruct Ht; repeat split. Qed.

Lemma same_content_refl m : same_content m m.
Proof. repeat split. Qed.

Lemma same_content_trans m1 m2 m3 :
  same_content m1 m2 → same_content m2 m3 → same_content m1 m3.
Proof.
  unfold same_content. intros H1 H2.
  destruct H1 as (?&?&?&?&?&?&?&?&?&?&?&?&?&?).
  destruct H2 as (?&?&?&?&?&?&?&?&?&?&?&?&?&?).
  repeat split; congruence.
Qed.

(** The message a [Resume] event settles. *)
Definition resumed (op : Op) (s : State) : option ref :=
  match op with
  | Resume k _ _ => fst <$> awaiting s !! k
  | _ => None
  end.

Lemma settled_not_sending m t : status (settled m t) ≠ sending.
Proof.
  simpl. destruct (settle_status_cases m t) as [[_ E]|[(_ & _ & E)|(_ & _ & E)]];
    by rewrite E.
Qed.

(** One event and one reference: the message is dispatched, settled,
    cancelled, left as it is, or allocated. *)
Lemma step_cases op s s' r :
  Inv s → (∀ r m, heap s !! r = Some m → accounted m) → step op s = Some s' →
  match heap s !! r with
  | Some m =>
      (r ∈ dispatched op s ∧ status m = pending
       ∧ heap s' !! r = Some (started m))
      ∨ (∃ k t now b, op = Resume k t now ∧ awaiting s !! k = Some (r, b)
                      ∧ status m = sending ∧ heap s' !! r = Some (settled m t))
      ∨ ((r ∉ dispatched op s) ∧ (resumed op s ≠ Some r)
         ∧ (heap s' !! r = Some m
            ∨ ((∃ i, op = CancelMessage i) ∧ status m = pending
               ∧ heap s' !! r = Some (set_status cancelled m))))
  | None =>
      heap s' !! r = None
      ∨ ∃ spec newid now,
          op = AddMessage spec newid now ∧ r = length (heap s)
          ∧ heap s' !! r = Some (queuedMessage spec newid now)
  end.
Proof.
  intros HI HA Hstep. destruct (heap s !! r) as [m|] eqn:Hm.
  - destruct (decide (r ∈ dispatched op s)) as [Hin|Hnot].
    + left. split; [done|].
      destruct (dispatched_pending op s r Hin) as (m0 & Hm0 & Hp & _).
      assert (m0 = m) as -> by congruence. split; [done|].
      rewrite (step_started op s s' r HI Hstep Hin), Hm. done.
    + right.
      destruct (step_kept op s s' r m HI Hstep Hnot Hm)
        as (m' & Hm' & [->|(c & Hne & Hc & Ht)]).
      * right. split; [done|]. split; [|by left].
        destruct op as [| | | | | | | |k t now|]; simpl; try done.
        destruct (awaiting s !! k) as [[r0 b]|] eqn:Ek; simpl; [|done].
        intros [= ->]. unfold step in Hstep.
        case_bool_decide; [|done].
        apply on_resume_spec in Hstep as (r1 & b1 & m1 & Hk1 & Hm1 & Hh & _).
        simpl in Hk1, Hm1. assert (r1 = r) as -> by congruence.
        assert (m1 = m) as -> by congruence.
        rewrite Hh in Hm'. simpl in Hm'.
        rewrite list_lookup_alter_eq, Hm in Hm'. simpl in Hm'.
        injection Hm' as Hm'.
        assert (r ∈ (awaiting s).*1) as Hin.
        { apply list_elem_of_fmap. exists (r, b). split; [done|].
          by eapply list_elem_of_lookup_2. }
        apply (inv_await_sending s HI) in Hin.
        apply sat_iff in Hin as (m2 & Hm2 & Hs).
        assert (m2 = m) as -> by congruence.
        apply (settled_not_sending m t). unfold settled. by rewrite Hm'.
      * destruct Ht as [m Hp|m t Hs|m Hp|m [Hf Hlt]]; [done| | |].
        -- left. destruct op as [| | | | | | | |k t' now|]; simpl in Hc; try done.
           destruct Hc as [-> [b Hk]]. by exists k, t', now, b.
        -- right. split; [done|]. split; [by destruct op|]. right.
           split; [|done]. destruct op; simpl in Hc; try done. eauto.
        -- destruct (HA r m Hm) as [_ Hge]. specialize (Hge Hf). lia.
  - apply lookup_ge_None in Hm.
    destruct (step_alloc op s s' Hstep) as [Hlen|(spec & newid & now & -> & Hh)].
    + left. apply lookup_ge_None. lia.
    + destruct (decide (r = length (heap s))) as [->|Hne].
      * right. exists spec, newid, now. split; [done|]. split; [done|].
        rewrite Hh, lookup_app_r by lia. by rewrite Nat.sub_diag.
      * left. rewrite Hh. apply lookup_ge_None. rewrite length_app. simpl. lia.
Qed.

(** ** How the views of the trace grow *)

Lemma attempt_view_settle hs r m t :
  omap attempt_view (settle_events hs r m t) = [].
Proof.
  unfold settle_events.
  by destruct (settle_status m t), (h_onMessageSent hs), (h_onMessageFailed hs).
Qed.

Lemma step_attempts_made op s s' :
  step op s = Some s' →
  attempts_made s'
  = attempts_made s ++ ((λ r, (r, op_time op s)) <$> dispatched op s).
Proof.
  intros Hstep. unfold attempts_made.
  change (λ e, match e with Attempt r now => Some (r, now) | _ => None end)
    with attempt_view.
  rewrite (step_events attempt_view op s s' attempt_view_quiet Hstep). f_equal.
  assert (∀ now (l : list ref),
            omap attempt_view ((λ r, Attempt r now) <$> l)
            = (λ r, (r, now)) <$> l) as Hl.
  { intros now l. induction l as [|r l IH]; [done|]. simpl. f_equal. exact IH. }
  destruct op; try done; simpl.
  - apply Hl.
  - apply Hl.
  - destruct (awaiting s !! k) as [[r b]|]; [|done].
    destruct (heap s !! r) as [m|]; [|done]. simpl. apply attempt_view_settle.
Qed.

Lemma filter_ref_fmap (r : ref) (now : Z) (l : list ref) :
  NoDup l →
  snd <$> filter (λ e : ref * Z, e.1 = r) ((λ r', (r', now)) <$> l)
  = if decide (r ∈ l) then [now] else [].
Proof.
  induction l as [|r0 l IH]; intros Hnd; [done|].
  apply NoDup_cons in Hnd as [Hr0 Hnd]. specialize (IH Hnd).
  rewrite fmap_cons, filter_cons.
  destruct (decide ((r0, now).1 = r)) as [Heq|Hne].
  - simpl in Heq. subst r0. rewrite decide_True by left. rewrite fmap_cons, IH.
    by rewrite decide_False.
  - simpl in Hne. rewrite IH. destruct (decide (r ∈ l)).
    + by rewrite decide_True by by right.
    + rewrite decide_False; [done|].
      intros [->|?]%elem_of_cons; done.
Qed.

Lemma step_attempts_on op s s' r :
  Inv s → step op s = Some s' →
  attempts_on r s'
  = attempts_on r s ++ (if decide (r ∈ dispatched op s) then [op_time op s] else []).
Proof.
  intros HI Hstep. unfold attempts_on.
  rewrite (step_attempts_made op s s' Hstep), filter_app, fmap_app. f_equal.
  apply filter_ref_fmap, dispatched_NoDup, HI.
Qed.

Lemma step_calls_other op s s' r :
  step op s = Some s' → resumed op s ≠ Some r →
  sent_calls r s' = sent_calls r s ∧ failed_calls r s' = failed_calls r s.
Proof.
  intros Hstep Hne. unfold sent_calls, failed_calls.
  rewrite !(step_events _ op s s') by done.
  assert (∀ now (l : list ref),
            omap (λ e, match e with
                       | OnMessageSent r' => if decide (r' = r) then Some () else None
                       | _ => None
                       end) ((λ r0, Attempt r0 now) <$> l) = []
            ∧ omap (λ e, match e with
                         | OnMessageFailed r' err =>
                             if decide (r' = r) then Some err else None
                         | _ => None
                         end) ((λ r0, Attempt r0 now) <$> l) = []) as Hl.
  { intros now l. induction l as [|r0 l [IH1 IH2]]; [done|]. simpl. done. }
  destruct op; unfold new_events; try (simpl; by rewrite !app_nil_r).
  - destruct (Hl now (dispatched (Interval now) s)) as [-> ->].
    by rewrite !app_nil_r.
  - destruct (Hl now (dispatched (Timeout k now) s)) as [-> ->].
    by rewrite !app_nil_r.
  - simpl in Hne.
    destruct (awaiting s !! k) as [[r0 b]|]; [|simpl; by rewrite !app_nil_r].
    simpl in Hne. assert (r0 ≠ r) as Hr by congruence.
    destruct (heap s !! r0) as [m|]; simpl; [|by rewrite !app_nil_r].
    unfold settle_events.
    destruct (settle_status m t), (h_onMessageSent (handlers s)),
      (h_onMessageFailed (handlers s)); simpl;
      rewrite ?decide_False by done; by rewrite !app_nil_r.
Qed.

Lemma step_calls_settled k t now s s' r b m :
  step (Resume k t now) s = Some s' →
  awaiting s !! k = Some (r, b) → heap s !! r = Some m →
  sent_calls r s'
  = sent_calls r s
    ++ (if decide (settle_status m t = sent)
        then if h_onMessageSent (handlers s) then [()] else []
        else [])
  ∧ failed_calls r s'
    = failed_calls r s
      ++ (if decide (settle_status m t = failed)
          then if h_onMessageFailed (handlers s)
               then [describe (thrown_by m t)] else []
          else []).
Proof.
  intros Hstep Hk Hm. unfold sent_calls, failed_calls.
  rewrite !(step_events _ (Resume k t now) s s') by done.
  simpl. rewrite Hk, Hm. simpl. unfold settle_events.
  destruct (settle_status m t), (h_onMessageSent (handlers s)),
    (h_onMessageFailed (handlers s)); simpl; rewrite ?decide_True by done; done.
Qed.

(** ** The life-cycle invariant *)

(** Every reachable state satisfies, besides the shape invariant: a
    message is being sent only while a call on it is suspended, and then
    it has been attempted; [processing] is set exactly while a call of a
    batch is suspended; [attempts] counts the attempts started; an attempt
    starts neither in the future nor before the scheduled time; a timer
    exists only for a message that was attempted; and a handler was called
    for a message at most once, and only if the message is sent or
    failed. *)
Record Life (s : State) : Prop := {
  life_inv : Inv s;
  life_accounted : ∀ r m, heap s !! r = Some m → accounted m;
  life_sending : ∀ r m, heap s !! r = Some m → status m = sending →
                 r ∈ (awaiting s).*1 ∧ 1 ≤ attempts m;
  life_flag : processing s = batch_outstanding s;
  life_count : ∀ r, match heap s !! r with
                    | Some m => attempts m = Z.of_nat (length (attempts_on r s))
                    | None => attempts_on r s = []
                    end;
  life_times : ∀ r t, t ∈ attempts_on r s →
               t ≤ clock s
               ∧ ∃ m, heap s !! r = Some m
                      ∧ from_option (λ u, u ≤ t) True (scheduledFor m);
  life_timers : ∀ at_ r, (at_, r) ∈ timers s →
                ∃ m, heap s !! r = Some m ∧ 1 ≤ attempts m;
  life_calls : ∀ r, match heap s !! r with
                    | Some m =>
                        (length (sent_calls r s)
                         ≤ if decide (status m = sent) then 1 else 0)%nat
                        ∧ (length (failed_calls r s)
                           ≤ if decide (status m = failed) then 1 else 0)%nat
                    | None => sent_calls r s = [] ∧ failed_calls r s = []
                    end
}.

Lemma elem_fst_delete {A B} (l : list (A * B)) k x :
  x ∈ l.*1 → fst <$> l !! k ≠ Some x → x ∈ (delete k l).*1.
Proof.
  intros Hin Hk. rewrite list_fmap_delete.
  apply list_elem_of_lookup_1 in Hin as [j Hj].
  assert (j ≠ k) as Hne.
  { intros ->. apply Hk. by rewrite <- list_lookup_fmap. }
  destruct (decide (j < k)%nat).
  - eapply list_elem_of_lookup_2. by rewrite list_lookup_delete_lt.
  - destruct j as [|j]; [lia|].
    eapply (list_elem_of_lookup_2 _ j). rewrite list_lookup_delete_ge by lia. done.
Qed.

Lemma dispatched_awaiting op s s' r :
  step op s = Some s' → r ∈ dispatched op s → r ∈ (awaiting s').*1.
Proof.
  intros Hstep Hin. rewrite (step_awaiting op s s' Hstep).
  destruct op; simpl in Hin; try (by apply elem_of_nil in Hin);
    rewrite fmap_app; apply elem_of_app; right;
    rewrite <- list_fmap_compose; simpl; by rewrite list_fmap_id.
Qed.

Lemma kept_awaiting op s s' r :
  step op s = Some s' → resumed op s ≠ Some r →
  r ∈ (awaiting s).*1 → r ∈ (awaiting s').*1.
Proof.
  intros Hstep Hne Hin. rewrite (step_awaiting op s s' Hstep).
  destruct op; try done; try (rewrite fmap_app; apply elem_of_app; by left).
  by apply elem_fst_delete.
Qed.

Lemma step_life_sending op s s' :
  Life s → step op s = Some s' →
  ∀ r m, heap s' !! r = Some m → status m = sending →
         r ∈ (awaiting s').*1 ∧ 1 ≤ attempts m.
Proof.
  intros HL Hstep r m' Hm' Hs'.
  pose proof (step_cases op s s' r (life_inv s HL) (life_accounted s HL) Hstep) as Hc.
  destruct (heap s !! r) as [m|] eqn:Hm.
  - destruct Hc as [(Hin & Hp & H)|[(k & t & now & b & -> & Hk & Hs & H)
                                   |(Hnot & Hres & [H|(_ & Hp & H)])]];
      rewrite H in Hm'; injection Hm' as <-.
    + split; [by eapply dispatched_awaiting|]. simpl.
      destruct (life_accounted s HL r m Hm) as [H0 _]. lia.
    + by apply settled_not_sending in Hs'.
    + destruct (life_sending s HL r m Hm Hs') as [Hin Ha].
      split; [by eapply kept_awaiting|done].
    + discriminate.
  - destruct Hc as [H|(spec & newid & now & -> & -> & H)];
      rewrite H in Hm'; [done|]. injection Hm' as <-. discriminate.
Qed.

Lemma batch_outstanding_false_entry s (l : list (ref * bool)) :
  (∀ e, e ∈ l → e.2 = false) →
  bool_decide (Exists (λ e : ref * bool, e.2 = true) (awaiting s ++ l))
  = batch_outstanding s.
Proof.
  intros Hl. unfold batch_outstanding. apply bool_decide_ext.
  rewrite Exists_app. split; [|by left]. intros [H|H]; [done|].
  apply Exists_exists in H as (e & He & Ht). rewrite (Hl e He) in Ht. done.
Qed.

Lemma step_life_flag op s s' :
  processing s = batch_outstanding s → step op s = Some s' →
  processing s' = batch_outstanding s'.
Proof.
  intros Hf Hstep. unfold batch_outstanding at 1.
  rewrite (step_awaiting op s s' Hstep). revert Hstep.
  destruct op; unfold step.
  - case_bool_decide; [|done]. by intros [= <-].
  - intros [= <-]. unfold removeMessage. by destruct (list_find _ _) as [[k r]|].
  - intros [= <-]. unfold cancelMessage.
    destruct (getMessage _ _) as [r|]; [|done]. by case_bool_decide.
  - intros [= <-]. unfold clearCompleted. simpl. by case_bool_decide.
  - intros [= <-]. unfold retryFailed.
    destruct (retry_fold_frame (queue s) (0, s)) as (_ & _ & _ & Hp & _).
    destruct (foldl retry_one (0, s) (queue s)) as [n s1]. simpl in Hp |- *.
    case_bool_decide; simpl; rewrite Hp; exact Hf.
  - by intros [= <-].
  - destruct (_ && _); [|done]. intros [= <-]. unfold processQueue, dispatched.
    change (processing (set_clock now s)) with (processing s).
    change (pendingMessages now (set_clock now s)) with (pendingMessages now s).
    change (batch_of now (set_clock now s)) with (batch_of now s).
    destruct (processing s) eqn:Ep.
    { simpl. rewrite app_nil_r, Ep. exact Hf. }
    unfold batch_of. destruct (pendingMessages now s) as [|r0 l] eqn:E.
    { simpl. rewrite app_nil_r, Ep. exact Hf. }
    rewrite dispatch_processing. simpl. symmetry. apply bool_decide_eq_true_2.
    apply Exists_app. right. by left.
  - case_bool_decide; [|done]. unfold on_timeout, dispatched.
    change (timers (set_clock now s)) with (timers s).
    destruct (timers s !! k) as [[at_ r]|]; [|done].
    case_bool_decide; [|done]. intros [= <-].
    rewrite (bool_decide_sat_heap (set_timers _ _) s) by done.
    rewrite batch_outstanding_false_entry.
    + case_bool_decide; simpl; exact Hf.
    + intros e He. case_bool_decide; simpl in He.
      * apply list_elem_of_singleton in He. by subst.
      * by apply elem_of_nil in He.
  - case_bool_decide; [|done]. unfold on_resume.
    change (awaiting (set_clock now s)) with (awaiting s).
    destruct (awaiting s !! k) as [[r b]|] eqn:Ek; [|done].
    unfold deref. change (heap (set_clock now s)) with (heap s).
    destruct (heap s !! r) as [m|] eqn:Em; [|done].
    destruct (processMessage_resume_spec r m t now
                (set_awaiting (delete k (awaiting s)) (set_clock now s)))
      as (s1 & -> & _ & _ & Ha & Hp).
    intros [= <-]. simpl in Ha, Hp.
    assert (batch_outstanding s1
            = bool_decide (Exists (λ e : ref * bool, e.2 = true)
                             (delete k (awaiting s)))) as Hbo.
    { unfold batch_outstanding. by rewrite Ha. }
    rewrite Hbo. destruct b; simpl.
    + destruct (bool_decide _) eqn:Eb; simpl; [|done].
      rewrite Hp, Hf. apply bool_decide_eq_true_2, Exists_exists.
      exists (r, true). split; [|done]. by eapply list_elem_of_lookup_2.
    + rewrite Hp, Hf. unfold batch_outstanding. apply bool_decide_ext.
      rewrite !Exists_exists. split.
      * intros (e & He & Ht).
        apply list_elem_of_lookup_1 in He as [j Hj].
        assert (j ≠ k) as Hne.
        { intros ->. rewrite Ek in Hj. injection Hj as <-. done. }
        exists e. split; [|done]. destruct (decide (j < k)%nat).
        -- eapply list_elem_of_lookup_2. by rewrite list_lookup_delete_lt.
        -- destruct j as [|j]; [lia|]. eapply (list_elem_of_lookup_2 _ j).
           rewrite list_lookup_delete_ge by lia. done.
      * intros (e & He & Ht). exists e. split; [|done].
        by eapply list_elem_of_delete_inv.
  - by intros [= <-].
Qed.

Lemma dispatched_allocated op s r : r ∈ dispatched op s → is_Some (heap s !! r).
Proof. intros Hin. destruct (dispatched_pending op s r Hin) as (m & -> & _). eauto. Qed.

Lemma step_life_count op s s' :
  Life s → step op s = Some s' →
  ∀ r, match heap s' !! r with
       | Some m => attempts m = Z.of_nat (length (attempts_on r s'))
       | None => attempts_on r s' = []
       end.
Proof.
  intros HL Hstep r.
  pose proof (step_cases op s s' r (life_inv s HL) (life_accounted s HL) Hstep) as Hc.
  pose proof (life_count s HL r) as Hn.
  rewrite (step_attempts_on op s s' r (life_inv s HL) Hstep).
  destruct (heap s !! r) as [m|] eqn:Hm.
  - destruct Hc as [(Hin & Hp & ->)|[(k & t & now & b & -> & Hk & Hs & ->)
                                    |(Hnot & Hres & [->|(_ & Hp & ->)])]].
    + rewrite decide_True by done. rewrite length_app. simpl. lia.
    + rewrite decide_False by (simpl; apply not_elem_of_nil).
      rewrite app_nil_r. exact Hn.
    + rewrite decide_False by done. rewrite app_nil_r. exact Hn.
    + rewrite decide_False by done. rewrite app_nil_r. exact Hn.
  - assert (r ∉ dispatched op s) as Hnot.
    { intros Hin. apply dispatched_allocated in Hin as [m Hm']. congruence. }
    rewrite decide_False by done. rewrite app_nil_r, Hn.
    destruct Hc as [->|(spec & newid & now & -> & -> & ->)]; done.
Qed.

Lemma step_scheduledFor op s s' r m :
  Life s → step op s = Some s' → heap s !! r = Some m →
  ∃ m', heap s' !! r = Some m' ∧ same_content m m'
        ∧ attempts m ≤ attempts m'.
Proof.
  intros HL Hstep Hm.
  pose proof (step_cases op s s' r (life_inv s HL) (life_accounted s HL) Hstep) as Hc.
  rewrite Hm in Hc.
  destruct Hc as [(Hin & Hp & ->)|[(k & t & now & b & -> & Hk & Hs & ->)
                                  |(Hnot & Hres & [->|(_ & Hp & ->)])]];
    eexists; (split; [reflexivity|]); (split; [repeat split|simpl; lia]).
Qed.

Lemma step_life_times op s s' :
  Life s → step op s = Some s' →
  ∀ r t, t ∈ attempts_on r s' →
         t ≤ clock s'
         ∧ ∃ m, heap s' !! r = Some m
                ∧ from_option (λ u, u ≤ t) True (scheduledFor m).
Proof.
  intros HL Hstep r t.
  destruct (step_clock op s s' Hstep) as [Hc Hle].
  rewrite (step_attempts_on op s s' r (life_inv s HL) Hstep).
  intros [Hold|Hnew]%elem_of_app.
  - destruct (life_times s HL r t Hold) as (Ht & m & Hm & Hs).
    split; [lia|].
    destruct (step_scheduledFor op s s' r m HL Hstep Hm) as (m' & Hm' & Hsc & _).
    exists m'. split; [done|].
    destruct Hsc as (_&_&_&_&_&_&_&_&_&_&->&_). done.
  - destruct (decide (r ∈ dispatched op s)) as [Hin|]; [|by apply elem_of_nil in Hnew].
    apply list_elem_of_singleton in Hnew as ->. split; [lia|].
    destruct (dispatched_pending op s r Hin) as (m & Hm & Hp & Hdue).
    rewrite (step_started op s s' r (life_inv s HL) Hstep Hin), Hm.
    exists (started m). split; [done|]. simpl.
    destruct op; simpl in Hin; try (by apply elem_of_nil in Hin).
    + destruct (Hdue now eq_refl) as [_ Hd]. exact Hd.
    + simpl in Hc. destruct (timers s !! k) as [[at_ r']|] eqn:Ek;
        [|by apply elem_of_nil in Hin].
      case_bool_decide; [|by apply elem_of_nil in Hin].
      apply list_elem_of_singleton in Hin as ->.
      destruct (life_timers s HL at_ r') as (m1 & Hm1 & Ha).
      { by eapply list_elem_of_lookup_2. }
      assert (m1 = m) as -> by congruence.
      pose proof (life_count s HL r') as Hn. rewrite Hm in Hn.
      destruct (attempts_on r' s) as [|t0 l] eqn:El; [simpl in Hn; lia|].
      destruct (life_times s HL r' t0) as (Ht0 & m2 & Hm2 & Hs2).
      { rewrite El. left. }
      assert (m2 = m) as -> by congruence.
      destruct (scheduledFor m); simpl in *; [lia|done].
Qed.

Lemma step_life_timers op s s' :
  Life s → step op s = Some s' →
  ∀ at_ r, (at_, r) ∈ timers s' → ∃ m, heap s' !! r = Some m ∧ 1 ≤ attempts m.
Proof.
  intros HL Hstep at_ r Hin.
  destruct (step_timers op s s' (at_, r) Hstep Hin)
    as [Hold|(k & t & now & r0 & b & m & -> & Hk & Hm & Hp & [= -> ->])].
  - destruct (life_timers s HL at_ r Hold) as (m & Hm & Ha).
    destruct (step_scheduledFor op s s' r m HL Hstep Hm) as (m' & Hm' & _ & Hle).
    exists m'. split; [done|lia].
  - destruct (step_scheduledFor _ s s' r0 m HL Hstep Hm) as (m' & Hm' & _ & Hle).
    exists m'. split; [done|].
    assert (r0 ∈ (awaiting s).*1) as Hin0.
    { apply list_elem_of_fmap. exists (r0, b). split; [done|].
      by eapply list_elem_of_lookup_2. }
    apply (inv_await_sending s (life_inv s HL)) in Hin0.
    apply sat_iff in Hin0 as (m1 & Hm1 & Hs).
    assert (m1 = m) as -> by congruence.
    destruct (life_sending s HL r0 m Hm Hs) as [_ Ha]. lia.
Qed.

Lemma step_life_calls op s s' :
  Life s → step op s = Some s' →
  ∀ r, match heap s' !! r with
       | Some m =>
           (length (sent_calls r s')
            ≤ if decide (status m = sent) then 1 else 0)%nat
           ∧ (length (failed_calls r s')
              ≤ if decide (status m = failed) then 1 else 0)%nat
       | None => sent_calls r s' = [] ∧ failed_calls r s' = []
       end.
Proof.
  intros HL Hstep r.
  pose proof (step_cases op s s' r (life_inv s HL) (life_accounted s HL) Hstep) as Hc.
  pose proof (life_calls s HL r) as Hn.
  destruct (heap s !! r) as [m|] eqn:Hm.
  - destruct Hc as [(Hin & Hp & ->)|[(k & t & now & b & -> & Hk & Hs & ->)
                                    |(Hnot & Hres & [->|(_ & Hp & ->)])]].
    + destruct (step_calls_other op s s' r Hstep) as [-> ->].
      { destruct op; simpl in Hin |- *; try done; by apply elem_of_nil in Hin. }
      simpl. rewrite Hp in Hn. exact Hn.
    + destruct (step_calls_settled k t now s s' r b m Hstep Hk Hm) as [-> ->].
      rewrite !length_app. rewrite Hs in Hn. simpl in Hn. destruct Hn as [Hn1 Hn2].
      simpl. split; destruct (decide _); simpl; try lia.
      * destruct (h_onMessageSent _); simpl; lia.
      * destruct (h_onMessageFailed _); simpl; lia.
    + by destruct (step_calls_other op s s' r Hstep Hres) as [-> ->].
    + destruct (step_calls_other op s s' r Hstep Hres) as [-> ->].
      rewrite Hp in Hn. exact Hn.
  - assert (resumed op s ≠ Some r) as Hres.
    { destruct op; simpl; try done.
      destruct (awaiting s !! k) as [[r0 b]|] eqn:Ek; simpl; [|done].
      intros [= ->].
      assert (r ∈ (awaiting s).*1) as Hin.
      { apply list_elem_of_fmap. exists (r, b). split; [done|].
        by eapply list_elem_of_lookup_2. }
      apply (inv_await_sending s (life_inv s HL)) in Hin.
      apply sat_iff in Hin as (m1 & Hm1 & _). congruence. }
    destruct (step_calls_other op s s' r Hstep Hres) as [-> ->].
    destruct Hn as [-> ->].
    destruct Hc as [->|(spec & newid & now & -> & -> & ->)]; done.
Qed.

Lemma step_Life op s s' : Life s → step op s = Some s' → Life s'.
Proof.
  intros HL Hstep. split.
  - eapply step_Inv; [apply HL|done].
  - eapply step_heap_pred; eauto using transition_accounted, queuedMessage_accounted.
    + apply HL.
    + apply HL.
  - by eapply step_life_sending.
  - eapply step_life_flag; [apply HL|done].
  - by eapply step_life_count.
  - by eapply step_life_times.
  - by eapply step_life_timers.
  - by eapply step_life_calls.
Qed.

Lemma Life_init : Life init.
Proof.
  split.
  - apply Inv_init.
  - intros r m H. exact (init_heap_empty r m _ H).
  - intros r m H. exact (init_heap_empty r m _ H).
  - done.
  - intros r. change (heap init) with (@nil QueuedMessage). by rewrite lookup_nil.
  - intros r t Ht. by apply elem_of_nil in Ht.
  - intros at_ r Ht. by apply elem_of_nil in Ht.
  - intros r. change (heap init) with (@nil QueuedMessage). by rewrite lookup_nil.
Qed.

Lemma run_Life ops s s' : Life s → run ops s = Some s' → Life s'.
Proof.
  revert s. induction ops as [|op ops IH]; intros s HL; simpl.
  - by intros [= <-].
  - destruct (step op s) as [s1|] eqn:E; [|done]. apply IH. by eapply step_Life.
Qed.

Lemma reachable_Life ops s : run ops init = Some s → Life s.
Proof. apply run_Life, Life_init. Qed.

(** ** A call that throws and a call that answers false (C8) *)

(** One queued message with a budget of three attempts, before the first
    cycle of the dispatcher. *)
Definition queued_state : State :=
  Eval vm_compute in
    default init (run [AddMessage (sample_text normal 3 None) "msg_a" 1000] init).

(** C8: in a state reached from the constructor, let an interval or timer
    callback start an attempt on a message.  The attempt is counted at
    once: the suspended call holds the message with [attempts] one higher.
    Any two answers of the transport that do not deliver, in particular a
    send call that throws and one that answers false, then leave the same
    messages, timers, suspended calls and flag: the attempt stays counted,
    and the message is pending when the new [attempts] is below
    [maxAttempts] and failed otherwise.  Whatever the transport answers,
    the promise of [processMessage] is fulfilled, never rejected. *)
Theorem thrown_send_counts_like_false ops s op s1 r m now t1 t2 :
  run ops init = Some s → heap s !! r = Some m →
  step op s = Some s1 → r ∈ dispatched op s → clock s1 ≤ now →
  attempt_failed (started m) t1 → attempt_failed (started m) t2 →
  (∃ k b u1 u2 m',
     awaiting s1 !! k = Some (r, b) ∧ heap s1 !! r = Some (started m)
     ∧ attempts (started m) = attempts m + 1
     ∧ step (Resume k t1 now) s1 = Some u1 ∧ step (Resume k t2 now) s1 = Some u2
     ∧ accounting u1 = accounting u2
     ∧ heap u1 !! r = Some m'
     ∧ attempts m' = attempts m + 1 ∧ maxAttempts m' = maxAttempts m
     ∧ status m' = (if bool_decide (attempts m + 1 < maxAttempts m)
                    then pending else failed))
  ∧ (∀ e, attempt_failed (started m) (send_throws e))
  ∧ attempt_failed (started m) (send_returns false)
  ∧ (∀ t s0 m0, ∃ s', processMessage_resume r m0 t now s0 = inr s').
Proof.
  intros Hrun Hm Hstep Hin Hclock Hf1 Hf2.
  pose proof (reachable_Inv ops s Hrun) as HI.
  split; [|split; [|split]].
  - assert (heap s1 !! r = Some (started m)) as Hm1.
    { by rewrite (step_started op s s1 r HI Hstep Hin), Hm. }
    assert (∃ k b, awaiting s1 !! k = Some (r, b)) as (k & b & Hk).
    { pose proof (step_awaiting op s s1 Hstep) as Ha.
      destruct op; try (by apply elem_of_nil in Hin).
      - assert ((r, true) ∈ awaiting s1) as Hin'.
        { rewrite Ha. apply elem_of_app. right.
          apply list_elem_of_fmap. by exists r. }
        apply list_elem_of_lookup_1 in Hin' as [k Hk]. eauto.
      - assert ((r, false) ∈ awaiting s1) as Hin'.
        { rewrite Ha. apply elem_of_app. right.
          apply list_elem_of_fmap. by exists r. }
        apply list_elem_of_lookup_1 in Hin' as [j Hj]. eauto. }
    destruct (on_resume_failed_alike k now (set_clock now s1) r b (started m) t1 t2)
      as (u1 & u2 & H1 & H2 & Hacc & Hu); [done|done|done|done|].
    exists k, b, u1, u2,
      (set_status (if bool_decide (attempts (started m) < maxAttempts (started m))
                   then pending else failed) (started m)).
    unfold step. rewrite bool_decide_eq_true_2 by done.
    repeat split; done.
  - intros e. apply attempt_failed_throws.
  - apply attempt_failed_returns_false.
  - intros t s0 m0.
    destruct (processMessage_resume_spec r m0 t now s0) as (s' & -> & _). eauto.
Qed.

Lemma thrown_send_counts_like_false_witness :
  run [AddMessage (sample_text normal 3 None) "msg_a" 1000] init = Some queued_state
  ∧ step (Interval 2000) queued_state = Some inflight_state
  ∧ ∃ k u1 u2 m',
      step (Resume k (send_throws (ErrorObject "timeout")) 2500) inflight_state
      = Some u1
      ∧ step (Resume k (send_returns false) 2500) inflight_state = Some u2
      ∧ accounting u1 = accounting u2
      ∧ heap u1 !! 0%nat = Some m'
      ∧ attempts m' = 1 ∧ status m' = pending.
Proof.
  split; [vm_compute; reflexivity|]. split; [vm_compute; reflexivity|].
  destruct (thrown_send_counts_like_false
              [AddMessage (sample_text normal 3 None) "msg_a" 1000] queued_state
              (Interval 2000) inflight_state 0
              (queuedMessage (sample_text normal 3 None) "msg_a" 1000) 2500
              (send_throws (ErrorObject "timeout")) (send_returns false))
    as [(k & b & u1 & u2 & m' & _ & _ & _ & H1 & H2 & H3 & H4 & H5 & _ & H6) _].
  - vm_compute; reflexivity.
  - vm_compute; reflexivity.
  - vm_compute; reflexivity.
  - vm_compute. apply list_elem_of_here.
  - vm_compute; discriminate.
  - vm_compute; discriminate.
  - vm_compute; discriminate.
  - exists k, u1, u2, m'.
    split; [exact H1|]. split; [exact H2|]. split; [exact H3|].
    split; [exact H4|]. split; [exact H5|exact H6].
Defined.

(** ** One suspended call per message being sent *)

Lemma count_fst_NoDup {A} `{EqDecision A} {B} (l : list (A * B)) (x : A) :
  NoDup l.*1 →
  length (filter (λ e : A * B, e.1 = x) l) = if decide (x ∈ l.*1) then 1%nat else 0%nat.
Proof.
  induction l as [|[a b] l IH]; intros Hnd; [done|].
  rewrite fmap_cons in Hnd. apply NoDup_cons in Hnd as [Ha Hnd].
  specialize (IH Hnd). rewrite filter_cons, fmap_cons.
  destruct (decide ((a, b).1 = x)) as [Heq|Hne].
  - simpl in Heq. subst a. rewrite decide_True by left.
    simpl length. rewrite IH. by rewrite decide_False.
  - simpl in Hne. rewrite IH. destruct (decide (x ∈ l.*1)).
    + by rewrite decide_True by by right.
    + rewrite decide_False; [done|]. intros [->|?]%elem_of_cons; done.
Qed.

(** In every state reached from the constructor, the number of suspended
    [processMessage] calls on a message is one if its status is sending and
    zero otherwise: two attempts on one message never overlap. *)
Theorem one_call_per_sending_message ops s r m :
  run ops init = Some s → heap s !! r = Some m →
  length (filter (λ e : ref * bool, e.1 = r) (awaiting s))
  = if decide (status m = sending) then 1%nat else 0%nat.
Proof.
  intros Hrun Hm. apply reachable_Life in Hrun as HL.
  rewrite count_fst_NoDup by apply (inv_await_nodup s (life_inv s HL)).
  destruct (decide (status m = sending)) as [Hs|Hs].
  - rewrite decide_True; [done|]. by apply (life_sending s HL r m).
  - rewrite decide_False; [done|]. intros Hin.
    apply (inv_await_sending s (life_inv s HL)) in Hin.
    apply sat_iff in Hin as (m' & Hm' & Hs'). congruence.
Qed.

Lemma one_call_per_sending_message_witness :
  run [AddMessage (sample_text normal 3 None) "msg_a" 1000; Interval 2000] init
  = Some inflight_state
  ∧ length (filter (λ e : ref * bool, e.1 = 0%nat) (awaiting inflight_state))
    = 1%nat.
Proof.
  split; [vm_compute; reflexivity|].
  apply (one_call_per_sending_message
           [AddMessage (sample_text normal 3 None) "msg_a" 1000; Interval 2000]
           inflight_state 0
           (started (queuedMessage (sample_text normal 3 None) "msg_a" 1000)));
    vm_compute; reflexivity.
Defined.

(** ** The re-entrancy flag *)

(** In every state reached from the constructor, [processing] is set
    exactly while a call of a batch is suspended.  While one is, an
    interval callback changes nothing, so a transport call of a batch that
    never answers stops all further cycles; when none is and a queued
    message is due, the callback starts a batch. *)
Theorem processing_while_batch_outstanding ops s :
  run ops init = Some s →
  (processing s = true ↔ ∃ r, (r, true) ∈ awaiting s)
  ∧ ((∃ r, (r, true) ∈ awaiting s) → ∀ now, processQueue now s = s)
  ∧ ((¬ ∃ r, (r, true) ∈ awaiting s) →
     ∀ now r, r ∈ queue s → sat s (due now) r →
              batch_of now s ≠ []
              ∧ processing (processQueue now s) = true
              ∧ (awaiting (processQueue now s)
                 = awaiting s ++ ((λ r, (r, true)) <$> batch_of now s))).
Proof.
  intros Hrun. apply reachable_Life in Hrun as HL.
  assert (processing s = true ↔ ∃ r, (r, true) ∈ awaiting s) as Hiff.
  { rewrite (life_flag s HL). unfold batch_outstanding.
    rewrite bool_decide_eq_true, Exists_exists. split.
    - intros ([r b] & Hin & Hb). simpl in Hb. subst b. eauto.
    - intros (r & Hin). exists (r, true). done. }
  split; [done|]. split.
  - intros Hex now. apply Hiff in Hex. unfold processQueue. by rewrite Hex.
  - intros Hno now r Hin Hdue.
    assert (processing s = false) as Hp.
    { destruct (processing s) eqn:E; [|done]. exfalso. by apply Hno, Hiff. }
    assert (r ∈ pendingMessages now s) as Hpm.
    { apply list_elem_of_filter. done. }
    unfold processQueue, batch_of. rewrite Hp.
    destruct (pendingMessages now s) as [|r0 l] eqn:E.
    { by apply elem_of_nil in Hpm. }
    split; [done|]. by rewrite dispatch_processing, dispatch_awaiting.
Qed.

Lemma processing_while_batch_outstanding_witness :
  run [AddMessage (sample_text normal 3 None) "msg_a" 1000; Interval 2000] init
  = Some inflight_state
  ∧ ∀ now, processQueue now inflight_state = inflight_state.
Proof.
  split; [vm_compute; reflexivity|].
  apply (processing_while_batch_outstanding
           [AddMessage (sample_text normal 3 None) "msg_a" 1000; Interval 2000]
           inflight_state); [vm_compute; reflexivity|].
  exists 0%nat. vm_compute. left.
Defined.

(** ** Attempts and the trace *)

(** In every state reached from the constructor, [attempts] of a message
    is the number of attempts started on it so far; when every message was
    enqueued with a budget of at least one attempt, no message is ever
    attempted more than [maxAttempts] times. *)
Theorem attempts_counts_started_attempts ops s r m :
  run ops init = Some s → heap s !! r = Some m →
  attempts m = Z.of_nat (length (attempts_on r s))
  ∧ (Forall budget_ok ops → Z.of_nat (length (attempts_on r s)) ≤ maxAttempts m).
Proof.
  intros Hrun Hm. apply reachable_Life in Hrun as HL.
  pose proof (life_count s HL r) as Hn. rewrite Hm in Hn. split; [done|].
  intros Hb. rewrite <- Hn.
  destruct (reachable_within_budget ops s r m Hb Hrun Hm) as (_ & ? & _). lia.
Qed.

Lemma attempts_counts_started_attempts_witness :
  run exhausting_ops init = Some exhausted_state
  ∧ attempts_on 0 exhausted_state = [2000; 3000; 4000]
  ∧ ∀ m, heap exhausted_state !! 0%nat = Some m →
         attempts m = Z.of_nat (length (attempts_on 0 exhausted_state)).
Proof.
  split; [vm_compute; reflexivity|]. split; [vm_compute; reflexivity|].
  intros m Hm.
  apply (attempts_counts_started_attempts exhausting_ops exhausted_state 0 m);
    [vm_compute; reflexivity|exact Hm].
Defined.

(** In every state reached from the constructor, every attempt on a
    scheduled message started at or after its scheduled time, also the
    attempts started by retry timers, and no attempt lies in the future. *)
Theorem no_attempt_before_schedule ops s r m t :
  run ops init = Some s → heap s !! r = Some m → t ∈ attempts_on r s →
  t ≤ clock s ∧ ∀ u, scheduledFor m = Some u → u ≤ t.
Proof.
  intros Hrun Hm Ht. apply reachable_Life in Hrun as HL.
  destruct (life_times s HL r t Ht) as (Hc & m' & Hm' & Hs).
  assert (m' = m) as -> by congruence. split; [done|].
  intros u Hu. by rewrite Hu in Hs.
Qed.

Definition scheduled_ops : list Op :=
  [ AddMessage (sample_text urgent 3 (Some 5000)) "msg_s" 1000;
    Interval 2000; Interval 4000; Interval 6000;
    Resume 0 transport_down 6010;
    Timeout 0 7010 ].

Definition scheduled_state : State :=
  Eval vm_compute in default init (run scheduled_ops init).

Lemma no_attempt_before_schedule_witness :
  run scheduled_ops init = Some scheduled_state
  ∧ attempts_on 0 scheduled_state = [6000; 7010]
  ∧ ∀ m t, heap scheduled_state !! 0%nat = Some m →
           t ∈ attempts_on 0 scheduled_state →
           t ≤ clock scheduled_state ∧ ∀ u, scheduledFor m = Some u → u ≤ t.
Proof.
  split; [vm_compute; reflexivity|]. split; [vm_compute; reflexivity|].
  intros m t Hm Ht.
  apply (no_attempt_before_schedule scheduled_ops scheduled_state 0 m t);
    [vm_compute; reflexivity|exact Hm|exact Ht].
Defined.

Lemma run_attempts_on_prefix ops s s' r :
  Life s → run ops s = Some s' → attempts_on r s `prefix_of` attempts_on r s'.
Proof.
  revert s. induction ops as [|op ops IH]; intros s HL; simpl.
  - by intros [= <-].
  - destruct (step op s) as [s1|] eqn:E; [|done]. intros Hrun.
    etrans; [|apply (IH s1); [by eapply step_Life|done]].
    rewrite (step_attempts_on op s s1 r (life_inv s HL) E). by apply prefix_app_r.
Qed.

(** Once a message is sent, failed or cancelled in a state reached from
    the constructor, no later history starts another attempt on it: a
    cancelled message is never sent, a sent one is never sent again. *)
Theorem no_attempt_after_terminal ops s ops' s' r m :
  run ops init = Some s → run ops' s = Some s' →
  heap s !! r = Some m → terminal (status m) →
  attempts_on r s' = attempts_on r s.
Proof.
  intros Hrun Hrun' Hm Hterm. apply reachable_Life in Hrun as HL.
  pose proof (run_Life ops' s s' HL Hrun') as HL'.
  assert (heap s' !! r = Some m) as Hm'.
  { eapply run_terminal; eauto; apply HL. }
  pose proof (life_count s HL r) as Hn. rewrite Hm in Hn.
  pose proof (life_count s' HL' r) as Hn'. rewrite Hm' in Hn'.
  destruct (run_attempts_on_prefix ops' s s' r HL Hrun') as [ext Hext].
  rewrite Hext, length_app in Hn'.
  assert (ext = []) as -> by (destruct ext; [done|simpl in Hn'; lia]).
  by rewrite Hext, app_nil_r.
Qed.

Lemma no_attempt_after_terminal_witness :
  run sample_ops init = Some sample_state
  ∧ run [Interval 4000; Timeout 0 4100] sample_state
    = Some (default init (run [Interval 4000; Timeout 0 4100] sample_state))
  ∧ attempts_on 2 (default init (run [Interval 4000; Timeout 0 4100] sample_state))
    = attempts_on 2 sample_state.
Proof.
  split; [vm_compute; reflexivity|]. split; [vm_compute; reflexivity|].
  apply (no_attempt_after_terminal sample_ops sample_state
           [Interval 4000; Timeout 0 4100] _ 2
           (set_status cancelled (queuedMessage (sample_text low 3 None) "msg_c" 1200)));
    try (vm_compute; reflexivity).
  vm_compute. right. right. left.
Defined.

(** ** Handler calls *)











(** ** What the queue never writes *)

Lemma run_same_content ops s s' r m :
  Life s → run ops s = Some s' → heap s !! r = Some m →
  ∃ m', heap s' !! r = Some m' ∧ same_content m m' ∧ attempts m ≤ attempts m'.
Proof.
  revert s m. induction ops as [|op ops IH]; intros s m HL; simpl.
  - intros [= <-] Hm. exists m. split; [done|]. split; [apply same_content_refl|lia].
  - destruct (step op s) as [s1|] eqn:E; [|done]. intros Hrun Hm.
    destruct (step_scheduledFor op s s1 r m HL E Hm) as (m1 & Hm1 & Hc1 & Ha1).
    destruct (IH s1 m1 (step_Life op s s1 HL E) Hrun Hm1) as (m' & Hm' & Hc' & Ha').
    exists m'. split; [done|]. split; [by eapply same_content_trans|lia].
Qed.

(** From any state reached from the constructor, no history of events
    frees a message object or changes any of its fields other than
    [status] and [attempts], and [attempts] never decreases. *)
Theorem only_status_and_attempts_change ops s ops' s' r m :
  run ops init = Some s → run ops' s = Some s' → heap s !! r = Some m →
  ∃ m', heap s' !! r = Some m' ∧ same_content m m' ∧ attempts m ≤ attempts m'.
Proof.
  intros Hrun Hrun' Hm. eapply run_same_content; eauto. by eapply reachable_Life.
Qed.

Lemma only_status_and_attempts_change_witness :
  run backoff_ops init = Some backoff_state
  ∧ run [Interval 4000; Resume 0 transport_down 4000] backoff_state
    = Some exhausted_state
  ∧ ∀ m, heap backoff_state !! 0%nat = Some m →
         ∃ m', heap exhausted_state !! 0%nat = Some m'
               ∧ same_content m m' ∧ attempts m ≤ attempts m'.
Proof.
  split; [vm_compute; reflexivity|]. split; [vm_compute; reflexivity|].
  intros m Hm.
  apply (only_status_and_attempts_change backoff_ops backoff_state
           [Interval 4000; Resume 0 transport_down 4000] exhausted_state 0 m);
    [vm_compute; reflexivity|vm_compute; reflexivity|exact Hm].
Defined.

(** ** The retry delay *)

(** From the first attempt on, the delay before a retry is 1000, 2000,
    4000, 8000 and 16000 ms after attempts 1 to 5 and 30000 ms after every
    later attempt; it is never below 1000 ms or above 30000 ms, and never
    shrinks as attempts grow. *)
Theorem backoff_doubles_then_caps n :
  1 ≤ n →
  backoff n = (if bool_decide (n ≤ 5) then 1000 * 2 ^ (n - 1) else 30000)
  ∧ 1000 ≤ backoff n ≤ 30000
  ∧ ∀ n', n ≤ n' → backoff n ≤ backoff n'.
Proof.
  intros Hn.
  assert (∀ k, 1 ≤ k → 1 ≤ 2 ^ (k - 1)) as Hpos.
  { intros k Hk. apply (Z.pow_le_mono_r 2 0 (k - 1)); lia. }
  assert (∀ k, 6 ≤ k → 32 ≤ 2 ^ (k - 1)) as Hbig.
  { intros k Hk. apply (Z.pow_le_mono_r 2 5 (k - 1)); lia. }
  assert (∀ k, 1 ≤ k → k ≤ 5 → 2 ^ (k - 1) ≤ 16) as Hsmall.
  { intros k H1 H5. apply (Z.pow_le_mono_r 2 (k - 1) 4); lia. }
  unfold backoff. split; [|split].
  - case_bool_decide.
    + specialize (Hsmall n Hn ltac:(lia)). lia.
    + specialize (Hbig n ltac:(lia)). lia.
  - specialize (Hpos n Hn). lia.
  - intros n' Hle.
    assert (2 ^ (n - 1) ≤ 2 ^ (n' - 1)) by (apply Z.pow_le_mono_r; lia). lia.
Qed.

Lemma backoff_doubles_then_caps_witness :
  1 ≤ 3 ∧ backoff 3 = 4000 ∧ 1000 ≤ backoff 3 ≤ 30000.
Proof.
  split; [lia|].
  destruct (backoff_doubles_then_caps 3 ltac:(lia)) as (H1 & H2 & _).
  split; [exact H1|exact H2].
Defined.

(** ** [retryFailed] in reachable states *)

(** In a state reached from the constructor [retryFailed] resets no
    message: it returns 0, writes to no message, notifies no handler, and
    as an event it leaves the state as it is.  A failed message has
    [attempts >= maxAttempts], which the guard of the loop excludes. *)
Theorem retryFailed_changes_nothing ops s :
  run ops init = Some s →
  retryFailed s = (0, s)
  ∧ step RetryFailed s = Some s
  ∧ ∀ r m, heap s !! r = Some m → status m = failed →
           ¬ attempts m < maxAttempts m.
Proof.
  intros Hrun.
  assert (retryFailed s = (0, s)) as E by (by eapply retryFailed_never_retries).
  split; [exact E|]. split.
  - unfold step. by rewrite E.
  - intros r m Hm Hf.
    destruct (reachable_accounted ops s r m Hrun Hm) as [_ Hge].
    specialize (Hge Hf). lia.
Qed.

Lemma retryFailed_changes_nothing_witness :
  run exhausting_ops init = Some exhausted_state
  ∧ retryFailed exhausted_state = (0, exhausted_state).
Proof.
  split; [vm_compute; reflexivity|].
  apply (retryFailed_changes_nothing exhausting_ops). vm_compute; reflexivity.
Defined.

(** ** [removeMessage] *)

Lemma omap_delete_total {A B} (f : A → option B) (l : list A) k :
  (∀ x, x ∈ l → is_Some (f x)) → omap f (delete k l) = delete k (omap f l).
Proof.
  intros H. rewrite !delete_take_drop, omap_app.
  by rewrite omap_take_total, omap_drop_total.
Qed.

Lemma queue_allocated s :
  Inv s → ∀ r, r ∈ queue s → is_Some (deref s r).
Proof. intros HI r Hr. apply lookup_lt_is_Some. by apply (inv_queue_alloc s HI). Qed.

(** In every state reached from the constructor, [removeMessage] returns
    true exactly when a queued message has the id; it then takes the first
    such message out of the queue and keeps the others in their order, and
    it returns false and changes nothing otherwise.  It never touches the
    message objects, the timers or the suspended calls. *)
Theorem removeMessage_takes_first_with_id ops s i :
  run ops init = Some s →
  ((removeMessage i s).1 = true ↔ ∃ m, m ∈ getMessages s ∧ id m = i)
  ∧ ((removeMessage i s).1 = true →
     ∃ k m, getMessages s !! k = Some m ∧ id m = i
            ∧ (∀ j m', (j < k)%nat → getMessages s !! j = Some m' → id m' ≠ i)
            ∧ getMessages (removeMessage i s).2 = delete k (getMessages s))
  ∧ ((removeMessage i s).1 = false → (removeMessage i s).2 = s)
  ∧ heap (removeMessage i s).2 = heap s
  ∧ timers (removeMessage i s).2 = timers s
  ∧ awaiting (removeMessage i s).2 = awaiting s.
Proof.
  intros Hrun. apply reachable_Inv in Hrun as HI.
  pose proof (inv_queue_alloc s HI) as Hal.
  unfold removeMessage.
  destruct (list_find _ (queue s)) as [[k r]|] eqn:Ef; simpl.
  - apply list_find_Some in Ef as (Hk & Hid & Hfirst).
    apply sat_iff in Hid as (m & Hm & Hid).
    assert (getMessages s !! k = Some m) as Hgk.
    { rewrite getMessages_lookup, Hk by done. simpl. exact Hm. }
    split; [|split; [|done]].
    + split; [|done]. intros _. exists m. split; [|done].
      by eapply list_elem_of_lookup_2.
    + intros _. exists k, m. split; [done|]. split; [done|]. split.
      * intros j m' Hj Hgj Hid'.
        rewrite getMessages_lookup in Hgj by done.
        destruct (queue s !! j) as [r'|] eqn:Hqj; [|done]. simpl in Hgj.
        apply (Hfirst j r' Hqj Hj). apply sat_iff. eauto.
      * unfold getMessages. simpl. apply omap_delete_total.
        by apply queue_allocated.
  - split; [|done]. split; [done|]. intros (m & Hin & Hid). exfalso.
    apply getMessages_elem in Hin as (r & Hr & Hm).
    apply list_find_None in Ef. rewrite Forall_forall in Ef.
    apply (Ef r Hr). apply sat_iff. eauto.
Qed.

Lemma removeMessage_takes_first_with_id_witness :
  run sample_ops init = Some sample_state
  ∧ (removeMessage "msg_b" sample_state).1 = true
  ∧ heap (removeMessage "msg_b" sample_state).2 = heap sample_state.
Proof.
  split; [vm_compute; reflexivity|]. split; [vm_compute; reflexivity|].
  apply (removeMessage_takes_first_with_id sample_ops sample_state "msg_b").
  vm_compute; reflexivity.
Defined.

(** ** Timers outlive the queue entry *)

Lemma timer_fires_spec k now s at_ r :
  Inv s → timers s !! k = Some (at_, r) → at_ ≤ now → clock s ≤ now →
  sat s (λ m, status m = pending) r →
  ∃ s', step (Timeout k now) s = Some s'
        ∧ attempts_on r s' = attempts_on r s ++ [now]
        ∧ sat s' (λ m, status m = sending) r.
Proof.
  intros HI Hk Hat Hc Hp.
  assert (is_Some (step (Timeout k now) s)) as [s' Hs'].
  { unfold step. rewrite bool_decide_eq_true_2 by done.
    unfold on_timeout. simpl. rewrite Hk.
    rewrite bool_decide_eq_true_2 by done. eauto. }
  exists s'. split; [done|].
  assert (dispatched (Timeout k now) s = [r]) as Hd.
  { simpl. rewrite Hk. by rewrite bool_decide_eq_true_2. }
  split.
  - rewrite (step_attempts_on _ s s' r HI Hs'), Hd.
    by rewrite decide_True by left.
  - apply sat_iff in Hp as (m & Hm & Hp). apply sat_iff.
    exists (started m). split; [|done].
    rewrite (step_started _ s s' r HI Hs'), Hm; [done|]. rewrite Hd. left.
Qed.

(** In a state reached from the constructor, let a pending message have a
    retry timer.  After [removeMessage] of that message, and after
    [destroy], the message is no longer queued, yet the timer is still
    there and its callback starts the next attempt on the message: neither
    operation cancels a scheduled retry. *)
Theorem retry_timer_survives_removal ops s i k at_ r now :
  run ops init = Some s →
  getMessage i s = Some r → timers s !! k = Some (at_, r) →
  sat s (λ m, status m = pending) r → at_ ≤ now → clock s ≤ now →
  ((r ∉ queue (removeMessage i s).2)
   ∧ ∃ s', step (Timeout k now) (removeMessage i s).2 = Some s'
           ∧ attempts_on r s' = attempts_on r s ++ [now]
           ∧ sat s' (λ m, status m = sending) r)
  ∧ ((r ∉ queue (destroy s))
     ∧ ∃ s', step (Timeout k now) (destroy s) = Some s'
             ∧ attempts_on r s' = attempts_on r s ++ [now]
             ∧ sat s' (λ m, status m = sending) r).
Proof.
  intros Hrun Hg Hk Hp Hat Hc. apply reachable_Inv in Hrun as HI.
  split.
  - assert (∃ idx, removeMessage i s
                   = (true, notifyStatsChanged (set_queue (delete idx (queue s)) s))
                   ∧ queue s !! idx = Some r) as (idx & Hrm & Hidx).
    { unfold removeMessage. unfold getMessage in Hg.
      destruct (list_find _ (queue s)) as [[idx r']|] eqn:Ef; [|done].
      simpl in Hg. injection Hg as ->.
      apply list_find_Some in Ef as (Hidx & _). eauto. }
    rewrite Hrm. simpl. split.
    + apply NoDup_delete_lookup; [apply HI|done].
    + set (s1 := notifyStatsChanged (set_queue (delete idx (queue s)) s)).
      assert (attempts_on r s1 = attempts_on r s) as <-.
      { unfold attempts_on, attempts_made, s1. simpl. rewrite omap_app.
        destruct (h_onQueueStatsChanged _); simpl; by rewrite app_nil_r. }
      apply (timer_fires_spec k now s1 at_ r); try done.
      pose proof (removeMessage_Inv i s HI) as HI1. by rewrite Hrm in HI1.
  - split; [simpl; apply not_elem_of_nil|].
    apply (timer_fires_spec k now (destroy s) at_ r); try done.
    by apply destroy_Inv.
Qed.

Lemma retry_timer_survives_removal_witness :
  run backoff_ops init = Some backoff_state
  ∧ ∃ s', step (Timeout 0 5000) (removeMessage "msg_a" backoff_state).2 = Some s'
          ∧ attempts_on 0 s' = attempts_on 0 backoff_state ++ [5000]
          ∧ sat s' (λ m, status m = sending) 0%nat.
Proof.
  split; [vm_compute; reflexivity|].
  apply (retry_timer_survives_removal backoff_ops backoff_state "msg_a" 0 5000 0 5000);
    try (vm_compute; reflexivity); simpl; lia.
Defined.

(** ** [addMessage] and [getMessage] *)

Lemma list_find_head {A} (P : A → Prop) `{∀ x, Decision (P x)} (l : list A) :
  snd <$> list_find P l = head (filter P l).
Proof.
  induction l as [|x l IH]; [done|]. simpl.
  destruct (decide (P x)).
  - by rewrite filter_cons_True.
  - rewrite filter_cons_False by done. rewrite <- IH.
    by destruct (list_find P l) as [[j y]|].
Qed.

Lemma filter_ext_in {A} (P Q : A → Prop) `{∀ x, Decision (P x)} `{∀ x, Decision (Q x)}
    (l : list A) :
  (∀ x, x ∈ l → P x ↔ Q x) → filter P l = filter Q l.
Proof.
  induction l as [|x l IH]; intros Hl; [done|].
  assert (filter P l = filter Q l) as IH'.
  { apply IH. intros y Hy. apply Hl. by right. }
  destruct (decide (P x)) as [HP|HP].
  - rewrite !filter_cons_True; [by rewrite IH'|by apply Hl; [left|]|done].
  - rewrite !filter_cons_False; [done| |done].
    intros HQ. apply HP. apply Hl; [left|done].
Qed.

Lemma filter_none {A} (P : A → Prop) `{∀ x, Decision (P x)} (l : list A) :
  (∀ x, x ∈ l → ¬ P x) → filter P l = [].
Proof.
  induction l as [|x l IH]; intros Hl; [done|].
  rewrite filter_cons_False by (apply Hl; left).
  apply IH. intros y Hy. apply Hl. by right.
Qed.

Lemma getMessage_head i s :
  getMessage i s = head (filter (sat s (λ m, id m = i)) (queue s)).
Proof. unfold getMessage. apply list_find_head. Qed.

Lemma count_status_perm st l l' : l ≡ₚ l' → count_status st l = count_status st l'.
Proof.
  intros Hp. unfold count_status. f_equal. apply Permutation_length.
  by rewrite Hp.
Qed.

Lemma count_status_cons st m l :
  count_status st (m :: l)
  = (if decide (status m = st) then 1 else 0) + count_status st l.
Proof.
  unfold count_status. rewrite filter_cons.
  destruct (decide (status m = st)); simpl length; lia.
Qed.

(** In a state reached from the constructor, enqueue a message under an
    id no queued message has.  [addMessage] returns that id, [getMessage]
    of the id finds the new message, which is pending with no attempts;
    every other id is found as before; the queued messages are the old ones
    and the new one; and the statistics count one more message, pending. *)
Theorem addMessage_then_getMessage ops s spec newid now :
  run ops init = Some s → (∀ m, m ∈ getMessages s → id m ≠ newid) →
  (addMessage spec newid now s).1 = newid
  ∧ getMessage newid (addMessage spec newid now s).2 = Some (length (heap s))
  ∧ heap (addMessage spec newid now s).2 !! length (heap s)
    = Some (queuedMessage spec newid now)
  ∧ status (queuedMessage spec newid now) = pending
  ∧ attempts (queuedMessage spec newid now) = 0
  ∧ (∀ i, i ≠ newid →
          getMessage i (addMessage spec newid now s).2 = getMessage i s)
  ∧ getMessages (addMessage spec newid now s).2
    ≡ₚ queuedMessage spec newid now :: getMessages s
  ∧ stats_total (getStats (addMessage spec newid now s).2)
    = stats_total (getStats s) + 1
  ∧ stats_pending (getStats (addMessage spec newid now s).2)
    = stats_pending (getStats s) + 1
  ∧ stats_sending (getStats (addMessage spec newid now s).2)
    = stats_sending (getStats s)
  ∧ stats_sent (getStats (addMessage spec newid now s).2)
    = stats_sent (getStats s)
  ∧ stats_failed (getStats (addMessage spec newid now s).2)
    = stats_failed (getStats s).
Proof.
  intros Hrun Hfresh. apply reachable_Inv in Hrun as HI.
  pose proof (inv_queue_alloc s HI) as Hal.
  set (m := queuedMessage spec newid now).
  set (s' := (addMessage spec newid now s).2).
  assert (heap s' = heap s ++ [m]) as Hh by done.
  assert (∃ idx, queue s' = take idx (queue s) ++ length (heap s) :: drop idx (queue s))
    as [idx Hq] by (by eexists).
  assert (heap s' !! length (heap s) = Some m) as Hnew.
  { rewrite Hh, lookup_app_r by lia. by rewrite Nat.sub_diag. }
  assert (∀ r, r ∈ queue s → heap s' !! r = heap s !! r) as Hold.
  { intros r Hr. rewrite Hh. apply lookup_app_l. by apply Hal. }
  assert (∀ i r, r ∈ queue s →
            sat s' (λ m, id m = i) r ↔ sat s (λ m, id m = i) r) as Hsat.
  { intros i r Hr. unfold sat, deref. by rewrite Hold. }
  assert (∀ i (l : list ref), (∀ r, r ∈ l → r ∈ queue s) →
            filter (sat s' (λ m, id m = i)) l = filter (sat s (λ m, id m = i)) l)
    as Hfilter.
  { intros i l Hl. apply filter_ext_in. intros r Hr. apply Hsat. by apply Hl. }
  assert (∀ r, r ∈ take idx (queue s) → r ∈ queue s) as Htake.
  { intros r Hr. eapply elem_of_sublist; [done|apply sublist_take]. }
  assert (∀ r, r ∈ drop idx (queue s) → r ∈ queue s) as Hdrop.
  { intros r Hr. eapply elem_of_sublist; [done|apply sublist_drop]. }
  assert (getMessages s' ≡ₚ m :: getMessages s) as Hperm.
  { unfold s'. rewrite addMessage_getMessages by done. apply splice_in_perm. }
  split; [done|]. split; [|split; [done|split; [done|split; [done|split; [|split; [done|]]]]]].
  - rewrite getMessage_head, Hq, filter_app, filter_cons_True.
    + rewrite Hfilter by done. rewrite filter_none; [done|].
      intros r Hr Hs. apply sat_iff in Hs as (m0 & Hm0 & Hid).
      apply (Hfresh m0); [|done]. apply getMessages_elem. eauto.
    + apply sat_iff. exists m. done.
  - intros i Hne. rewrite !getMessage_head, Hq, filter_app, filter_cons_False.
    + rewrite !Hfilter by done. rewrite <- filter_app. by rewrite take_drop.
    + intros Hs. apply sat_iff in Hs as (m0 & Hm0 & Hid).
      rewrite Hnew in Hm0. injection Hm0 as <-. done.
  - assert (∀ st, count_status st (getMessages s')
                  = (if decide (pending = st) then 1 else 0)
                    + count_status st (getMessages s)) as Hcount.
    { intros st. rewrite (count_status_perm st _ _ Hperm).
      by rewrite count_status_cons. }
    split.
    + change (Z.of_nat (length (queue s')) = Z.of_nat (length (queue s)) + 1).
      rewrite Hq, length_app. simpl. rewrite length_take, length_drop. lia.
    + repeat split; simpl; rewrite Hcount; simpl; lia.
Qed.

Lemma addMessage_then_getMessage_witness :
  run sample_ops init = Some sample_state
  ∧ (∀ m, m ∈ getMessages sample_state → id m ≠ "msg_d")
  ∧ getMessage "msg_d"
      (addMessage (sample_text high 3 None) "msg_d" 2100 sample_state).2
    = Some 3%nat.
Proof.
  assert (∀ m, m ∈ getMessages sample_state → id m ≠ "msg_d") as Hfresh.
  { intros m Hm. vm_compute in Hm.
    repeat (apply elem_of_cons in Hm as [->|Hm]; [discriminate|]).
    by apply elem_of_nil in Hm. }
  split; [vm_compute; reflexivity|]. split; [exact Hfresh|].
  apply (addMessage_then_getMessage sample_ops sample_state
           (sample_text high 3 None) "msg_d" 2100);
    [vm_compute; reflexivity|exact Hfresh].
Defined.

(** ** The retry button writes through the reference *)




(** ** Priority order when nothing is scheduled *)

(** [insertByPriority] as a recursion over the residents. *)
Fixpoint place (m : QueuedMessage) (q : list QueuedMessage) : list QueuedMessage :=
  match q with
  | [] => [m]
  | c :: q' => if goes_before m c then m :: q else c :: place m q'
  end.

Lemma splice_in_place m q k :
  splice_in (insertIndex m q k - k) m q = place m q.
Proof.
  revert k. induction q as [|c q IH]; intros k; simpl.
  - by rewrite Nat.sub_diag.
  - destruct (goes_before m c).
    + by rewrite Nat.sub_diag.
    + destruct (insertIndex_spec m q (S k)) as [[Hge _] _].
      replace (insertIndex m q (S k) - k)%nat
        with (S (insertIndex m q (S k) - S k)) by lia.
      unfold splice_in in *. simpl. f_equal. apply IH.
Qed.

Lemma place_unscheduled m q :
  scheduledFor m = None →
  StronglySorted by_priority q →
  StronglySorted by_priority (place m q)
  ∧ place m q
    = filter (λ c, rank (priority c) ≤ rank (priority m)) q
      ++ m :: filter (λ c, rank (priority m) < rank (priority c)) q.
Proof.
  intros Hm. induction q as [|c q IH]; intros Hs.
  - split; [|done]. repeat constructor.
  - apply StronglySorted_inv in Hs as [Hs Hc].
    destruct (IH Hs) as [IH1 IH2]. simpl.
    assert (goes_before m c = (rank (priority m) <? rank (priority c))) as ->.
    { unfold goes_before. rewrite Hm.
      by destruct (priority m), (priority c). }
    destruct (Z.ltb_spec (rank (priority m)) (rank (priority c))) as [Hlt|Hge].
    + split.
      * constructor; [by constructor|]. constructor; [unfold by_priority; lia|].
        eapply Forall_impl; [exact Hc|]. unfold by_priority. intros x Hx. lia.
      * rewrite filter_none.
        -- simpl. f_equal. symmetry. apply filter_all.
           intros x [->|Hx]%elem_of_cons; [done|].
           rewrite Forall_forall in Hc. specialize (Hc x Hx).
           unfold by_priority in Hc. lia.
        -- intros x [->|Hx]%elem_of_cons; [lia|].
           rewrite Forall_forall in Hc. specialize (Hc x Hx).
           unfold by_priority in Hc. lia.
    + split.
      * constructor; [done|]. rewrite IH2. apply Forall_app. split.
        -- rewrite Forall_forall. intros x [_ Hx]%list_elem_of_filter.
           rewrite Forall_forall in Hc. by apply Hc.
        -- constructor; [done|]. rewrite Forall_forall.
           intros x [_ Hx]%list_elem_of_filter.
           rewrite Forall_forall in Hc. by apply Hc.
      * rewrite filter_cons_True by done. rewrite filter_cons_False by lia.
        simpl. f_equal. exact IH2.
Qed.

Lemma StronglySorted_sublist {A} (R : relation A) (l1 l2 : list A) :
  l1 `sublist_of` l2 → StronglySorted R l2 → StronglySorted R l1.
Proof.
  intros Hsub. induction Hsub as [|x l1 l2 Hsub IH|x l1 l2 Hsub IH]; intros Hs.
  - constructor.
  - apply StronglySorted_inv in Hs as [Hs Hx]. constructor; [by apply IH|].
    rewrite Forall_forall in *. intros y Hy. apply Hx.
    by eapply elem_of_sublist.
  - apply StronglySorted_inv in Hs as [Hs _]. by apply IH.
Qed.

Lemma getMessages_priorities s s' :
  Inv s → queue s' = queue s →
  (∀ r m, heap s !! r = Some m →
          ∃ m', heap s' !! r = Some m' ∧ priority m' = priority m) →
  priority <$> getMessages s' = priority <$> getMessages s.
Proof.
  intros HI Hq Hh. pose proof (inv_queue_alloc s HI) as Hal.
  assert (∀ r, r ∈ queue s' → (r < length (heap s'))%nat) as Hal'.
  { intros r Hr. rewrite Hq in Hr.
    destruct (lookup_lt_is_Some_2 _ _ (Hal r Hr)) as [m Hm].
    destruct (Hh r m Hm) as (m' & Hm' & _). by eapply lookup_lt_Some. }
  apply list_eq. intros k. rewrite !list_lookup_fmap, !getMessages_lookup by done.
  rewrite Hq. destruct (queue s !! k) as [r|] eqn:Hk; [|done]. simpl.
  assert (r ∈ queue s) as Hr by by eapply list_elem_of_lookup_2.
  destruct (lookup_lt_is_Some_2 _ _ (Hal r Hr)) as [m Hm].
  destruct (Hh r m Hm) as (m' & Hm' & Hp).
  unfold deref. rewrite Hm, Hm'. simpl. by rewrite Hp.
Qed.

Lemma by_priority_fmap l l' :
  priority <$> l' = priority <$> l →
  StronglySorted by_priority l → StronglySorted by_priority l'.
Proof.
  revert l. induction l' as [|x l' IH]; intros l Heq Hs; [constructor|].
  destruct l as [|y l]; [done|]. rewrite !fmap_cons in Heq.
  injection Heq as Hxy Heq.
  apply StronglySorted_inv in Hs as [Hs Hy].
  constructor; [by eapply IH|].
  rewrite Forall_forall in *. intros z Hz.
  assert (priority z ∈ priority <$> l) as Hin.
  { rewrite <- Heq. apply list_elem_of_fmap. eauto. }
  apply list_elem_of_fmap in Hin as (z0 & Hz0 & Hin).
  specialize (Hy z0 Hin). unfold by_priority in *. rewrite Hxy, Hz0. exact Hy.
Qed.

Lemma removeMessage_getMessages i s :
  Inv s → getMessages (removeMessage i s).2 `sublist_of` getMessages s.
Proof.
  intros HI. unfold removeMessage.
  destruct (list_find _ (queue s)) as [[k r]|]; [|done].
  unfold getMessages. simpl. rewrite omap_delete_total by by apply queue_allocated.
  apply sublist_delete.
Qed.

Lemma clearCompleted_getMessages s :
  getMessages (clearCompleted s).2 `sublist_of` getMessages s.
Proof.
  assert (getMessages (clearCompleted s).2
          = filter (λ m, ¬ completed m) (getMessages s)) as ->.
  { unfold getMessages at 1. rewrite clearCompleted_queue.
    replace (deref (clearCompleted s).2) with (deref s)
      by (unfold deref; by rewrite clearCompleted_heap).
    apply omap_filter_sat. }
  apply sublist_filter.
Qed.

(** Sorted by priority, nothing scheduled. *)
Record Tidy (s : State) : Prop := {
  tidy_life : Life s;
  tidy_unscheduled : ∀ r m, heap s !! r = Some m → scheduledFor m = None;
  tidy_sorted : StronglySorted by_priority (getMessages s)
}.

Lemma addMessage_Tidy spec newid now s :
  Inv s → StronglySorted by_priority (getMessages s) →
  new_scheduledFor spec = None →
  StronglySorted by_priority (getMessages (addMessage spec newid now s).2)
  ∧ getMessages (addMessage spec newid now s).2
    = filter (λ c, rank (priority c) ≤ rank (new_priority spec)) (getMessages s)
      ++ queuedMessage spec newid now
         :: filter (λ c, rank (new_priority spec) < rank (priority c)) (getMessages s).
Proof.
  intros HI Hs Hn.
  rewrite addMessage_getMessages by apply (inv_queue_alloc s HI).
  rewrite <- (Nat.sub_0_r (insertIndex _ _ 0)), splice_in_place.
  by apply place_unscheduled.
Qed.

Lemma step_Tidy op s s' :
  unscheduled_op op → Tidy s → step op s = Some s' → Tidy s'.
Proof.
  intros Hop [HL Hu Hs] Hstep.
  pose proof (life_inv s HL) as HI.
  split.
  - by eapply step_Life.
  - eapply (step_heap_pred (λ m, scheduledFor m = None)); eauto.
    + intros c m m' Hm Ht. apply transition_same_content in Ht.
      destruct Ht as (_&_&_&_&_&_&_&_&_&_&->&_). done.
    + intros spec newid now ->. exact Hop.
  - destruct op.
    + unfold step in Hstep. case_bool_decide; [|done]. injection Hstep as <-.
      apply (addMessage_Tidy spec newid now (set_clock now s)); try done.
      by apply (Inv_ext s).
    + injection Hstep as <-.
      eapply StronglySorted_sublist; [by apply removeMessage_getMessages|done].
    + eapply by_priority_fmap; [|exact Hs].
      apply getMessages_priorities; [done|by apply (step_queue _ s s' Hstep)|].
      intros r m Hm.
      destruct (step_scheduledFor _ s s' r m HL Hstep Hm) as (m' & Hm' & Hc & _).
      exists m'. split; [done|]. by destruct Hc as (_&_&_&_&_&_&_&->&_).
    + injection Hstep as <-.
      eapply StronglySorted_sublist; [apply clearCompleted_getMessages|done].
    + eapply by_priority_fmap; [|exact Hs].
      apply getMessages_priorities; [done|by apply (step_queue _ s s' Hstep)|].
      intros r m Hm.
      destruct (step_scheduledFor _ s s' r m HL Hstep Hm) as (m' & Hm' & Hc & _).
      exists m'. split; [done|]. by destruct Hc as (_&_&_&_&_&_&_&->&_).
    + injection Hstep as <-. constructor.
    + eapply by_priority_fmap; [|exact Hs].
      apply getMessages_priorities; [done|by apply (step_queue _ s s' Hstep)|].
      intros r m Hm.
      destruct (step_scheduledFor _ s s' r m HL Hstep Hm) as (m' & Hm' & Hc & _).
      exists m'. split; [done|]. by destruct Hc as (_&_&_&_&_&_&_&->&_).
    + eapply by_priority_fmap; [|exact Hs].
      apply getMessages_priorities; [done|by apply (step_queue _ s s' Hstep)|].
      intros r m Hm.
      destruct (step_scheduledFor _ s s' r m HL Hstep Hm) as (m' & Hm' & Hc & _).
      exists m'. split; [done|]. by destruct Hc as (_&_&_&_&_&_&_&->&_).
    + eapply by_priority_fmap; [|exact Hs].
      apply getMessages_priorities; [done|by apply (step_queue _ s s' Hstep)|].
      intros r m Hm.
      destruct (step_scheduledFor _ s s' r m HL Hstep Hm) as (m' & Hm' & Hc & _).
      exists m'. split; [done|]. by destruct Hc as (_&_&_&_&_&_&_&->&_).
    + injection Hstep as <-. exact Hs.
Qed.

Lemma run_Tidy ops s s' :
  Forall unscheduled_op ops → Tidy s → run ops s = Some s' → Tidy s'.
Proof.
  revert s. induction ops as [|op ops IH]; intros s Hu HT; simpl.
  - by intros [= <-].
  - destruct (step op s) as [s1|] eqn:E; [|done].
    apply Forall_cons in Hu as [Hop Hu]. apply IH; [done|]. by eapply step_Tidy.
Qed.

Lemma Tidy_init : Tidy init.
Proof.
  split; [apply Life_init| |constructor].
  intros r m H. exact (init_heap_empty r m _ H).
Qed.

(** When no scheduled message was ever enqueued, the queue of every state
    reached from the constructor is sorted by priority, urgent first, and
    a new message goes behind every resident of the same or a higher
    priority and before every resident of a lower one: messages of one
    priority stay in the order in which they were enqueued. *)
Theorem unscheduled_queue_is_priority_fifo ops s :
  Forall unscheduled_op ops → run ops init = Some s →
  StronglySorted by_priority (getMessages s)
  ∧ ∀ spec newid now,
      new_scheduledFor spec = None →
      getMessages (addMessage spec newid now s).2
      = filter (λ c, rank (priority c) ≤ rank (new_priority spec)) (getMessages s)
        ++ queuedMessage spec newid now
           :: filter (λ c, rank (new_priority spec) < rank (priority c))
                (getMessages s).
Proof.
  intros Hu Hrun. destruct (run_Tidy ops init s Hu Tidy_init Hrun) as [HL _ Hs].
  split; [done|]. intros spec newid now Hn.
  by apply addMessage_Tidy; [apply HL| |].
Qed.

Lemma unscheduled_queue_is_priority_fifo_witness :
  Forall unscheduled_op sample_ops ∧ run sample_ops init = Some sample_state
  ∧ StronglySorted by_priority (getMessages sample_state).
Proof.
  assert (Forall unscheduled_op sample_ops) as Hu by (repeat constructor).
  split; [exact Hu|]. split; [vm_compute; reflexivity|].
  apply (unscheduled_queue_is_priority_fifo sample_ops sample_state Hu).
  vm_compute; reflexivity.
Defined.

(** ** Where [addMessage] puts a message, and the order by schedule (C4) *)

(** Histories that enqueue scheduled messages only. *)
Definition scheduled_op (op : Op) : Prop :=
  match op with
  | AddMessage spec _ _ => is_Some (new_scheduledFor spec)
  | _ => True
  end.

(** Both scheduled, the first not later than the second. *)
Definition by_schedule (m m' : QueuedMessage) : Prop :=
  match scheduledFor m, scheduledFor m' with
  | Some t, Some t' => t ≤ t'
  | _, _ => False
  end.

(** Of two scheduled messages of a queue, the one with the earlier
    schedule comes first. *)
Definition schedule_ordered (q : list QueuedMessage) : Prop :=
  ∀ i j m m' t t',
    q !! i = Some m → q !! j = Some m' →
    scheduledFor m = Some t → scheduledFor m' = Some t' → t < t' → (i < j)%nat.

(** An unscheduled message of low priority, then a low one scheduled for
    5000, then an urgent one scheduled for 10000. *)
Definition mixed_ops : list Op :=
  [ AddMessage (sample_text low 3 None) "msg_u" 1000;
    AddMessage (sample_text low 3 (Some 5000)) "msg_x" 1100;
    AddMessage (sample_text urgent 3 (Some 10000)) "msg_y" 1200 ].

Definition mixed_state : State :=
  Eval vm_compute in default init (run mixed_ops init).

Lemma place_elem m q x : x ∈ place m q → x = m ∨ x ∈ q.
Proof.
  induction q as [|c q IH]; simpl.
  - intros Hx. apply list_elem_of_singleton in Hx. by left.
  - destruct (goes_before m c).
    + intros [->|Hx]%elem_of_cons; [by left|by right].
    + intros [->|Hx]%elem_of_cons; [right; by left|].
      destruct (IH Hx) as [->|Hq]; [by left|right; by right].
Qed.

Lemma place_scheduled m q :
  is_Some (scheduledFor m) → Forall (λ c, is_Some (scheduledFor c)) q →
  StronglySorted by_schedule q → StronglySorted by_schedule (place m q).
Proof.
  intros [t Ht]. induction q as [|c q IH]; intros Hall Hs.
  - repeat constructor.
  - apply Forall_cons in Hall as [[t' Hc] Hall].
    apply StronglySorted_inv in Hs as [Hs Hcq]. simpl.
    assert (goes_before m c = (t <? t')) as ->
      by (unfold goes_before; by rewrite Ht, Hc).
    destruct (Z.ltb_spec t t') as [Hlt|Hge].
    + constructor; [by constructor|]. constructor.
      * unfold by_schedule. rewrite Ht, Hc. lia.
      * eapply Forall_impl; [exact Hcq|]. intros x. unfold by_schedule.
        rewrite Ht, Hc. destruct (scheduledFor x); [lia|done].
    + constructor; [by apply IH|].
      rewrite Forall_forall. intros x Hx. apply place_elem in Hx as [->|Hx].
      * unfold by_schedule. rewrite Hc, Ht. lia.
      * rewrite Forall_forall in Hcq. by apply Hcq.
Qed.

Lemma sorted_lookup {A} (R : relation A) l i j x y :
  StronglySorted R l → l !! i = Some x → l !! j = Some y → (i < j)%nat → R x y.
Proof.
  intros Hs. revert i j. induction Hs as [|a l Hs IH Ha]; intros i j Hi Hj Hlt.
  - by rewrite lookup_nil in Hi.
  - destruct j as [|j]; [lia|]. simpl in Hj. destruct i as [|i].
    + simpl in Hi. injection Hi as ->. rewrite Forall_forall in Ha.
      apply Ha. by eapply list_elem_of_lookup_2.
    + simpl in Hi. apply (IH i j); [done|done|lia].
Qed.

Lemma sorted_schedule_ordered q :
  StronglySorted by_schedule q → schedule_ordered q.
Proof.
  intros Hs i j m m' t t' Hi Hj Ht Ht' Hlt.
  destruct (decide (i < j)%nat) as [|Hge]; [done|]. exfalso.
  destruct (decide (i = j)) as [->|Hne].
  - rewrite Hi in Hj. injection Hj as ->. rewrite Ht in Ht'.
    injection Ht' as ->. lia.
  - assert (by_schedule m' m) as Hb.
    { eapply (sorted_lookup _ q j i); [done|done|done|lia]. }
    unfold by_schedule in Hb. rewrite Ht, Ht' in Hb. lia.
Qed.

Lemma getMessages_scheduledFor s s' :
  Inv s → queue s' = queue s →
  (∀ r m, heap s !! r = Some m →
          ∃ m', heap s' !! r = Some m' ∧ scheduledFor m' = scheduledFor m) →
  scheduledFor <$> getMessages s' = scheduledFor <$> getMessages s.
Proof.
  intros HI Hq Hh. pose proof (inv_queue_alloc s HI) as Hal.
  assert (∀ r, r ∈ queue s' → (r < length (heap s'))%nat) as Hal'.
  { intros r Hr. rewrite Hq in Hr.
    destruct (lookup_lt_is_Some_2 _ _ (Hal r Hr)) as [m Hm].
    destruct (Hh r m Hm) as (m' & Hm' & _). by eapply lookup_lt_Some. }
  apply list_eq. intros k. rewrite !list_lookup_fmap, !getMessages_lookup by done.
  rewrite Hq. destruct (queue s !! k) as [r|] eqn:Hk; [|done]. simpl.
  assert (r ∈ queue s) as Hr by by eapply list_elem_of_lookup_2.
  destruct (lookup_lt_is_Some_2 _ _ (Hal r Hr)) as [m Hm].
  destruct (Hh r m Hm) as (m' & Hm' & Hp).
  unfold deref. rewrite Hm, Hm'. simpl. by rewrite Hp.
Qed.

Lemma by_schedule_fmap l l' :
  scheduledFor <$> l' = scheduledFor <$> l →
  StronglySorted by_schedule l → StronglySorted by_schedule l'.
Proof.
  revert l. induction l' as [|x l' IH]; intros l Heq Hs; [constructor|].
  destruct l as [|y l]; [done|]. rewrite !fmap_cons in Heq.
  injection Heq as Hxy Heq.
  apply StronglySorted_inv in Hs as [Hs Hy].
  constructor; [by eapply IH|].
  rewrite Forall_forall in *. intros z Hz.
  assert (scheduledFor z ∈ scheduledFor <$> l) as Hin.
  { rewrite <- Heq. apply list_elem_of_fmap. eauto. }
  apply list_elem_of_fmap in Hin as (z0 & Hz0 & Hin).
  specialize (Hy z0 Hin). unfold by_schedule in *. rewrite Hxy, Hz0. exact Hy.
Qed.

(** Sorted by schedule, everything scheduled. *)
Record Timed (s : State) : Prop := {
  timed_life : Life s;
  timed_scheduled : ∀ r m, heap s !! r = Some m → is_Some (scheduledFor m);
  timed_sorted : StronglySorted by_schedule (getMessages s)
}.

Lemma addMessage_Timed spec newid now s :
  Inv s → (∀ r m, heap s !! r = Some m → is_Some (scheduledFor m)) →
  StronglySorted by_schedule (getMessages s) →
  is_Some (new_scheduledFor spec) →
  StronglySorted by_schedule (getMessages (addMessage spec newid now s).2).
Proof.
  intros HI Hu Hs Hn.
  rewrite addMessage_getMessages by apply (inv_queue_alloc s HI).
  rewrite <- (Nat.sub_0_r (insertIndex _ _ 0)), splice_in_place.
  apply place_scheduled; [done| |done].
  rewrite Forall_forall. intros m Hm.
  apply getMessages_elem in Hm as (r & _ & Hm). by eapply Hu.
Qed.

Lemma step_Timed op s s' :
  scheduled_op op → Timed s → step op s = Some s' → Timed s'.
Proof.
  intros Hop [HL Hu Hs] Hstep.
  pose proof (life_inv s HL) as HI.
  split.
  - by eapply step_Life.
  - eapply (step_heap_pred (λ m, is_Some (scheduledFor m))); eauto.
    + intros c m m' Hm Ht. apply transition_same_content in Ht.
      destruct Ht as (_&_&_&_&_&_&_&_&_&_&E&_). by rewrite E.
    + intros spec newid now ->. exact Hop.
  - assert (queue s' = queue s → StronglySorted by_schedule (getMessages s'))
      as Hkeep.
    { intros Hq. eapply by_schedule_fmap; [|exact Hs].
      apply getMessages_scheduledFor; [done|done|].
      intros r m Hm.
      destruct (step_scheduledFor _ s s' r m HL Hstep Hm) as (m' & Hm' & Hc & _).
      exists m'. split; [done|]. by destruct Hc as (_&_&_&_&_&_&_&_&_&_&->&_). }
    destruct op; try (apply Hkeep; by apply (step_queue _ s s' Hstep)).
    + unfold step in Hstep. case_bool_decide; [|done]. injection Hstep as <-.
      apply (addMessage_Timed spec newid now (set_clock now s)); try done.
      by apply (Inv_ext s).
    + injection Hstep as <-.
      eapply StronglySorted_sublist; [by apply removeMessage_getMessages|done].
    + injection Hstep as <-.
      eapply StronglySorted_sublist; [apply clearCompleted_getMessages|done].
    + injection Hstep as <-. constructor.
Qed.

Lemma run_Timed ops s s' :
  Forall scheduled_op ops → Timed s → run ops s = Some s' → Timed s'.
Proof.
  revert s. induction ops as [|op ops IH]; intros s Hu HT; simpl.
  - by intros [= <-].
  - destruct (step op s) as [s1|] eqn:E; [|done].
    apply Forall_cons in Hu as [Hop Hu]. apply IH; [done|]. by eapply step_Timed.
Qed.

Lemma Timed_init : Timed init.
Proof.
  split; [apply Life_init| |constructor].
  intros r m H. exact (init_heap_empty r m _ H).
Qed.

(** C4: in a state reached from the constructor, [addMessage] puts the new
    message at the first position whose resident it is placed before by
    the rule (both scheduled: the resident's time is strictly later;
    otherwise: the resident's priority is strictly lower), and at the end
    when there is none; the residents keep their order.  Enqueuing the
    priorities low, urgent, normal, high without schedules gives urgent,
    high, normal, low.  Of two scheduled messages enqueued into an empty
    queue, in either order and whatever their priorities, the one with the
    earlier schedule comes first; and in every queue into which only
    scheduled messages were ever enqueued, of any two messages the one with
    the earlier schedule comes first, whatever their priorities. *)
Theorem addMessage_position ops s spec newid now :
  run ops init = Some s →
  (∃ i, (i ≤ length (getMessages s))%nat
        ∧ getMessages (addMessage spec newid now s).2
          = take i (getMessages s) ++ queuedMessage spec newid now
                                     :: drop i (getMessages s)
        ∧ (∀ j resident, (j < i)%nat → getMessages s !! j = Some resident →
             ¬ placed_before (queuedMessage spec newid now) resident)
        ∧ (∀ resident, getMessages s !! i = Some resident →
             placed_before (queuedMessage spec newid now) resident))
  ∧ (fmap priority ∘ getMessages <$> run four_priorities init
     = Some [urgent; high; normal; low])
  ∧ (∀ a b ida idb now1 now2 ta tb,
       new_scheduledFor a = Some ta → new_scheduledFor b = Some tb → ta < tb →
       id <$> getMessages
                (addMessage b idb now2 (addMessage a ida now1 init).2).2
       = [ida; idb]
       ∧ id <$> getMessages
                  (addMessage a ida now2 (addMessage b idb now1 init).2).2
         = [ida; idb])
  ∧ (Forall scheduled_op ops → schedule_ordered (getMessages s)).
Proof.
  intros Hrun. apply reachable_Inv in Hrun as HI.
  pose proof (inv_queue_alloc s HI) as Hal.
  split; [|split; [|split]].
  - set (m := queuedMessage spec newid now).
    destruct (insertIndex_spec m (getMessages s) 0) as (Hb & Hlt & Hat).
    exists (insertIndex m (getMessages s) 0).
    split; [lia|]. split; [by apply addMessage_getMessages|]. split.
    + intros j resident Hj Hres Hp. apply goes_before_placed in Hp.
      rewrite (Hlt j resident Hres) in Hp; [done|lia].
    + intros resident Hres. apply goes_before_placed, Hat.
      by rewrite Nat.sub_0_r.
  - vm_compute. reflexivity.
  - intros a b ida idb now1 now2 ta tb Ha Hb Hlt.
    assert (∀ x idx t, getMessages (addMessage x idx t init).2
                       = [queuedMessage x idx t]) as H1.
    { intros x idx t. rewrite addMessage_getMessages; [done|].
      intros r Hr. simpl in Hr. by apply elem_of_nil in Hr. }
    assert (∀ x idx t r, r ∈ queue (addMessage x idx t init).2 →
                         (r < length (heap (addMessage x idx t init).2))%nat) as Hal1.
    { intros x idx t. apply inv_queue_alloc, addMessage_Inv, Inv_init. }
    split.
    + rewrite addMessage_getMessages, H1 by apply Hal1.
      simpl. unfold goes_before. simpl. rewrite Ha, Hb.
      by rewrite (proj2 (Z.ltb_ge tb ta)) by lia.
    + rewrite addMessage_getMessages, H1 by apply Hal1.
      simpl. unfold goes_before. simpl. rewrite Ha, Hb.
      by rewrite (proj2 (Z.ltb_lt ta tb)) by lia.
  - intros Hall. apply sorted_schedule_ordered.
    by destruct (run_Timed ops init s Hall Timed_init Hrun).
Qed.

Lemma addMessage_position_witness :
  run sample_ops init = Some sample_state
  ∧ ∃ i, (i ≤ length (getMessages sample_state))%nat
         ∧ getMessages
             (addMessage (sample_text high 3 (Some 9000)) "msg_d" 2100 sample_state).2
           = take i (getMessages sample_state)
             ++ queuedMessage (sample_text high 3 (Some 9000)) "msg_d" 2100
                :: drop i (getMessages sample_state).
Proof.
  split; [vm_compute; reflexivity|].
  destruct (addMessage_position sample_ops sample_state
              (sample_text high 3 (Some 9000)) "msg_d" 2100)
    as [(i & Hi & Hg & _) _]; [vm_compute; reflexivity|].
  exists i. auto.
Defined.

(** C4, as stated, fails: after an unscheduled message of low priority and
    a low one scheduled for 5000, an urgent message scheduled for 10000 is
    compared with the unscheduled one first, by priority, and goes to the
    front; the later schedule then precedes the earlier one. *)
Lemma addMessage_position_counterexample :
  run mixed_ops init = Some mixed_state
  ∧ (λ m, (id m, scheduledFor m)) <$> getMessages mixed_state
    = [("msg_y", Some 10000); ("msg_u", None); ("msg_x", Some 5000)]
  ∧ ¬ schedule_ordered (getMessages mixed_state).
Proof.
  split; [vm_compute; reflexivity|]. split; [vm_compute; reflexivity|].
  intros H.
  specialize (H 2%nat 0%nat
                (queuedMessage (sample_text low 3 (Some 5000)) "msg_x" 1100)
                (queuedMessage (sample_text urgent 3 (Some 10000)) "msg_y" 1200)
                5000 10000).
  assert (2 < 0)%nat; [|lia].
  apply H; try (vm_compute; reflexivity).
Qed.

(** ** Chat ids (whatsappService.ts, WhatsAppBulkMessenger.tsx,
    WhatsAppMessenger.tsx)

    Strings are sequences of bytes here and of UTF-16 code units in
    JavaScript; the searched text is ASCII and no byte of a multi-byte
    character is an ASCII byte, so the searches find the same places. *)

(** [hay.includes(needle)] *)
Fixpoint includes (needle hay : string) {struct hay} : bool :=
  if String.prefix needle hay then true
  else match hay with
       | EmptyString => false
       | String _ hay' => includes needle hay'
       end.

Fixpoint drop_chars (n : nat) (s : string) : string :=
  match n, s with
  | O, _ => s
  | S n', String _ s' => drop_chars n' s'
  | S _, EmptyString => EmptyString
  end.

(** [hay.replace(needle, repl)] for a string pattern and a replacement
    without [$]: the first occurrence only. *)
Fixpoint replace_first (needle repl hay : string) {struct hay} : string :=
  if String.prefix needle hay
  then repl +:+ drop_chars (String.length needle) hay
  else match hay with
       | EmptyString => EmptyString
       | String c hay' => String c (replace_first needle repl hay')
       end.

(** [to.includes('@c.us') ? to : `${to}@c.us`], in [sendMessage],
    [sendMedia] and [sendBulkMessages]. *)
Definition chat_id (to : string) : string :=
  if includes "@c.us" to then to else to +:+ "@c.us".

(** [formatPhoneNumber]: [phone.replace('@c.us', '')] *)
Definition formatPhoneNumber (phone : string) : string :=
  replace_first "@c.us" EmptyString phone.

Lemma string_prefix_refl s : String.prefix s s = true.
Proof.
  induction s as [|c s IH]; [done|]. simpl.
  destruct (Ascii.ascii_dec c c); [exact IH|done].
Qed.

Lemma includes_cons needle c hay :
  includes needle (String c hay)
  = if String.prefix needle (String c hay) then true else includes needle hay.
Proof. done. Qed.

Lemma replace_first_cons needle repl c hay :
  replace_first needle repl (String c hay)
  = if String.prefix needle (String c hay)
    then repl +:+ drop_chars (String.length needle) (String c hay)
    else String c (replace_first needle repl hay).
Proof. done. Qed.

Lemma includes_app_r needle p : includes needle (p +:+ needle) = true.
Proof.
  induction p as [|c p IH].
  - change (EmptyString +:+ needle) with needle.
    destruct needle as [|a n]; [done|].
    by rewrite includes_cons, string_prefix_refl.
  - change (String c p +:+ needle) with (String c (p +:+ needle)).
    rewrite includes_cons.
    destruct (String.prefix needle (String c (p +:+ needle))); [done|exact IH].
Qed.

Lemma string_prefix_cons a n b h :
  String.prefix (String a n) (String b h)
  = if Ascii.ascii_dec a b then String.prefix n h else false.
Proof. done. Qed.

Local Ltac next_char q c :=
  destruct q as [|c q]; [by vm_compute|];
  change (String c q +:+ "@c.us") with (String c (q +:+ "@c.us"));
  rewrite !string_prefix_cons;
  destruct (Ascii.ascii_dec _ c); [|done].

(** The suffix ["@c.us"] has its first character nowhere else, so an
    occurrence cannot begin inside [q] and end in an appended copy. *)
Lemma suffix_no_overlap c q :
  String.prefix "@c.us" (String c q) = false →
  String.prefix "@c.us" (String c (q +:+ "@c.us")) = false.
Proof.
  rewrite !string_prefix_cons. destruct (Ascii.ascii_dec _ c); [|done].
  next_char q c2. next_char q c3. next_char q c4. next_char q c5.
  by destruct q.
Qed.

Lemma replace_first_absent needle repl p :
  includes needle p = false → replace_first needle repl p = p.
Proof.
  induction p as [|c p IH].
  - by destruct needle.
  - rewrite includes_cons, replace_first_cons.
    destruct (String.prefix needle (String c p)); [done|].
    intros H. by rewrite IH.
Qed.

Lemma replace_first_suffix p :
  includes "@c.us" p = false →
  replace_first "@c.us" EmptyString (p +:+ "@c.us") = p.
Proof.
  induction p as [|c p IH]; [done|].
  rewrite includes_cons.
  destruct (String.prefix "@c.us" (String c p)) eqn:Ep; [done|]. intros H.
  change (String c p +:+ "@c.us") with (String c (p +:+ "@c.us")).
  rewrite replace_first_cons, (suffix_no_overlap c p Ep). f_equal. by apply IH.
Qed.

(** The chat id of an address always carries the suffix ["@c.us"] and is
    its own chat id; an address that has the suffix is left as it is; and
    [formatPhoneNumber] gives back the address from which a chat id was
    made, when that address did not contain the suffix. *)
Theorem chat_id_round_trip p :
  includes "@c.us" (chat_id p) = true
  ∧ chat_id (chat_id p) = chat_id p
  ∧ (includes "@c.us" p = true → chat_id p = p)
  ∧ (includes "@c.us" p = false →
     chat_id p = p +:+ "@c.us" ∧ formatPhoneNumber (chat_id p) = p
     ∧ formatPhoneNumber p = p).
Proof.
  assert (includes "@c.us" (chat_id p) = true) as Hinc.
  { unfold chat_id. destruct (includes "@c.us" p) eqn:E; [done|].
    apply includes_app_r. }
  split; [done|]. split; [|split].
  - unfold chat_id at 1. by rewrite Hinc.
  - intros H. unfold chat_id. by rewrite H.
  - intros H. unfold chat_id. rewrite H. split; [done|]. split.
    + by apply replace_first_suffix.
    + by apply replace_first_absent.
Qed.


Lemma chat_id_round_trip_witness :
  chat_id "5585999990000" = "5585999990000@c.us"
  ∧ formatPhoneNumber (chat_id "5585999990000") = "5585999990000".
Proof.
  destruct (chat_id_round_trip "5585999990000") as (_ & _ & _ & H).
  destruct H as (H1 & H2 & _); [vm_compute; reflexivity|]. by split.
Defined.

(** ** Bulk sending (WhatsAppBulkMessenger.tsx)

    [sendBulkMessages] maps [addMessage] over the preview.  Only its effect
    on the queue is modelled; the selections, the loading flag and the
    alert belong to the component. *)

(** [interface BulkMessage]; its [status] is one of the first four values
    of [Status]. *)
Record BulkMessage := {
  bulk_id : string;
  bulk_customerId : Z;
  bulk_customerName : string;
  bulk_customerPhone : string;
  bulk_message : string;
  bulk_status : Status;
  bulk_priority : Priority;
  bulk_scheduledFor : option Z
}.

(** What one call inside [preview.map] reads from its environment:
    [new Date().toISOString()] for the metadata, then inside [addMessage]
    the generated id and [new Date()]. *)
Record Drawn := {
  drawn_timestamp : string;
  drawn_id : string;
  drawn_now : Z
}.

(** The object literal handed to [addMessage]; the values of the metadata
    are written as strings. *)
Definition bulk_spec (selectedTemplate : string) (message : BulkMessage)
    (d : Drawn) : NewMessage :=
  {| new_to := chat_id (bulk_customerPhone message);
     new_message := bulk_message message;
     new_type := text;
     new_mediaUrl := None; new_mediaType := None; new_caption := None;
     new_priority := bulk_priority message;
     new_maxAttempts := 3;
     new_scheduledFor := bulk_scheduledFor message;
     new_customerId := Some (bulk_customerId message);
     new_ticketId := None;
     new_metadata := Some [("bulkMessage", "true");
                           ("templateId", selectedTemplate);
                           ("sentBy", "user");
                           ("timestamp", drawn_timestamp d)] |}.

(** [preview.map(message => messageQueue.addMessage({...}))]: the ids
    returned and the queue afterwards. *)
Fixpoint sendBulkMessages (selectedTemplate : string)
    (preview : list (BulkMessage * Drawn)) (s : State) : list string * State :=
  match preview with
  | [] => ([], s)
  | (message, d) :: rest =>
      let r := addMessage (bulk_spec selectedTemplate message d)
                 (drawn_id d) (drawn_now d) s in
      let rs := sendBulkMessages selectedTemplate rest r.2 in
      (r.1 :: rs.1, rs.2)
  end.

(** The message object that [addMessage] makes for one entry of the
    preview. *)
Definition bulk_queued (selectedTemplate : string) (x : BulkMessage * Drawn)
  : QueuedMessage :=
  queuedMessage (bulk_spec selectedTemplate x.1 x.2) (drawn_id x.2) (drawn_now x.2).

(** A preview for two customers at normal priority. *)
Definition sample_preview : list (BulkMessage * Drawn) :=
  [ ({| bulk_id := "preview_7"; bulk_customerId := 7;
        bulk_customerName := "Ana"; bulk_customerPhone := "5585999990000";
        bulk_message := "Oi Ana"; bulk_status := pending;
        bulk_priority := normal; bulk_scheduledFor := None |},
     {| drawn_timestamp := "t1"; drawn_id := "msg_x"; drawn_now := 3000 |});
    ({| bulk_id := "preview_9"; bulk_customerId := 9;
        bulk_customerName := "Rui"; bulk_customerPhone := "5585988880000@c.us";
        bulk_message := "Oi Rui"; bulk_status := pending;
        bulk_priority := normal; bulk_scheduledFor := None |},
     {| drawn_timestamp := "t2"; drawn_id := "msg_y"; drawn_now := 3001 |}) ].

Lemma filter_rank_le_place (p : Priority) (q : list QueuedMessage) m :
  rank (priority m) = rank p →
  filter (λ c, rank (priority c) ≤ rank p)
    (filter (λ c, rank (priority c) ≤ rank p) q
     ++ m :: filter (λ c, rank p < rank (priority c)) q)
  = filter (λ c, rank (priority c) ≤ rank p) q ++ [m].
Proof.
  intros Hm. rewrite filter_app, filter_cons.
  destruct (decide _) as [_|Hn]; [|lia]. f_equal.
  - induction q as [|c q IH]; [done|]. rewrite filter_cons.
    destruct (decide _) as [Hc|Hc]; [|exact IH].
    rewrite filter_cons. destruct (decide _); [|done]. by rewrite IH.
  - f_equal. induction q as [|c q IH]; [done|]. rewrite filter_cons.
    destruct (decide _) as [Hc|Hc]; [|exact IH].
    rewrite filter_cons. destruct (decide _); [lia|exact IH].
Qed.

Lemma filter_rank_lt_place (p : Priority) (q : list QueuedMessage) m :
  rank (priority m) = rank p →
  filter (λ c, rank p < rank (priority c))
    (filter (λ c, rank (priority c) ≤ rank p) q
     ++ m :: filter (λ c, rank p < rank (priority c)) q)
  = filter (λ c, rank p < rank (priority c)) q.
Proof.
  intros Hm. rewrite filter_app, filter_cons.
  destruct (decide _) as [Hn|_]; [lia|].
  assert (filter (λ c, rank p < rank (priority c))
            (filter (λ c, rank (priority c) ≤ rank p) q) = []) as ->.
  { induction q as [|c q IH]; [done|]. rewrite filter_cons.
    destruct (decide _) as [Hc|Hc]; [|exact IH].
    rewrite filter_cons. destruct (decide _); [lia|exact IH]. }
  induction q as [|c q IH]; [done|]. rewrite filter_cons.
  destruct (decide _) as [Hc|Hc]; [|exact IH].
  rewrite filter_cons. destruct (decide _); [|done].
  simpl in IH. simpl. by rewrite IH.
Qed.

Lemma sorted_split (p : Priority) (q : list QueuedMessage) :
  StronglySorted by_priority q →
  q = filter (λ c, rank (priority c) ≤ rank p) q
      ++ filter (λ c, rank p < rank (priority c)) q.
Proof.
  induction 1 as [|c q Hq IHq Hle]; [done|].
  rewrite !filter_cons.
  destruct (decide (rank (priority c) ≤ rank p)) as [Hcp|Hcp].
  - destruct (decide (rank p < rank (priority c))); [lia|].
    simpl. by rewrite <- IHq.
  - destruct (decide (rank p < rank (priority c))); [|lia].
    assert (filter (λ c0, rank (priority c0) ≤ rank p) q = []) as ->.
    { clear IHq Hq. induction q as [|c' q IH']; [done|].
      apply Forall_cons in Hle as [Hc' Hle]. unfold by_priority in Hc'.
      rewrite filter_cons. destruct (decide _); [lia|]. by apply IH'. }
    simpl. f_equal. clear IHq Hq. induction q as [|c' q IH']; [done|].
    apply Forall_cons in Hle as [Hc' Hle]. unfold by_priority in Hc'.
    rewrite filter_cons. destruct (decide _); [|lia]. f_equal. by apply IH'.
Qed.

Lemma sendBulkMessages_order tpl p preview : ∀ s,
  Inv s → StronglySorted by_priority (getMessages s) →
  Forall (λ x, bulk_priority x.1 = p ∧ bulk_scheduledFor x.1 = None) preview →
  (sendBulkMessages tpl preview s).1 = (drawn_id ∘ snd) <$> preview
  ∧ getMessages (sendBulkMessages tpl preview s).2
    = filter (λ c, rank (priority c) ≤ rank p) (getMessages s)
      ++ (bulk_queued tpl <$> preview)
      ++ filter (λ c, rank p < rank (priority c)) (getMessages s).
Proof.
  induction preview as [|[message d] rest IH]; intros s HI Hs Hall.
  - split; [done|]. by apply sorted_split.
  - apply Forall_cons in Hall as [[Hp Hn] Hall]. simpl in Hp, Hn.
    change (sendBulkMessages tpl ((message, d) :: rest) s)
      with (let r := addMessage (bulk_spec tpl message d) (drawn_id d) (drawn_now d) s in
            let rs := sendBulkMessages tpl rest r.2 in (r.1 :: rs.1, rs.2)).
    cbv zeta.
    destruct (addMessage_Tidy (bulk_spec tpl message d) (drawn_id d) (drawn_now d) s
                HI Hs Hn) as [Hs1 Hg1].
    pose proof (addMessage_Inv (bulk_spec tpl message d) (drawn_id d) (drawn_now d) s HI)
      as HI1.
    destruct (IH _ HI1 Hs1 Hall) as [IH1 IH2].
    split; [by rewrite fmap_cons, <- IH1|].
    cbn [snd]. rewrite IH2, Hg1.
    change (new_priority (bulk_spec tpl message d)) with (bulk_priority message).
    rewrite Hp.
    rewrite filter_rank_le_place, filter_rank_lt_place
      by (by change (rank (bulk_priority message) = rank p); rewrite Hp).
    rewrite fmap_cons, <- app_assoc. done.
Qed.

(** In a queue reached without scheduled messages, a bulk send whose
    preview has one priority and no schedule puts its messages into the
    queue together and in the order of the preview, behind every resident
    of the same or a higher priority and before every resident of a lower
    one.  It returns the generated ids in that order, and each new message
    is a pending text message with no attempt made, a budget of three and
    a chat id that carries the suffix ["@c.us"]. *)
Theorem bulk_send_keeps_preview_order ops s tpl p preview :
  Forall unscheduled_op ops → run ops init = Some s →
  Forall (λ x, bulk_priority x.1 = p ∧ bulk_scheduledFor x.1 = None) preview →
  (sendBulkMessages tpl preview s).1 = (drawn_id ∘ snd) <$> preview
  ∧ getMessages (sendBulkMessages tpl preview s).2
    = filter (λ c, rank (priority c) ≤ rank p) (getMessages s)
      ++ (bulk_queued tpl <$> preview)
      ++ filter (λ c, rank p < rank (priority c)) (getMessages s)
  ∧ Forall (λ m, status m = pending ∧ attempts m = 0 ∧ maxAttempts m = 3
                 ∧ type m = text ∧ includes "@c.us" (to m) = true)
      (bulk_queued tpl <$> preview).
Proof.
  intros Hu Hrun Hall.
  destruct (run_Tidy ops init s Hu Tidy_init Hrun) as [HL _ Hs].
  destruct (sendBulkMessages_order tpl p preview s (life_inv s HL) Hs Hall) as [H1 H2].
  split; [done|]. split; [done|].
  apply Forall_fmap, Forall_forall. intros [message d] _.
  repeat split. unfold bulk_queued, queuedMessage, bulk_spec, chat_id. simpl.
  destruct (includes "@c.us" (bulk_customerPhone message)) eqn:E; [done|].
  apply includes_app_r.
Qed.

Lemma bulk_send_keeps_preview_order_witness :
  Forall unscheduled_op sample_ops ∧ run sample_ops init = Some sample_state
  ∧ id <$> getMessages (sendBulkMessages "tpl" sample_preview sample_state).2
    = ["msg_b"; "msg_a"; "msg_x"; "msg_y"; "msg_c"].
Proof.
  assert (Forall unscheduled_op sample_ops) as Hu by (repeat constructor).
  split; [exact Hu|]. split; [vm_compute; reflexivity|].
  destruct (bulk_send_keeps_preview_order sample_ops sample_state "tpl" normal
              sample_preview Hu) as (_ & -> & _).
  - vm_compute; reflexivity.
  - repeat constructor.
  - vm_compute; reflexivity.
Defined.


(** ** The service behind the queue (whatsappService.ts) *)

(** [this.client.sendMessage(chatId, ...)] for the content at hand: the
    promise is fulfilled ([None]) or rejected. *)
Definition Client := string → option Thrown.

(** The fields of [WhatsAppService] that sending reads. *)
Record Service := {
  client : option Client;
  status_isConnected : bool;
  status_isReady : bool
}.

(** [isConnected()]: [this.status.isConnected && this.status.isReady] *)
Definition service_isConnected (sv : Service) : bool :=
  status_isConnected sv && status_isReady sv.

(** [sendMessage] and [sendMedia], which differ in the content only: the
    guard throws, and a rejection by the client is caught and answered
    with false. *)
Definition service_send (sv : Service) (to : string) : SendResult :=
  match client sv with
  | Some c =>
      if status_isReady sv
      then match c (chat_id to) with
           | None => Resolved true
           | Some _ => Resolved false
           end
      else Rejected (ErrorObject "WhatsApp não está conectado")
  | None => Rejected (ErrorObject "WhatsApp não está conectado")
  end.

(** What [processMessage] meets when both imports and [fromUrl] succeed:
    the service as it is when [isConnected] is called, and as it is when
    [sendMessage] or [sendMedia] is called. *)
Definition via_service (sv sv' : Service) (to : string) : Transport :=
  {| isConnected := service_isConnected sv; send := service_send sv' to |}.

(** Histories in which every attempt is answered by the service. *)
Definition served_op (op : Op) : Prop :=
  match op with
  | Resume _ t _ => ∃ sv sv' to, t = via_service sv sv' to
  | _ => True
  end.

Definition failure_text (err : string) : Prop :=
  err = "WhatsApp não está conectado" ∨ err = "Falha ao enviar mensagem".

(** A client that rejects every call, and the history of one message that
    fails for good on a connected service, with the handler set. *)
Definition client_rejecting : Client := λ _, Some OtherValue.

Definition service_ready : Service :=
  {| client := Some client_rejecting; status_isConnected := true;
     status_isReady := true |}.

Definition served_ops : list Op :=
  [ Register onMessageFailed;
    AddMessage (sample_text normal 1 None) "msg_a" 1000;
    Interval 2000;
    Resume 0 (via_service service_ready service_ready "555@dest") 2050 ].

Definition served_state : State :=
  Eval vm_compute in default init (run served_ops init).

Lemma thrown_by_service m sv sv' to :
  failure_text (describe (thrown_by m (via_service sv sv' to))).
Proof.
  unfold thrown_by, send_outcome, via_service, service_send, failure_text. simpl.
  destruct (service_isConnected sv); simpl; [|by left].
  destruct (type m), (client sv') as [c|], (status_isReady sv'); simpl;
    try destruct (truthy _); simpl; try destruct (c _); simpl; auto.
Qed.

Lemma step_failure_texts op s s' :
  served_op op → step op s = Some s' →
  (∀ r err, err ∈ failed_calls r s → failure_text err) →
  ∀ r err, err ∈ failed_calls r s' → failure_text err.
Proof.
  intros Hop Hstep IH r err.
  destruct (decide (resumed op s = Some r)) as [Hres|Hres].
  - destruct op; try done. simpl in Hres.
    destruct (awaiting s !! k) as [[r0 b]|] eqn:Ek; [|done].
    simpl in Hres. assert (r0 = r) as -> by congruence.
    destruct (heap s !! r) as [m|] eqn:Hm.
    + destruct (step_calls_settled k t now s s' r b m Hstep Ek Hm) as [_ ->].
      rewrite elem_of_app. intros [Hin|Hin]; [by eapply IH|].
      destruct (decide _); [|by apply elem_of_nil in Hin].
      destruct (h_onMessageFailed _); [|by apply elem_of_nil in Hin].
      apply list_elem_of_singleton in Hin as ->.
      destruct Hop as (sv & sv' & to & ->). apply thrown_by_service.
    + unfold step in Hstep. case_bool_decide; [|done].
      unfold on_resume, deref in Hstep.
      change (awaiting (set_clock now s)) with (awaiting s) in Hstep.
      change (heap (set_clock now s)) with (heap s) in Hstep.
      by rewrite Ek, Hm in Hstep.
  - destruct (step_calls_other op s s' r Hstep Hres) as [_ ->]. apply IH.
Qed.

Lemma run_failure_texts ops : ∀ s s',
  Forall served_op ops → run ops s = Some s' →
  (∀ r err, err ∈ failed_calls r s → failure_text err) →
  ∀ r err, err ∈ failed_calls r s' → failure_text err.
Proof.
  induction ops as [|op ops IH]; intros s s' Hall; simpl.
  - by intros [= <-].
  - destruct (step op s) as [s1|] eqn:E; [|done].
    apply Forall_cons in Hall as [Hop Hall]. intros Hrun H0.
    eapply IH; [done|done|]. by eapply step_failure_texts.
Qed.

(** When every attempt is answered by the service, an error of the client
    library never reaches [onMessageFailed]: the text the handler receives
    is the text of the service's guard or the text of [processMessage]
    itself, for a text message and for a media message alike. *)
Theorem service_failures_have_two_texts ops s r err :
  Forall served_op ops → run ops init = Some s →
  err ∈ failed_calls r s →
  err = "WhatsApp não está conectado" ∨ err = "Falha ao enviar mensagem".
Proof.
  intros Hall Hrun. apply (run_failure_texts ops init s Hall Hrun).
  intros r0 e H. by apply elem_of_nil in H.
Qed.

Lemma service_failures_have_two_texts_witness :
  Forall served_op served_ops ∧ run served_ops init = Some served_state
  ∧ "Falha ao enviar mensagem" ∈ failed_calls 0 served_state
  ∧ ("Falha ao enviar mensagem" = "WhatsApp não está conectado"
     ∨ "Falha ao enviar mensagem" = "Falha ao enviar mensagem").
Proof.
  assert (Forall served_op served_ops) as Hu.
  { repeat constructor. by exists service_ready, service_ready, "555@dest". }
  assert ("Falha ao enviar mensagem" ∈ failed_calls 0 served_state) as Hin.
  { vm_compute. apply list_elem_of_here. }
  split; [exact Hu|]. split; [vm_compute; reflexivity|]. split; [exact Hin|].
  apply (service_failures_have_two_texts served_ops served_state 0 _ Hu);
    [vm_compute; reflexivity|exact Hin].
Defined.


(** ** After [destroy] *)

(** Nothing starts the interval again: [startProcessing] is called by the
    constructor only. *)
Lemma step_interval_off op s s' :
  step op s = Some s' → processingInterval s = false → processingInterval s' = false.
Proof.
  intros Hstep Hoff. revert Hstep. destruct op; unfold step.
  - case_bool_decide; [|done]. by intros [= <-].
  - intros [= <-]. unfold removeMessage.
    by destruct (list_find _ _) as [[k r]|].
  - intros [= <-]. unfold cancelMessage.
    destruct (getMessage _ _) as [r|]; [|done]. by case_bool_decide.
  - intros [= <-]. unfold clearCompleted. simpl. by case_bool_decide.
  - intros [= <-]. unfold retryFailed.
    destruct (retry_fold_frame (queue s) (0, s)) as (_ & _ & _ & _ & _ & _ & Hc).
    destruct (foldl retry_one (0, s) (queue s)) as [n s1]. simpl in *.
    case_bool_decide; simpl; congruence.
  - by intros [= <-].
  - by rewrite Hoff, andb_false_r.
  - case_bool_decide; [|done]. unfold on_timeout.
    destruct (timers _ !! k) as [[at_ r]|]; [|done].
    case_bool_decide; [|done]. intros [= <-]. by case_bool_decide.
  - case_bool_decide; [|done]. unfold on_resume.
    destruct (awaiting _ !! k) as [[r b]|]; [|done].
    destruct (deref _ r) as [m|]; [|done].
    unfold processMessage_resume, processMessage_try, processMessage_catch.
    destruct (send_outcome m t) as [e|[|]]; simpl;
      try case_bool_decide; intros [= <-]; destruct (b && _); done.
  - by intros [= <-].
Qed.

Lemma step_unattempted op s s' r :
  Life s → processingInterval s = false → step op s = Some s' →
  attempts_on r s = [] → attempts_on r s' = [].
Proof.
  intros HL Hoff Hstep Hr.
  rewrite (step_attempts_on op s s' r (life_inv s HL) Hstep), Hr.
  destruct (decide _) as [Hin|]; [|done]. exfalso.
  destruct op; simpl in Hin; try by apply elem_of_nil in Hin.
  - unfold step in Hstep. by rewrite Hoff, andb_false_r in Hstep.
  - destruct (timers s !! k) as [[at_ r0]|] eqn:Ek; [|by apply elem_of_nil in Hin].
    case_bool_decide; [|by apply elem_of_nil in Hin].
    apply list_elem_of_singleton in Hin as ->.
    destruct (life_timers s HL at_ r0) as (m & Hm & Hge).
    { by eapply list_elem_of_lookup_2. }
    pose proof (life_count s HL r0) as Hc. rewrite Hm, Hr in Hc. simpl in Hc. lia.
Qed.

Lemma run_unattempted ops : ∀ s s' r,
  Life s → processingInterval s = false → run ops s = Some s' →
  attempts_on r s = [] →
  attempts_on r s' = [] ∧ processingInterval s' = false.
Proof.
  induction ops as [|op ops IH]; intros s s' r HL Hoff; simpl.
  - by intros [= <-].
  - destruct (step op s) as [s1|] eqn:E; [|done]. intros Hrun Hr.
    eapply IH; [by eapply step_Life|by eapply step_interval_off|done|].
    by eapply step_unattempted.
Qed.

(** A message that was attempted: every status but pending and cancelled
    takes an attempt to reach. *)
Definition tried (m : QueuedMessage) : Prop :=
  0 ≤ attempts m
  ∧ (status m = sending ∨ status m = sent ∨ status m = failed → 1 ≤ attempts m).

Lemma step_tried op s s' :
  Inv s → step op s = Some s' →
  (∀ r m, heap s !! r = Some m → tried m) →
  ∀ r m, heap s' !! r = Some m → tried m.
Proof.
  intros HI Hstep H0. eapply (step_heap_pred tried); eauto.
  - intros c m m' [Hge Ht] Htr. destruct Htr as [m Hs|m t Hs|m Hs|m Hs]; split; simpl;
      try lia; try (intros _; lia).
    + intros _. apply Ht. by left.
    + intros [E|[E|E]]; done.
    + intros [E|[E|E]]; done.
  - intros spec newid now _. split; simpl; [lia|]. intros [E|[E|E]]; done.
Qed.

Lemma run_tried ops : ∀ s s',
  Inv s → (∀ r m, heap s !! r = Some m → tried m) → run ops s = Some s' →
  ∀ r m, heap s' !! r = Some m → tried m.
Proof.
  induction ops as [|op ops IH]; intros s s' HI H0; simpl.
  - by intros [= <-].
  - destruct (step op s) as [s1|] eqn:E; [|done].
    apply IH; [by eapply step_Inv|by eapply step_tried].
Qed.

(** [destroy] clears the interval and nothing sets it again, so from then
    on no interval callback runs, and whatever else happens, no first
    attempt is started: a message that was not attempted before [destroy],
    or is enqueued after it, is never handed to the service and is never
    being sent, sent or failed.  Only the retry timers and the suspended
    calls of messages attempted before go on. *)
Theorem destroy_stops_first_attempts ops s ops' s' r :
  run ops init = Some s → run ops' (destroy s) = Some s' →
  attempts_on r s = [] →
  attempts_on r s' = []
  ∧ (∀ now, step (Interval now) s' = None)
  ∧ ∀ m, heap s' !! r = Some m →
         attempts m = 0 ∧ (status m = pending ∨ status m = cancelled).
Proof.
  intros Hrun Hrun' Hr.
  assert (Life (destroy s)) as HL.
  { apply (run_Life [Destroy] s); [by eapply reachable_Life|done]. }
  destruct (run_unattempted ops' (destroy s) s' r HL eq_refl Hrun' Hr) as [Hr' Hoff].
  assert (Life s') as HL' by (by eapply run_Life).
  split; [done|]. split.
  - intros now. unfold step. by rewrite Hoff, andb_false_r.
  - intros m Hm. pose proof (life_count s' HL' r) as Hc.
    rewrite Hm, Hr' in Hc. simpl in Hc. split; [done|].
    assert (tried m) as [_ Ht].
    { eapply (run_tried (ops ++ Destroy :: ops') init s'); [apply Inv_init| | |exact Hm].
      - intros r0 m0 H. exact (init_heap_empty r0 m0 _ H).
      - rewrite run_app, Hrun. exact Hrun'. }
    destruct (status m); auto; exfalso;
      (assert (1 ≤ attempts m) by (apply Ht; auto)); lia.
Qed.

(** A history that ends with a message enqueued after [destroy], and
    nothing but time passing since. *)
Definition destroyed_ops : list Op :=
  [ AddMessage (sample_text normal 3 None) "msg_b" 5000;
    RetryFailed; ClearCompleted ].

Definition destroyed_state : State :=
  Eval vm_compute in default init (run destroyed_ops (destroy sample_state)).

Lemma destroy_stops_first_attempts_witness :
  run sample_ops init = Some sample_state
  ∧ run destroyed_ops (destroy sample_state) = Some destroyed_state
  ∧ attempts_on 3 sample_state = []
  ∧ attempts_on 3 destroyed_state = []
  ∧ (status <$> heap destroyed_state !! 3%nat) = Some pending.
Proof.
  split; [vm_compute; reflexivity|]. split; [vm_compute; reflexivity|].
  split; [vm_compute; reflexivity|]. split; [|vm_compute; reflexivity].
  apply (destroy_stops_first_attempts sample_ops sample_state destroyed_ops
           destroyed_state 3); vm_compute; reflexivity.
Defined.

End Lifecycle.
